(** * DataJoint table engine and AutoMake: a shallow embedding

    The development follows [datajoint/table.py] and
    [datajoint/automake.py].  Python objects are represented by the
    inductive [pyval]; dictionaries keep their insertion order and are
    association lists with string keys; the set and the defaultdict of
    the cascade are a finite set and a finite map; effects on the
    connection (queries, transaction control, console traffic, warnings)
    are threaded through a small state-and-exception monad.  The database
    server, the foreign-key catalog and the value codec are parameters. *)

From Stdlib Require Import ZArith Ascii.
From stdpp Require Import base strings list gmap pretty.

Set Default Proof Using "Type".

(** ** Python values *)

#[warnings="-register-all"]
Inductive pyval : Type :=
| PNone
| PInt (z : Z)
| PStr (s : string)
| PList (l : list pyval)
| PTuple (l : list pyval)
| PSet (l : list pyval)
| PDict (d : list (string * pyval)).

Abbreviation pydict := (list (string * pyval)).

Lemma pyval_eq_dec : ∀ x y : pyval, {x = y} + {x ≠ y}.
Proof.
  fix IH 1.
  assert (Hl : ∀ l1 l2 : list pyval, {l1 = l2} + {l1 ≠ l2}).
  { intros l1 l2. apply List.list_eq_dec. exact IH. }
  assert (Hd : ∀ d1 d2 : pydict, {d1 = d2} + {d1 ≠ d2}).
  { intros d1 d2. apply List.list_eq_dec. intros [k1 v1] [k2 v2].
    destruct (String.string_dec k1 k2) as [->|Hk]; [|right; congruence].
    destruct (IH v1 v2) as [->|Hv]; [left; reflexivity|right; congruence]. }
  intros x y. destruct x, y; try (right; discriminate).
  - left; reflexivity.
  - destruct (Z.eq_dec z z0) as [->|]; [left; reflexivity|right; congruence].
  - destruct (String.string_dec s s0) as [->|]; [left; reflexivity|right; congruence].
  - destruct (Hl l l0) as [->|]; [left; reflexivity|right; congruence].
  - destruct (Hl l l0) as [->|]; [left; reflexivity|right; congruence].
  - destruct (Hl l l0) as [->|]; [left; reflexivity|right; congruence].
  - destruct (Hd d d0) as [->|]; [left; reflexivity|right; congruence].
Defined.

#[global] Instance pyval_eq : EqDecision pyval := pyval_eq_dec.

(** [hash(v)] succeeds: lists, sets and dicts are unhashable, a tuple is
    hashable when all of its items are. *)
Fixpoint hashable (v : pyval) : bool :=
  match v with
  | PNone | PInt _ | PStr _ => true
  | PTuple l => forallb hashable l
  | PList _ | PSet _ | PDict _ => false
  end.

(** ** Exceptions and results *)

Inductive exn : Type :=
| KeyError (k : pyval)
| TypeError
| ValueError
| IndexError
| RuntimeError
| AttributeError
| OutOfFuel
| AssertionError (msg : string)
| DataJointError (msg : string)
| BackendError (code : Z)
| Unmodelled.

Inductive result (A : Type) : Type :=
| Ok (a : A)
| Raise (e : exn).
Arguments Ok {A} a.
Arguments Raise {A} e.

Definition rbind {A B} (r : result A) (k : A → result B) : result B :=
  match r with
  | Ok a => k a
  | Raise e => Raise e
  end.

Fixpoint rmap {A B} (f : A → result B) (l : list A) : result (list B) :=
  match l with
  | [] => Ok []
  | x :: l' => rbind (f x) (λ y, rbind (rmap f l') (λ ys, Ok (y :: ys)))
  end.

(** ** Insertion-ordered dictionaries with string keys *)

Fixpoint dict_get (k : string) (d : pydict) : option pyval :=
  match d with
  | [] => None
  | (k', v) :: d' => if decide (k' = k) then Some v else dict_get k d'
  end.

(** [d[k] = v]: an existing key keeps its position, a new key goes last. *)
Fixpoint dict_set (k : string) (v : pyval) (d : pydict) : pydict :=
  match d with
  | [] => [(k, v)]
  | (k', v') :: d' =>
      if decide (k' = k) then (k, v) :: d' else (k', v') :: dict_set k v d'
  end.

Fixpoint dict_del (k : string) (d : pydict) : pydict :=
  match d with
  | [] => []
  | (k', v') :: d' =>
      if decide (k' = k) then dict_del k d' else (k', v') :: dict_del k d'
  end.

(** [d.pop(k)] *)
Definition dict_pop (k : string) (d : pydict) : result (pyval * pydict) :=
  match dict_get k d with
  | Some v => Ok (v, dict_del k d)
  | None => Raise (KeyError (PStr k))
  end.

(** [d.update(other)] for a mapping [other]. *)
Definition dict_update (d other : pydict) : pydict :=
  foldl (λ acc kv, dict_set kv.1 kv.2 acc) d other.

(** The dictionaries built by Python code never repeat a key. *)
Definition dict_wf (d : pydict) : Prop := NoDup (d.*1).

(** The characters of a string, as one-character strings. *)
Fixpoint chars (s : string) : list pyval :=
  match s with
  | EmptyString => []
  | String c s' => PStr (String c EmptyString) :: chars s'
  end.

(** [list(v)], the items produced by iterating over [v]; a set is iterated
    in the order of its representation. *)
Definition py_iter (v : pyval) : result (list pyval) :=
  match v with
  | PList l | PTuple l | PSet l => Ok l
  | PStr s => Ok (chars s)
  | PDict d => Ok (PStr <$> d.*1)
  | PNone | PInt _ => Raise TypeError
  end.

(** [set(l)]: every item is hashed; equal items are kept once. *)
Definition py_set (l : list pyval) : result pyval :=
  if forallb hashable l then Ok (PSet (remove_dups l)) else Raise TypeError.

(** [d.update(v)] for an arbitrary object [v]: a mapping is merged key by
    key; any other iterable has to yield key/value pairs.  Pairs whose key
    is not a string fall outside the string-keyed dictionaries used here. *)
Definition pair_of (item : pyval) : result (string * pyval) :=
  match item with
  | PList [PStr k; v] | PTuple [PStr k; v] => Ok (k, v)
  | PList [_; _] | PTuple [_; _] => Raise Unmodelled
  | PList _ | PTuple _ => Raise ValueError
  | PNone | PInt _ => Raise TypeError
  | PStr _ | PSet _ | PDict _ => Raise Unmodelled
  end.

Definition dict_update_from (d : pydict) (v : pyval) : result pydict :=
  match v with
  | PDict other => Ok (dict_update d other)
  | PNone | PInt _ => Raise TypeError
  | _ => rbind (py_iter v) (λ items,
         rbind (rmap pair_of items) (λ kvs, Ok (dict_update d kvs)))
  end.

(** ** AutoMake: argument assembly *)

Module AutoMake.

(** [entry[k]] on the fetched entry, a dict keyed by column name. *)
Definition entry_item (entry : pydict) (k : pyval) : result pyval :=
  match k with
  | PStr s =>
      match dict_get s entry with
      | Some v => Ok v
      | None => Raise (KeyError k)
      end
  | _ => if hashable k then Raise (KeyError k) else Raise TypeError
  end.

(** One iteration of the loop over [entry_settings.items()]: the value
    bound to keyword [kw] according to the type of [arg]. *)
Definition bind_arg (entry : pydict) (arg : pyval) : result pyval :=
  match arg with
  | PStr _ => entry_item entry arg
  | PList l => rbind (rmap (entry_item entry) l) (λ vs, Ok (PList vs))
  | PTuple l => rbind (rmap (entry_item entry) l) (λ vs, Ok (PTuple vs))
  | PSet l => rbind (rmap (entry_item entry) l) py_set
  | PDict m =>
      rbind (rmap (λ kv, rbind (entry_item entry kv.2) (λ v, Ok (kv.1, v))) m)
            (λ d, Ok (PDict d))
  | PNone | PInt _ =>
      Raise (DataJointError
               "argument in entry settings must be str, tuple, or list")
  end.

Fixpoint substitute_entry_settings (entry : pydict)
    (entry_settings : pydict) (kwargs : pydict) : result pydict :=
  match entry_settings with
  | [] => Ok kwargs
  | (kw, arg) :: rest =>
      rbind (bind_arg entry arg) (λ v,
        substitute_entry_settings entry rest (dict_set kw v kwargs))
  end.

Definition _create_kwargs (entry entry_settings global_settings : pydict)
    (settings_args settings_kwargs : option string)
    : result (list pyval * pydict) :=
  let args : list pyval := [] in
  let kwargs := global_settings in
  rbind (substitute_entry_settings entry entry_settings kwargs) (λ kwargs,
  rbind (match settings_args with
         | Some a =>
             rbind (dict_pop a kwargs) (λ '(v, kwargs),
             rbind (py_iter v) (λ items, Ok (args ++ items, kwargs)))
         | None => Ok (args, kwargs)
         end) (λ '(args, kwargs),
  rbind (match settings_kwargs with
         | Some k =>
             rbind (dict_pop k kwargs) (λ '(kw, kwargs),
               dict_update_from kwargs kw)
         | None => Ok kwargs
         end) (λ kwargs,
  Ok (args, kwargs)))).

End AutoMake.


(** ** Table names *)

Definition is_digit_char (c : ascii) : bool :=
  match Ascii.is_nat c with Some _ => true | None => false end.

Fixpoint all_chars (p : ascii → bool) (s : string) : bool :=
  match s with
  | EmptyString => true
  | String c s' => p c && all_chars p s'
  end.

(** [s.isdigit()]: projection nodes of the dependency graph are named by
    a number. *)
Definition isdigit (s : string) : bool :=
  match s with
  | EmptyString => false
  | String _ _ => all_chars is_digit_char s
  end.

(** [s.replace(c, '')] for a one-character [c]. *)
Fixpoint remove_char (c : ascii) (s : string) : string :=
  match s with
  | EmptyString => EmptyString
  | String c' s' =>
      if decide (c' = c) then remove_char c s' else String c' (remove_char c s')
  end.

Fixpoint lstrip (c : ascii) (s : string) : string :=
  match s with
  | EmptyString => EmptyString
  | String c' s' => if decide (c' = c) then lstrip c s' else s
  end.

(** [s.strip(c)] *)
Definition strip (c : ascii) (s : string) : string :=
  String.rev (lstrip c (String.rev (lstrip c s))).

(** [s.split(c)[-1]]: what follows the last occurrence of [c]. *)
Fixpoint last_field (c : ascii) (acc s : string) : string :=
  match s with
  | EmptyString => acc
  | String c' s' =>
      if decide (c' = c) then last_field c EmptyString s'
      else last_field c (acc +:+ String c' EmptyString) s'
  end.

Definition startswith (p s : string) : bool := String.prefix p s.

(** The test of [_check_downstream_autopopulated] on a child's name. *)
Definition is_autopopulated (child_name : string) : bool :=
  let t := strip "`"%char (last_field "."%char EmptyString child_name) in
  startswith "__" t || startswith "_" t || startswith "_#" t || startswith "#_" t.

(** [s.split(c)]: the fields between the occurrences of [c]. *)
Fixpoint split (c : ascii) (s : string) : list string :=
  match s with
  | EmptyString => [EmptyString]
  | String c' s' =>
      if decide (c' = c) then EmptyString :: split c s'
      else match split c s' with
           | field :: fields => String c' field :: fields
           | [] => [String c' EmptyString]
           end
  end.

(** [FreeTable.__init__] on a full table name: the unpacking of
    [(s.strip('`') for s in full_table_name.split('.'))] into the
    database and the table name asks for exactly two fields. *)
Definition free_table_init (full_table_name : string)
    : result (string * string) :=
  match strip "`"%char <$> split "."%char full_table_name with
  | [database; table_name] => Ok (database, table_name)
  | _ => Raise ValueError
  end.

(** The property [full_table_name] of a handle. *)
Definition format_full_table_name (database table_name : string) : string :=
  "`" +:+ database +:+ "`.`" +:+ table_name +:+ "`".

(** [c in s] for a character. *)
Fixpoint has_char (c : ascii) (s : string) : bool :=
  match s with
  | EmptyString => false
  | String c' s' => bool_decide (c' = c) || has_char c s'
  end.

(** An ordered dictionary keyed by table name. *)
Fixpoint od_set {A} (k : string) (v : A) (d : list (string * A))
    : list (string * A) :=
  match d with
  | [] => [(k, v)]
  | (k', v') :: d' =>
      if decide (k' = k) then (k, v) :: d' else (k', v') :: od_set k v d'
  end.

Fixpoint od_get {A} (k : string) (d : list (string * A)) : option A :=
  match d with
  | [] => None
  | (k', v) :: d' => if decide (k' = k) then Some v else od_get k d'
  end.

Definition od_of_list {A} (l : list (string * A)) : list (string * A) :=
  foldl (λ d kv, od_set kv.1 kv.2 d) [] l.

(** ** The dependency graph *)

Record edge_props := EdgeProps {
  primary : bool;
  aliased : bool;
  attr_map : list (string * string)
}.

(** Modelled from the spec: the dependency-graph catalog of section 4.1 is
    a collaborator whose module is not part of the sources.  Edges go from
    the referenced table to the referencing one and carry the foreign-key
    properties; [reach] records, per node, the answer of the catalog's own
    traversal (the node first, then its descendants, ancestors before
    descendants). *)
Record graph := Graph {
  nodes : list string;
  edges : list (string * string * edge_props);
  reach : list (string * list string)
}.

Definition empty_graph : graph := Graph [] [] [].

(** Modelled from the spec: [descendants(table)]; nothing is recorded
    for a node the catalog does not know. *)
Definition descendants (g : graph) (name : string) : list string :=
  default [] (od_get name (reach g)).

Definition primary_matches (want : option bool) (p : edge_props) : bool :=
  match want with
  | None => true
  | Some b => bool_decide (primary p = b)
  end.

(** Modelled from the spec: [children(table, primary?)] keeps the edges
    that leave [table]; [primary] filters them (section 4.1). *)
Definition children (g : graph) (name : string) (want : option bool)
    : list (string * edge_props) :=
  omap (λ e, if bool_decide (e.1.1 = name) && primary_matches want e.2
             then Some (e.1.2, e.2) else None) (edges g).

(** Modelled from the spec: [parents(table, primary?)], the edges that
    enter [table]. *)
Definition parents (g : graph) (name : string) (want : option bool)
    : list (string * edge_props) :=
  omap (λ e, if bool_decide (e.1.2 = name) && primary_matches want e.2
             then Some (e.1.1, e.2) else None) (edges g).

(** ** Query expressions *)

(** A restriction condition.  [CProj q renames] is the restriction by
    the projection of [q] on its key with the attributes [renames]
    renamed; [CAnd] and [COr] come from restricting by an AndList and by
    a list. *)
Inductive qexpr : Type :=
| QTable (name : string) (restr : cond)
with cond : Type :=
| CTrue
| CFalse
| CRaw (c : pyval)
| CAnd (c1 c2 : cond)
| COr (c1 c2 : cond)
| CProj (q : qexpr) (renames : list (string * string)).

Definition and_list (cs : list cond) : cond := foldr CAnd CTrue cs.
Definition or_list (cs : list cond) : cond := foldr COr CFalse cs.

(** A table handle: a base relation with the AndList of restrictions
    applied to it.  [_allow_insert] is the attribute set by AutoPopulate
    ([true] when absent), [_part_tables] the cache of [part_tables]. *)
Record table := Table {
  full_table_name : string;
  restriction : list cond;
  _allow_insert : bool;
  _part_tables : option (list string)
}.

Definition FreeTable (name : string) : table := Table name [] true None.

Definition as_query (t : table) : qexpr :=
  QTable (full_table_name t) (and_list (restriction t)).

(** [t & c] *)
Definition restrict (t : table) (c : cond) : table :=
  Table (full_table_name t) (restriction t ++ [c]) (_allow_insert t)
        (_part_tables t).

Definition with_part_tables (t : table) (pts : list string) : table :=
  Table (full_table_name t) (restriction t) (_allow_insert t) (Some pts).

(** ** Queries, events and the connection *)

Record row_to_insert := RowToInsert {
  names : list string;
  placeholders : list string;
  values : list (option pyval)
}.

Inductive sql : Type :=
| SqlInsert (tbl : string) (replace skip_duplicates : bool)
            (fields : list string) (rows : list row_to_insert)
| SqlInsertSelect (tbl : string) (replace skip_duplicates : bool)
                  (fields : list string) (source : qexpr)
| SqlDelete (q : qexpr)
| SqlUpdate (q : qexpr) (assignments : list (string * string))
            (args : list pyval)
| SqlDropTable (tbl : string).

Inductive event : Type :=
| EvQuery (q : sql)
| EvStart
| EvCommit
| EvCancel
| EvLoad
| EvPrint (msg : string)
| EvPrompt (msg : string)
| EvWarn (msg : string)
| EvLogger (msg : string)
| EvLog (msg : string).

(** A pandas DataFrame (or numpy recarray): its columns and its records,
    each record giving a value per column. *)
Record frame := Frame {
  columns : list string;
  records : list pydict
}.

Inductive rows_arg : Type :=
| RowsRecarray (f : frame)
| RowsDict (d : pydict)
| RowsFrame (f : frame)
| RowsOther (v : pyval).

(** [df[cols]] on one record. *)
Definition select (cols : list string) (r : pydict) : pydict :=
  (λ c, (c, default PNone (dict_get c r))) <$> cols.

Definition frame_select (cols : list string) (f : frame) : frame :=
  Frame cols (select cols <$> records f).

(** [df.drop_duplicates(subset)]: the first record of each group of
    records that agree on the [subset] columns. *)
Fixpoint drop_duplicates_from (subset : list string)
    (seen : list (list pyval)) (rs : list pydict) : list pydict :=
  match rs with
  | [] => []
  | r :: rest =>
      let k := (select subset r).*2 in
      if bool_decide (k ∈ seen) then drop_duplicates_from subset seen rest
      else r :: drop_duplicates_from subset (k :: seen) rest
  end.

Definition drop_duplicates (subset : list string) (rs : list pydict)
    : list pydict :=
  drop_duplicates_from subset [] rs.

(** What a computation function may return: a plain value, a pandas
    DataFrame or a numpy recarray. *)
Inductive pyobj : Type :=
| ObjVal (v : pyval)
| ObjFrame (f : frame)
| ObjRecarray (f : frame).

(** [sub in s] for strings. *)
Fixpoint contains (sub s : string) : bool :=
  startswith sub s ||
  match s with
  | EmptyString => false
  | String _ s' => contains sub s'
  end.

(** ** The definition of an auto-made table

    Definitions are taken to be written in ASCII. *)

(** [c.isspace()], which is also the class [\s] of a pattern. *)
Definition is_space (c : ascii) : bool :=
  let n := nat_of_ascii c in
  (9 <=? n) && (n <=? 13) || (28 <=? n) && (n <=? 32).

Definition newline : ascii := "010"%char.

Fixpoint lstrip_space (s : string) : string :=
  match s with
  | EmptyString => EmptyString
  | String c s' => if is_space c then lstrip_space s' else s
  end.

(** [s.strip()] *)
Definition strip_space (s : string) : string :=
  String.rev (lstrip_space (String.rev (lstrip_space s))).

(** [re.split(r'\s*\n\s*', s)]: the separators are the maximal runs of
    white space that hold a newline.  [field] is the text read since the
    last separator, [ws] the run of white space being read, and [nl]
    tells whether that run holds a newline. *)
Fixpoint split_lines (field ws : string) (nl : bool) (s : string)
    : list string :=
  match s with
  | EmptyString => if nl then [field; EmptyString] else [field +:+ ws]
  | String c s' =>
      if is_space c
      then split_lines field (ws +:+ String c EmptyString)
             (nl || bool_decide (c = newline)) s'
      else if nl
           then field :: split_lines (String c EmptyString) EmptyString false s'
           else split_lines (field +:+ ws +:+ String c EmptyString)
                  EmptyString false s'
  end.

(** [sep.join(l)] *)
Fixpoint join (sep : string) (l : list string) : string :=
  match l with
  | [] => EmptyString
  | [x] => x
  | x :: rest => x +:+ sep +:+ join sep rest
  end.

(** [l.insert(i, x)] for an index within the list. *)
Definition list_insert_at {A} (i : nat) (x : A) (l : list A) : list A :=
  take i l ++ x :: drop i l.

(** A line that ends the primary key of a definition. *)
Definition is_divider (line : string) : bool :=
  startswith "---" line || startswith "___" line.

(** [AutoMake.set_true_definition] on the name of the class and its
    definition; a definition given as a property is left alone and is not
    modelled.  [insert(-1, x)] puts [x] before the last line. *)
Definition set_true_definition (name definition : string) : string :=
  let settings_table_attribute := "-> " +:+ (name +:+ "Settings") in
  if contains settings_table_attribute definition then definition
  else
    let lines := split_lines EmptyString EmptyString false
                   (strip_space definition) in
    let lines :=
      match list_find (λ line, is_divider line = true) lines with
      | None => list_insert_at (length lines - 1) settings_table_attribute lines
      | Some (in_key_index, _) =>
          list_insert_at in_key_index settings_table_attribute lines
      end in
    join (String newline EmptyString) lines.

(** The database server as seen from the client: how a write statement
    changes the contents (and how many rows it affects, or which error it
    reports), and how many rows a query expression has. *)
Record backend (db : Type) := Backend {
  run_sql : sql → db → result (nat * db);
  count_rows : db → qexpr → nat;
  is_declared : db → string → bool;
  fetch1 : db → qexpr → result pydict;
  fetch_columns : db → qexpr → pydict
}.
Arguments Backend {db} _ _ _ _ _.
Arguments run_sql {db} _ _ _.
Arguments count_rows {db} _ _ _.
Arguments is_declared {db} _ _ _.
Arguments fetch1 {db} _ _ _.
Arguments fetch_columns {db} _ _ _.

(** What does not change during one operation: the foreign-key catalog
    read by [dependencies.load()], the headings, [config['safemode']],
    the value codec behind [_make_placeholder] and the answer typed at a
    prompt. *)
Record world := World {
  catalog : graph;
  heading : string → option (list string);
  primary_key : string → list string;
  safemode : bool;
  codec : string → string → pyval → result (string * option pyval);
  user_answer : string;
  make_compatible : pyobj → result pyobj
}.

(** The entries of [delete_list]: a table handle, or for a projection
    node the [_RenameMap] made of its parent and the edge from it. *)
Inductive dl_item : Type :=
| DlTable (t : table)
| DlRename (parent : string) (props : edge_props).

(** The terms collected in [restrictions]: the restriction of [self], or
    the entry of [delete_list] stored under a name.  The entry is shared
    with [delete_list], so it is kept by name and read when it is used. *)
Inductive rterm : Type :=
| RSelf (r : list cond)
| RItem (name : string).

Definition nl : string := String (ascii_of_nat 10) EmptyString.

(** One row of the settings table of an AutoMake table. *)
Record settings := Settings {
  settings_name : pyval;
  fetch_tables : qexpr;
  fetch_method : string;
  parse_unique : list string;
  entry_settings : pydict;
  global_settings : pydict;
  args : option string;
  kwargs : option string;
  func : list pyval → pydict → result pyobj
}.

Section Engine.

Variable db : Type.
Variable B : backend db.
Variable W : world.

(** Modelled from the spec: the connection of section 6 (query execution,
    transaction begin/commit/cancel and the in-transaction flag).
    [store] holds the committed contents; inside a transaction [work]
    holds the contents as changed so far, which a commit makes durable
    and a cancel discards. *)
Record conn := Conn {
  store : db;
  work : option db;
  dependencies : graph;
  trace : list event
}.

Definition in_transaction (c : conn) : bool := bool_decide (is_Some (work c)).

Definition visible (c : conn) : db := default (store c) (work c).

Definition log_event (ev : event) (c : conn) : conn :=
  Conn (store c) (work c) (dependencies c) (trace c ++ [ev]).

Definition write (d : db) (c : conn) : conn :=
  match work c with
  | Some _ => Conn (store c) (Some d) (dependencies c) (trace c)
  | None => Conn d None (dependencies c) (trace c)
  end.

(** *** The monad of operations on a connection *)

Definition M (A : Type) : Type := conn → result A * conn.

Definition ret {A} (a : A) : M A := λ c, (Ok a, c).

Definition bind {A C} (m : M A) (k : A → M C) : M C :=
  λ c, match m c with
       | (Ok a, c') => k a c'
       | (Raise e, c') => (Raise e, c')
       end.

Definition raise {A} (e : exn) : M A := λ c, (Raise e, c).

Definition lift {A} (r : result A) : M A := λ c, (r, c).

Definition emit (ev : event) : M unit := λ c, (Ok (), log_event ev c).

Definition get_conn : M conn := λ c, (Ok c, c).

(** [try: m except: handler; raise] *)
Definition on_error {A} (m : M A) (handler : M unit) : M A :=
  λ c, match m c with
       | (Ok a, c') => (Ok a, c')
       | (Raise e, c') =>
           match handler c' with
           | (Ok _, c'') => (Raise e, c'')
           | (Raise e', c'') => (Raise e', c'')
           end
       end.

Declare Scope conn_scope.
Delimit Scope conn_scope with conn.
Notation "x ← y ; z" := (bind y (λ x, z))
  (at level 20, y at level 100, z at level 200, only parsing) : conn_scope.
Notation "' x ← y ; z" := (bind y (λ x, z))
  (at level 20, x pattern, y at level 100, z at level 200, only parsing)
  : conn_scope.
Notation "x ;; z" := (bind x (λ _, z))
  (at level 100, z at level 200, only parsing, right associativity)
  : conn_scope.
Local Open Scope conn_scope.

(** Modelled from the spec: transaction begin.  The connection refuses to
    nest transactions. *)
Definition start_transaction : M unit := λ c,
  if in_transaction c
  then (Raise (DataJointError "Nested connections are not supported."), c)
  else (Ok (), log_event EvStart
                 (Conn (store c) (Some (store c)) (dependencies c) (trace c))).

(** Modelled from the spec: transaction cancel discards what the open
    transaction changed and clears the flag. *)
Definition cancel_transaction : M unit := λ c,
  (Ok (), log_event EvCancel (Conn (store c) None (dependencies c) (trace c))).

(** Modelled from the spec: transaction commit makes the changes durable
    and clears the flag. *)
Definition commit_transaction : M unit := λ c,
  (Ok (), log_event EvCommit (Conn (visible c) None (dependencies c) (trace c))).

(** Modelled from the spec: [with connection.transaction: body] opens a
    transaction, cancels it when [body] raises (the error then surfaces to
    the caller, section 5) and commits it otherwise. *)
Definition transaction {A} (body : M A) : M A :=
  a ← on_error (start_transaction ;; body) cancel_transaction;
  commit_transaction ;;
  ret a.

(** Modelled from the spec: query execution.  A statement that the server
    rejects changes nothing. *)
Definition query (q : sql) : M nat := λ c,
  let c1 := log_event (EvQuery q) c in
  match run_sql B q (visible c) with
  | Ok (n, d) => (Ok n, write d c1)
  | Raise e => (Raise e, c1)
  end.

(** [connection.dependencies.load()] *)
Definition load : M unit := λ c,
  (Ok (), log_event EvLoad (Conn (store c) (work c) (catalog W) (trace c))).

(** [len(q)] *)
Definition len (q : qexpr) : M nat := λ c, (Ok (count_rows B (visible c) q), c).

(** [self._log(...)]: the entry is written by an INSERT into the log
    table of the schema, whose failure as a DataJointError is swallowed.
    The log table is kept apart from the modelled contents: the entry is
    a log event of the trace, not a statement on the contents. *)
Definition _log (msg : string) : M unit := emit (EvLog msg).

Definition heading_names (t : table) : list string :=
  default [] (heading W (full_table_name t)).

Definition pk_names (t : table) : list string := primary_key W (full_table_name t).

(** ** Part tables *)

(** The loop of [part_tables] over [self.children().items()]. *)
Fixpoint part_names (g : graph) (self_table_name : string)
    (chs : list (string * edge_props)) : result (list string) :=
  match chs with
  | [] => Ok []
  | (child_table_name, child_info) :: rest =>
      rbind (if aliased child_info
             then match children g child_table_name None with
                  | [] => Raise IndexError
                  | (n, _) :: _ => Ok n
                  end
             else Ok child_table_name) (λ child_table_name,
      let stripped := remove_char "`"%char child_table_name in
      rbind (part_names g self_table_name rest) (λ rest',
      if startswith (self_table_name +:+ "__") stripped
      then Ok (child_table_name :: rest') else Ok rest'))
  end.

(** [self.part_tables]: the cached tuple, or the children whose name
    extends the master's name by a double underscore.  The handles are
    returned by name; the second component is [self] with the cache
    filled. *)
Definition part_tables (self : table) : M (list string * table) :=
  match _part_tables self with
  | Some pts => ret (pts, self)
  | None =>
      load ;;
      c ← get_conn;
      let self_table_name := remove_char "`"%char (full_table_name self) in
      pts ← lift (part_names (dependencies c) self_table_name
                    (children (dependencies c) (full_table_name self) None));
      ret (pts, with_part_tables self pts)
  end.

Definition has_part_tables (self : table) : M (bool * table) :=
  ' (pts, self) ← part_tables self;
  ret (negb (bool_decide (pts = [])), self).

(** ** InsertEngine *)

Record insert_opts := InsertOpts {
  replace : bool;
  skip_duplicates : bool;
  ignore_extra_fields : bool;
  allow_direct_insert : bool
}.

Definition default_opts : insert_opts := InsertOpts false false false false.

Inductive insert_source : Type :=
| FromRows (rows : list pyval)
| FromQuery (q : qexpr).

Definition same_fields (l1 l2 : list string) : bool :=
  bool_decide (list_to_set l1 =@{gset string} list_to_set l2).

Definition _check_fields (self : table) (fields : list string)
    (field_list : option (list string)) (ignore_extra : bool) : result unit :=
  match field_list with
  | None =>
      if ignore_extra then Ok ()
      else match filter (λ f, f ∉ heading_names self) fields with
           | f :: _ => Raise (KeyError (PStr f))
           | [] => Ok ()
           end
  | Some fl =>
      if same_fields fl (filter (λ f, f ∈ heading_names self) fields)
      then Ok ()
      else Raise (DataJointError "Attempt to insert rows with different fields")
  end.

(** [_make_placeholder]: the encoding of the value is the codec's. *)
Definition _make_placeholder (self : table) (name : string) (value : pyval)
    (ignore_extra : bool) : result (option (string * string * option pyval)) :=
  if ignore_extra && bool_decide (name ∉ heading_names self) then Ok None
  else if bool_decide (name ∉ heading_names self)
       then Raise (KeyError (PStr name))
       else rbind (codec W (full_table_name self) name value)
                  (λ pv, Ok (Some (name, pv.1, pv.2))).

Definition _make_row_to_insert (self : table) (row : pyval)
    (ignore_extra : bool) (field_list : option (list string))
    : result row_to_insert :=
  rbind
    (match row with
     | PDict d =>
         rbind (_check_fields self (d.*1) field_list ignore_extra) (λ _,
         rmap (λ name, _make_placeholder self name
                         (default PNone (dict_get name d)) ignore_extra)
              (filter (λ name, name ∈ d.*1) (heading_names self)))
     | PNone | PInt _ => Raise (DataJointError "Datatype cannot be inserted")
     | PList _ | PTuple _ | PSet _ | PStr _ =>
         rbind (py_iter row) (λ items,
         if bool_decide (length items ≠ length (heading_names self))
         then Raise (DataJointError
                "Invalid insert argument. Incorrect number of attributes")
         else rmap (λ nv, _make_placeholder self nv.1 nv.2 ignore_extra)
                   (zip (heading_names self) items))
     end)
    (λ attributes,
     let attributes := omap id attributes in
     if bool_decide (attributes = [])
     then Raise (AssertionError "Empty tuple")
     else Ok (RowToInsert (attributes.*1.*1) (attributes.*1.*2) (attributes.*2))).

(** [names.index(field)] *)
Fixpoint index_of (field : string) (l : list string) : result nat :=
  match l with
  | [] => Raise ValueError
  | x :: l' => if decide (x = field) then Ok 0
               else rbind (index_of field l') (λ i, Ok (S i))
  end.

Definition reorder (field_list : list string) (r : row_to_insert)
    : result row_to_insert :=
  rbind (rmap (λ field, index_of field (names r)) field_list) (λ order,
  Ok (RowToInsert (omap (λ i, names r !! i) order)
                  (omap (λ i, placeholders r !! i) order)
                  (omap (λ i, values r !! i) order))).

(** The rows in the order given, the first one fixing [field_list]. *)
Fixpoint make_rows_to_insert (self : table) (ignore_extra : bool)
    (field_list : option (list string)) (rows : list pyval)
    : result (option (list string) * list row_to_insert) :=
  match rows with
  | [] => Ok (field_list, [])
  | row :: rest =>
      rbind (_make_row_to_insert self row ignore_extra field_list) (λ r,
      rbind (match field_list with
             | None => Ok (Some (names r), r)
             | Some fl => rbind (reorder fl r) (λ r', Ok (Some fl, r'))
             end) (λ fr,
      rbind (make_rows_to_insert self ignore_extra fr.1 rest) (λ out,
      Ok (out.1, fr.2 :: out.2))))
  end.

Definition insert (self : table) (rows : insert_source) (o : insert_opts)
    : M unit :=
  if negb (allow_direct_insert o) && negb (_allow_insert self)
  then raise (DataJointError
    "Inserts into an auto-populated table can only done inside its make method during a populate call.")
  else
    match rows with
    | FromQuery (QTable src _ as q) =>
        let src_heading := default [] (heading W src) in
        (if ignore_extra_fields o then ret ()
         else match filter (λ n, n ∉ heading_names self) src_heading with
              | _ :: _ => raise (DataJointError "Attribute not found.")
              | [] => ret ()
              end) ;;
        let fields := filter (λ n, n ∈ heading_names self) src_heading in
        query (SqlInsertSelect (full_table_name self) (replace o)
                 (skip_duplicates o) fields q) ;;
        ret ()
    | FromRows rs =>
        match heading W (full_table_name self) with
        | None => emit (EvLogger "Could not access table")
        | Some _ =>
            out ← lift (make_rows_to_insert self (ignore_extra_fields o) None rs);
            match out.2 with
            | [] => ret ()
            | _ :: _ =>
                query (SqlInsert (full_table_name self) (replace o)
                         (skip_duplicates o) (default [] out.1) out.2) ;;
                ret ()
            end
        end
    end.

Definition insert1 (self : table) (row : pyval) (o : insert_opts) : M unit :=
  insert self (FromRows [row]) o.

Fixpoint for_each {A} (l : list A) (body : A → M unit) : M unit :=
  match l with
  | [] => ret ()
  | x :: l' => body x ;; for_each l' body
  end.

Definition insert_part (rows : frame) (o : insert_opts) (part_name : string)
    : M unit :=
  let part_table := FreeTable part_name in
  let part_columns :=
    filter (λ n, n ∈ columns rows) (heading_names part_table) in
  match part_columns with
  | [] => ret ()
  | _ :: _ =>
      match filter (λ k, k ∉ part_columns) (pk_names part_table) with
      | k :: _ => raise (KeyError (PStr k))
      | [] =>
          let part_input :=
            drop_duplicates (pk_names part_table)
              (records (frame_select part_columns rows)) in
          insert part_table (FromRows (PDict <$> part_input)) o
      end
  end.

Definition insert1p_helper (self : table) (master_input : pydict)
    (rows : frame) (o : insert_opts) : M unit :=
  insert1 self (PDict master_input) o ;;
  ' (pts, _) ← part_tables self;
  for_each pts (insert_part rows o).

Definition insert1p (self : table) (rows : rows_arg) (o : insert_opts)
    : M unit :=
  rows ← match rows with
         | RowsRecarray f | RowsFrame f => ret f
         | RowsDict d => ret (Frame (d.*1) [d])
         | RowsOther _ =>
             raise (DataJointError
               "rows must be of type pandas dataframe, numpy recarray, or dict for insert1p")
         end;
  let cols := filter (λ n, n ∈ columns rows) (heading_names self) in
  if bool_decide (filter (λ k, k ∉ cols) (pk_names self) ≠ [])
  then raise (AssertionError
                "not all master primary key in dataframe for insert1p.")
  else
    let master_input := frame_select cols rows in
    let keys := frame_select (pk_names self) master_input in
    if bool_decide
         (length (drop_duplicates (columns keys) (records keys)) ≠ 1)
    then raise (AssertionError "master primary keys are not unique.")
    else
      match records master_input with
      | [] => raise IndexError
      | first :: _ =>
          let master_input := filter (λ kv, kv.2 ≠ PNone) first in
          c ← get_conn;
          if in_transaction c
          then insert1p_helper self master_input rows o
          else transaction (insert1p_helper self master_input rows o)
      end.

(** ** CascadeEngine *)

Definition make_delete_list (g : graph) (name : string)
    : result (list (string * dl_item)) :=
  rbind (rmap (λ n,
           if isdigit n
           then match parents g n None with
                | (p, props) :: _ => Ok (n, DlRename p props)
                | [] => Raise RuntimeError
                end
           else Ok (n, DlTable (FreeTable n)))
         (descendants g name))
        (λ l, Ok (od_of_list l)).

Definition restrict_by_me (g : graph) (self : table)
    (delete_list : list (string * dl_item)) : gset string :=
  let s0 : gset string :=
    if bool_decide (restriction self ≠ [])
    then {[ full_table_name self ]} else ∅ in
  let s1 := s0 ∪ list_to_set (filter (λ t, isdigit t) (delete_list.*1)) in
  foldl (λ s t, s ∪ list_to_set ((children g t (Some false)).*1))
        s1 (delete_list.*1).

Definition terms_of (rs : gmap string (list rterm)) (name : string)
    : list rterm :=
  default [] (rs !! name).

Definition compile_restrictions (g : graph) (self : table)
    (delete_list : list (string * dl_item)) (rbm : gset string)
    : gmap string (list rterm) :=
  let r0 : gmap string (list rterm) :=
    if bool_decide (restriction self ≠ [])
    then {[ full_table_name self := [RSelf (restriction self)] ]} else ∅ in
  foldl (λ rs name,
           foldl (λ rs dep,
                    <[ dep := terms_of rs dep ++
                              (if bool_decide (name ∈ rbm)
                               then [RItem name] else terms_of rs name) ]> rs)
                 rs ((children g name None).*1))
        r0 (delete_list.*1).

(** One term of the list handed to [table.restrict], read against the
    current entries of [delete_list]. *)
Definition resolve (delete_list : list (string * dl_item)) (r : rterm)
    : result cond :=
  match r with
  | RSelf cs => Ok (and_list cs)
  | RItem n =>
      match od_get n delete_list with
      | Some (DlTable t) => Ok (CProj (as_query t) [])
      | Some (DlRename p props) =>
          match od_get p delete_list with
          | Some (DlTable t) => Ok (CProj (as_query t) (attr_map props))
          | Some (DlRename _ _) => Raise AttributeError
          | None => Raise (KeyError (PStr p))
          end
      | None => Raise (KeyError (PStr n))
      end
  end.

Fixpoint apply_restrictions (rs : gmap string (list rterm))
    (names : list string) (delete_list : list (string * dl_item))
    : result (list (string * dl_item)) :=
  match names with
  | [] => Ok delete_list
  | name :: rest =>
      if negb (isdigit name) && negb (bool_decide (terms_of rs name = []))
      then rbind (rmap (resolve delete_list) (terms_of rs name)) (λ conds,
           match od_get name delete_list with
           | Some (DlTable t) =>
               apply_restrictions rs rest
                 (od_set name (DlTable (restrict t (or_list conds))) delete_list)
           | Some (DlRename _ _) => Raise AttributeError
           | None => Raise (KeyError (PStr name))
           end)
      else apply_restrictions rs rest delete_list
  end.

Definition delete_quick (self : table) : M nat :=
  count ← query (SqlDelete (as_query self));
  _log ("DELETE FROM " +:+ full_table_name self) ;;
  ret count.

(** The loop of [_delete] over the reversed [delete_list]. *)
Fixpoint delete_loop (verbose safe : bool) (items : list (string * dl_item))
    (total : nat) (message : string) : M (nat * string) :=
  match items with
  | [] => ret (total, message)
  | (name, item) :: rest =>
      if isdigit name then delete_loop verbose safe rest total message
      else match item with
           | DlTable t =>
               count ← delete_quick t;
               let message :=
                 if (verbose || safe) && negb (bool_decide (count = 0))
                 then message +:+ nl +:+ name +:+ ": " +:+ pretty count
                              +:+ " items"
                 else message in
               delete_loop verbose safe rest (total + count) message
           | DlRename _ _ => raise AttributeError
           end
  end.

Definition _delete (self : table) (verbose force : bool) : M (string * bool) :=
  let message := "" in
  let commit := false in
  c ← get_conn;
  let already_in_transaction := in_transaction c in
  let safe := safemode W in
  if already_in_transaction && safe
  then raise (DataJointError "Cannot delete within a transaction in safemode.")
  else
    load ;;
    c ← get_conn;
    let g := dependencies c in
    delete_list ← lift (make_delete_list g (full_table_name self));
    let rbm := restrict_by_me g self delete_list in
    let restrictions := compile_restrictions g self delete_list rbm in
    delete_list ← lift (apply_restrictions restrictions (delete_list.*1)
                          delete_list);
    let message := if safe then message +:+ "About to delete" else message in
    (if already_in_transaction then ret () else start_transaction) ;;
    ' (total, message) ←
      on_error (delete_loop verbose safe (reverse delete_list) 0 message)
               (if already_in_transaction then ret ()
                else cancel_transaction);
    if already_in_transaction && safe
    then raise (AssertionError "")
    else if bool_decide (total = 0)
    then (if already_in_transaction then ret () else cancel_transaction) ;;
         ret ("Nothing to delete", commit)
    else if already_in_transaction
    then ret (if verbose
              then nl +:+ "The delete is pending within the ongoing transaction."
              else message, commit)
    else ret (message, negb safe || force).

(** [user_choice(prompt, default='no') == 'yes'] *)
Definition user_choice_yes (prompt : string) : M bool :=
  emit (EvPrompt prompt) ;;
  ret (bool_decide (user_answer W = "yes")).

Definition delete (self : table) (verbose force : bool) : M unit :=
  let safe := safemode W in
  ' (message, commit) ← _delete self verbose force;
  emit (EvPrint message) ;;
  go ← (if commit then ret true else user_choice_yes "Proceed?");
  if go
  then commit_transaction ;;
       (if verbose || safe then emit (EvPrint "Commited.") else ret ())
  else cancel_transaction.

Definition drop_quick (self : table) : M unit :=
  c ← get_conn;
  if is_declared B (visible c) (full_table_name self)
  then query (SqlDropTable (full_table_name self)) ;;
       emit (EvLogger ("Dropped table " +:+ full_table_name self)) ;;
       _log ("DROP TABLE " +:+ full_table_name self)
  else emit (EvLogger ("Nothing to drop: table " +:+ full_table_name self
                         +:+ " is not declared")).

Definition drop (self : table) : M unit :=
  if bool_decide (restriction self ≠ [])
  then raise (DataJointError
    "A relation with an applied restriction condition cannot be dropped. Call drop() on the unrestricted Table.")
  else
    load ;;
    c ← get_conn;
    let tables :=
      filter (λ t, negb (isdigit t))
             (descendants (dependencies c) (full_table_name self)) in
    do_drop ←
      (if safemode W
       then for_each tables (λ t,
              n ← len (as_query (FreeTable t));
              emit (EvPrint (t +:+ " (" +:+ pretty n +:+ " tuples)"))) ;;
            user_choice_yes "Proceed?"
       else ret true);
    if do_drop
    then for_each (reverse tables) (λ t, drop_quick (FreeTable t)) ;;
         emit (EvPrint "Tables dropped.  Restart kernel.")
    else ret ().

(** ** UpdateEngine *)

Definition _update (self : table) (attrname : string) (value : pyval)
    : M unit :=
  n ← len (as_query self);
  if bool_decide (n ≠ 1)
  then raise (DataJointError "Update is only allowed on one tuple at a time")
  else if bool_decide (attrname ∉ heading_names self)
  then raise (DataJointError "Invalid attribute name")
  else if bool_decide (attrname ∈ pk_names self)
  then raise (DataJointError "Cannot update a key value.")
  else
    ph ← lift (_make_placeholder self attrname value false);
    match ph with
    | Some (attrname, placeholder, value) =>
        query (SqlUpdate (as_query self) [(attrname, placeholder)]
                 (match value with Some v => [v] | None => [] end)) ;;
        ret ()
    | None => raise TypeError
    end.

Definition save_update_failure : string :=
  "Save update failure: Entries of downstream autopopulated tables depend on self. Delete appropriate entries in dependent autopopulated tables before editing entries in self.".

(** The child a [children] entry stands for: an aliased entry is replaced
    by the first child of the projection node. *)
Definition resolve_alias (g : graph) (entry : string * edge_props)
    : result (string * edge_props) :=
  if aliased entry.2
  then match children g entry.1 None with
       | [] => Raise IndexError
       | first :: _ => Ok first
       end
  else Ok entry.

(** The child restricted by the projection of [self] on its key, with the
    renamed key attributes of the foreign key. *)
Definition restricted_child (self : table) (child : string * edge_props)
    : table :=
  let renames :=
    filter (λ m, m.2 ∈ pk_names self ∧ m.1 ≠ m.2) (attr_map child.2) in
  restrict (FreeTable child.1) (CProj (as_query self) renames).

(** The loop of [_check_downstream_autopopulated] over
    [children.items()]; [recurse] is the method itself.  The value
    returned by the recursive call is not used. *)
Fixpoint check_children (recurse : table → M bool) (self : table)
    (error : string) (chs : list (string * edge_props)) : M bool :=
  match chs with
  | [] => ret true
  | entry :: rest =>
      c ← get_conn;
      child ← lift (resolve_alias (dependencies c) entry);
      let restricted_table := restricted_child self child in
      recurse restricted_table ;;
      n ← len (as_query restricted_table);
      if is_autopopulated child.1 && negb (bool_decide (n = 0))
      then (if bool_decide (error = "ignore") then ret ()
            else if bool_decide (error = "warn")
            then emit (EvWarn save_update_failure)
            else raise (DataJointError save_update_failure)) ;;
           ret false
      else check_children recurse self error rest
  end.

(** [fuel] bounds the depth of the recursion along the foreign keys. *)
Fixpoint _check_downstream_autopopulated (fuel : nat) (self : table)
    (reload : bool) (error : string) : M bool :=
  match fuel with
  | 0 => raise OutOfFuel
  | S fuel' =>
      c ← get_conn;
      (if reload || bool_decide (nodes (dependencies c) = [])
       then load else ret ()) ;;
      c ← get_conn;
      check_children
        (λ t, _check_downstream_autopopulated fuel' t false error)
        self error (children (dependencies c) (full_table_name self) None)
  end.

Definition save_update (fuel : nat) (self : table) (attrname : string)
    (value : pyval) (reload : bool) (error : string) : M unit :=
  truth ← _check_downstream_autopopulated fuel self reload error;
  if truth then _update self attrname value else ret ().

(** [set(updates)]: the items of [updates] (the keys of a mapping), each
    of them hashed. *)
Definition update_names (updates : pyval) : result (list pyval) :=
  rbind (py_iter updates) (λ items,
  if forallb hashable items then Ok items else Raise TypeError).

(** [save_updates]: the target and the names are validated first, then
    the downstream check runs, and one UPDATE names every attribute.
    [row_to_insert] is the dictionary that zips the keys names,
    placeholders and values with the transposed attributes; it is empty,
    and [not row_to_insert] holds, exactly when there is no attribute. *)
Definition save_updates (fuel : nat) (self : table) (updates : pyval)
    (reload : bool) (error : string) : M unit :=
  n ← len (as_query self);
  if bool_decide (n ≠ 1)
  then raise (DataJointError "Update is only allowed on one tuple at a time")
  else
    given ← lift (update_names updates);
    match filter (λ k, k ∈ PStr <$> pk_names self) given with
    | _ :: _ => raise (DataJointError "Cannot update a key value.")
    | [] =>
        match filter (λ k, k ∉ PStr <$> heading_names self) given with
        | _ :: _ => raise (DataJointError "Invalid attribute names.")
        | [] =>
            truth ← _check_downstream_autopopulated fuel self reload error;
            if negb truth then ret ()
            else
              row_to_insert ← lift (_make_row_to_insert self updates false None);
              if bool_decide (names row_to_insert = []) then ret ()
              else
                query (SqlUpdate (as_query self)
                         (zip (names row_to_insert)
                              (placeholders row_to_insert))
                         (omap id (values row_to_insert))) ;;
                ret ()
        end
    end.

(** ** AutoMake: [make] *)

(** [fetch_tables & key] *)
Definition restrict_query (q : qexpr) (key : pyval) : qexpr :=
  match q with
  | QTable n r => QTable n (CAnd r (CRaw key))
  end.

(** Lines 74-99: the joined upstream tables restricted to [key] are
    fetched, as one row or column by column. *)
Definition make_fetch (st : settings) (key : pyval) : M pydict :=
  let table := restrict_query (fetch_tables st) key in
  if contains "fetch1" (fetch_method st)
  then c ← get_conn; lift (fetch1 B (visible c) table)
  else
    n ← len table;
    if bool_decide (n = 0)
    then raise (DataJointError "empty joined table for key")
    else
      c ← get_conn;
      lift (rmap (λ cv,
              if bool_decide (cv.1 ∈ parse_unique st)
              then rbind (py_iter cv.2) (λ items,
                   match items with
                   | v :: _ => Ok (cv.1, v)
                   | [] => Raise IndexError
                   end)
              else Ok cv)
            (fetch_columns B (visible c) table)).

Definition is_dict (o : pyobj) : bool :=
  match o with ObjVal (PDict _) => true | _ => false end.

Definition is_frame_or_dict (o : pyobj) : bool :=
  match o with ObjVal (PDict _) | ObjFrame _ => true | _ => false end.

(** Lines 114-133: a [None] output becomes an empty dict with a warning,
    a recarray becomes a DataFrame, and the shape is checked against the
    presence of part tables. *)
Definition normalize_output (self : table) (output : pyobj)
    : M (pyobj * bool * table) :=
  output ← match output with
           | ObjVal PNone =>
               emit (EvWarn "output of function is None for key") ;;
               ret (ObjVal (PDict []))
           | _ => ret output
           end;
  let output := match output with
                | ObjRecarray f => ObjFrame f
                | _ => output
                end in
  ' (hpt, self) ← has_part_tables self;
  if hpt && negb (is_frame_or_dict output)
  then raise (DataJointError
         "output must be dataframe or dict for table with part tables.")
  else if negb hpt && negb (is_dict output)
  then raise (DataJointError
         "ouput must be dict for table without part tables.")
  else ret (output, hpt, self).

(** [output[column] = value] *)
Definition set_column (column : string) (value : pyval) (o : pyobj)
    : result pyobj :=
  match o with
  | ObjVal (PDict d) => Ok (ObjVal (PDict (dict_set column value d)))
  | ObjFrame f =>
      Ok (ObjFrame (Frame (if bool_decide (column ∈ columns f) then columns f
                           else columns f ++ [column])
                          (dict_set column value <$> records f)))
  | _ => Raise TypeError
  end.

(** [set(output)] *)
Definition output_names (o : pyobj) : list string :=
  match o with
  | ObjVal (PDict d) => d.*1
  | ObjFrame f | ObjRecarray f => columns f
  | _ => []
  end.

(** [v is None or pandas.isnull(v)] taken as the condition of an [if].
    For a list or an array pandas answers element by element, and an
    answer that does not hold exactly one element has no truth value: the
    condition raises a ValueError.  The elements of an array are taken
    to be scalars. *)
Definition is_array (v : pyval) : bool :=
  match v with PList _ => true | _ => false end.

Definition is_null (v : pyval) : result bool :=
  match v with
  | PNone => Ok true
  | PList [x] => Ok (bool_decide (x = PNone))
  | PList _ => Raise ValueError
  | _ => Ok false
  end.

(** The loop that adds the columns missing in the output, in the order of
    the heading; null values of the entry are skipped. *)
Fixpoint backfill (entry : pydict) (cols : list string) (o : pyobj)
    : result pyobj :=
  match cols with
  | [] => Ok o
  | column :: rest =>
      match dict_get column entry with
      | Some v =>
          rbind (is_null v) (λ null,
            if null then backfill entry rest o
            else rbind (set_column column v o) (backfill entry rest))
      | None => Raise (KeyError (PStr column))
      end
  end.

(** Lines 135-148: the settings name and the missing columns are added
    and the output is inserted. *)
Definition store_output (self : table) (st : settings) (entry : pydict)
    (output : pyobj) (hpt : bool) : M unit :=
  output ← lift (set_column "settings_name" (settings_name st) output);
  let missing :=
    filter (λ n, n ∈ entry.*1 ∧ n ∉ output_names output) (heading_names self) in
  output ← lift (backfill entry missing output);
  if hpt
  then match output with
       | ObjVal (PDict d) => insert1p self (RowsDict d) default_opts
       | ObjFrame f => insert1p self (RowsFrame f) default_opts
       | ObjRecarray f => insert1p self (RowsRecarray f) default_opts
       | ObjVal v => insert1p self (RowsOther v) default_opts
       end
  else match output with
       | ObjVal v => insert1 self v default_opts
       | _ => raise Unmodelled
       end.

Definition make (self : table) (st : settings) (key : pyval) : M unit :=
  entry ← make_fetch st key;
  ' (args, kwargs) ←
    lift (AutoMake._create_kwargs entry (entry_settings st)
            (global_settings st) (args st) (kwargs st));
  output ← lift (func st args kwargs);
  output ← lift (make_compatible W output);
  ' (output, hpt, self) ← normalize_output self output;
  store_output self st entry output hpt.

End Engine.

Arguments Conn {db} _ _ _ _.
Arguments store {db} _.
Arguments work {db} _.
Arguments dependencies {db} _.
Arguments trace {db} _.
Arguments in_transaction {db} _.
Arguments visible {db} _.
Arguments log_event {db} _ _.
Arguments write {db} _ _.
Arguments ret {db A} _ _.
Arguments bind {db A C} _ _ _.
Arguments raise {db A} _ _.
Arguments lift {db A} _ _.
Arguments emit {db} _ _.
Arguments get_conn {db} _.
Arguments on_error {db A} _ _ _.
Arguments start_transaction {db} _.
Arguments cancel_transaction {db} _.
Arguments commit_transaction {db} _.
Arguments transaction {db A} _ _.
Arguments query {db} _ _ _.
Arguments load {db} _ _.
Arguments len {db} _ _ _.
Arguments _log {db} _ _.
Arguments part_tables {db} _ _ _.
Arguments has_part_tables {db} _ _ _.
Arguments insert {db} _ _ _ _ _ _.
Arguments insert1 {db} _ _ _ _ _ _.
Arguments for_each {db A} _ _ _.
Arguments insert_part {db} _ _ _ _ _ _.
Arguments insert1p_helper {db} _ _ _ _ _ _ _.
Arguments insert1p {db} _ _ _ _ _ _.
Arguments delete_quick {db} _ _ _.
Arguments delete_loop {db} _ _ _ _ _ _ _.
Arguments _delete {db} _ _ _ _ _ _.
Arguments user_choice_yes {db} _ _ _.
Arguments delete {db} _ _ _ _ _ _.
Arguments drop_quick {db} _ _ _.
Arguments drop {db} _ _ _ _.
Arguments _update {db} _ _ _ _ _ _.
Arguments check_children {db} _ _ _ _ _ _ _.
Arguments _check_downstream_autopopulated {db} _ _ _ _ _ _ _.
Arguments save_update {db} _ _ _ _ _ _ _ _ _.
Arguments save_updates {db} _ _ _ _ _ _ _ _.
Arguments make_fetch {db} _ _ _ _.
Arguments normalize_output {db} _ _ _ _.
Arguments store_output {db} _ _ _ _ _ _ _ _.
Arguments make {db} _ _ _ _ _ _.

(** ** A small in-memory server

    Tables are lists of rows; a restriction by a projection is a semijoin
    on the attributes the two sides share.  It serves to run the engine on
    concrete pipelines. *)

Module Demo.

Definition contents := list (string * list pydict).

Definition rows_of (d : contents) (name : string) : list pydict :=
  default [] (od_get name d).

(** [q.proj] with renamed attributes: [(new, old)] renames [old]. *)
Definition rename_attr (renames : list (string * string)) (a : string)
    : string :=
  match filter (λ m, m.2 = a) renames with
  | m :: _ => m.1
  | [] => a
  end.

Definition rename_row (renames : list (string * string)) (r : pydict)
    : pydict :=
  (λ kv, (rename_attr renames kv.1, kv.2)) <$> r.

(** Two rows agree on every attribute they share. *)
Definition agree (r r' : pydict) : bool :=
  forallb (λ kv, match dict_get kv.1 r with
                 | Some v => bool_decide (v = kv.2)
                 | None => true
                 end) r'.

Fixpoint eval (d : contents) (q : qexpr) : list pydict :=
  match q with
  | QTable n c => List.filter (holds d c) (rows_of d n)
  end
with holds (d : contents) (c : cond) (r : pydict) : bool :=
  match c with
  | CTrue => true
  | CFalse => false
  | CRaw (PDict k) => agree r k
  | CRaw _ => true
  | CAnd c1 c2 => holds d c1 r && holds d c2 r
  | COr c1 c2 => holds d c1 r || holds d c2 r
  | CProj q renames =>
      existsb (λ r', agree r (rename_row renames r')) (eval d q)
  end.

Definition row_of (r : row_to_insert) : pydict :=
  zip (names r) (default PNone <$> values r).

Definition run (q : sql) (d : contents) : result (nat * contents) :=
  match q with
  | SqlInsert tbl _ _ _ rows =>
      match od_get tbl d with
      | Some old => Ok (length rows, od_set tbl (old ++ (row_of <$> rows)) d)
      | None => Raise (BackendError 1146)
      end
  | SqlInsertSelect tbl _ _ fields src =>
      match od_get tbl d with
      | Some old =>
          let new := select fields <$> eval d src in
          Ok (length new, od_set tbl (old ++ new) d)
      | None => Raise (BackendError 1146)
      end
  | SqlDelete (QTable n c) =>
      match od_get n d with
      | Some old =>
          Ok (length (List.filter (holds d c) old),
              od_set n (List.filter (λ r, negb (holds d c r)) old) d)
      | None => Raise (BackendError 1146)
      end
  | SqlUpdate (QTable n c) assignments args =>
      match od_get n d with
      | Some old =>
          let new := zip (assignments.*1) args in
          Ok (length (List.filter (holds d c) old),
              od_set n ((λ r, if holds d c r then dict_update r new else r)
                          <$> old) d)
      | None => Raise (BackendError 1146)
      end
  | SqlDropTable tbl =>
      Ok (0, List.filter (λ kv, negb (bool_decide (kv.1 = tbl))) d)
  end.

Definition server : backend contents :=
  Backend run
    (λ d q, length (eval d q))
    (λ d n, bool_decide (is_Some (od_get n d)))
    (λ d q, match eval d q with
            | [r] => Ok r
            | _ => Raise (DataJointError "fetch1 should only return one tuple")
            end)
    (λ d q, match eval d q with
            | [] => []
            | r :: _ as rs =>
                (λ a, (a, PList ((λ r', default PNone (dict_get a r')) <$> rs)))
                  <$> r.*1
            end).

(** The pipeline: [subject] is a manual table; [__weight] is computed
    from it through a primary foreign key; [session] refers to [subject]
    through a renamed key, hence through the projection node [1];
    [_scan] is imported, with the part table [_scan__frame]; [cage]
    refers to [subject] through a secondary attribute. *)
Definition subject : string := "`lab`.`subject`".
Definition weight : string := "`lab`.`__weight`".
Definition session : string := "`lab`.`session`".
Definition scan : string := "`lab`.`_scan`".
Definition scan_frame : string := "`lab`.`_scan__frame`".
Definition cage : string := "`lab`.`cage`".
Definition report : string := "`lab`.`__report`".
Definition audit : string := "`lab`.`audit`".

Definition pipeline : graph :=
  Graph [subject; weight; "1"; session; scan; scan_frame; cage; report;
         "2"; audit]
    [ (subject, weight, EdgeProps true false [("subject_id", "subject_id")]);
      (subject, "1", EdgeProps true true [("animal", "subject_id")]);
      ("1", session, EdgeProps true true [("animal", "subject_id")]);
      (session, report,
       EdgeProps true false [("animal", "animal"); ("session", "session")]);
      (report, "2",
       EdgeProps true true [("subject", "animal"); ("visit", "session")]);
      ("2", audit,
       EdgeProps true true [("subject", "animal"); ("visit", "session")]);
      (subject, cage, EdgeProps false false [("subject_id", "subject_id")]);
      (scan, scan_frame, EdgeProps true false [("scan_id", "scan_id")]) ]
    [ (subject, [subject; weight; "1"; cage; session; report; "2"; audit]);
      (weight, [weight]);
      ("1", ["1"; session; report; "2"; audit]);
      (session, [session; report; "2"; audit]);
      (report, [report; "2"; audit]);
      ("2", ["2"; audit]);
      (audit, [audit]);
      (cage, [cage]);
      (scan, [scan; scan_frame]);
      (scan_frame, [scan_frame]) ].

Definition headings (n : string) : option (list string) :=
  if decide (n = subject) then Some ["subject_id"; "mass"]
  else if decide (n = weight) then Some ["subject_id"; "mean_mass"]
  else if decide (n = session) then Some ["animal"; "session"]
  else if decide (n = report) then Some ["animal"; "session"; "summary"]
  else if decide (n = audit) then Some ["subject"; "visit"; "audit_id"]
  else if decide (n = cage) then Some ["cage_id"; "subject_id"]
  else if decide (n = scan) then Some ["scan_id"; "depth"]
  else if decide (n = scan_frame) then Some ["scan_id"; "frame"; "mean"]
  else None.

Definition keys (n : string) : list string :=
  if decide (n = subject) then ["subject_id"]
  else if decide (n = weight) then ["subject_id"]
  else if decide (n = session) then ["animal"; "session"]
  else if decide (n = report) then ["animal"; "session"]
  else if decide (n = audit) then ["subject"; "visit"; "audit_id"]
  else if decide (n = cage) then ["cage_id"]
  else if decide (n = scan) then ["scan_id"]
  else if decide (n = scan_frame) then ["scan_id"; "frame"]
  else [].

Definition plain_codec (tbl attr : string) (v : pyval)
    : result (string * option pyval) :=
  match v with
  | PNone => Ok ("DEFAULT", None)
  | _ => Ok ("%s", Some v)
  end.

Definition lab (safe : bool) (answer : string) : world :=
  World pipeline headings keys safe plain_codec answer Ok.

Definition stocked : contents :=
  [ (subject, [[("subject_id", PInt 5); ("mass", PInt 20)];
               [("subject_id", PInt 6); ("mass", PInt 22)]]);
    (weight, [[("subject_id", PInt 5); ("mean_mass", PInt 20)]]);
    (session, [[("animal", PInt 6); ("session", PInt 1)]]);
    (report, [[("animal", PInt 6); ("session", PInt 1); ("summary", PInt 0)]]);
    (cage, [[("cage_id", PInt 1); ("subject_id", PInt 5)]]);
    (audit, []);
    (scan, []) ].

(** A connection outside any transaction, and one inside a transaction
    opened by an outer call. *)
Definition idle : conn contents := Conn stocked None empty_graph [].
Definition joined : conn contents :=
  Conn stocked (Some stocked) empty_graph [].

Definition subject5 : table :=
  restrict (FreeTable subject) (CRaw (PDict [("subject_id", PInt 5)])).
Definition subject6 : table :=
  restrict (FreeTable subject) (CRaw (PDict [("subject_id", PInt 6)])).

(** [__weight] seen from outside its [make] callback, and [_scan] seen
    from inside. *)
Definition weight_outside_make : table := Table weight [] false None.
Definition scan_in_make : table := Table scan [] true None.

(** The length of the longest chain of foreign keys below a table. *)
Definition depth (n : string) : nat :=
  if decide (n = subject) then 5
  else if decide (n = "1") then 4
  else if decide (n = session) then 3
  else if decide (n = report) then 2
  else if decide (n = "2") then 1
  else if decide (n = scan) then 1
  else 0.

(** What [_delete] plans for a delete of [subject]. *)
Definition cascade : list (string * dl_item) :=
  [ (subject, DlTable (FreeTable subject));
    (weight, DlTable (FreeTable weight));
    ("1", DlRename subject (EdgeProps true true [("animal", "subject_id")]));
    (cage, DlTable (FreeTable cage));
    (session, DlTable (FreeTable session));
    (report, DlTable (FreeTable report));
    ("2", DlRename report
            (EdgeProps true true [("subject", "animal"); ("visit", "session")]));
    (audit, DlTable (FreeTable audit)) ].

(** Two frames of one scan, and the same with a second scan mixed in. *)
Definition two_frames : frame :=
  Frame ["scan_id"; "depth"; "frame"; "mean"]
    [ [("scan_id", PInt 1); ("depth", PInt 3); ("frame", PInt 0);
       ("mean", PInt 7)];
      [("scan_id", PInt 1); ("depth", PInt 3); ("frame", PInt 1);
       ("mean", PInt 8)] ].

(** Settings whose function returns a number, and settings whose function
    returns nothing. *)
Definition mass_settings (out : pyobj) : settings :=
  Settings (PStr "default") (QTable subject CTrue) "fetch1" []
    [("m", PStr "mass")] [("scale", PInt 2)] None None
    (λ _ _, Ok out).

Definition key5 : pyval := PDict [("subject_id", PInt 5)].

(** The same contents on a server where the part table [_scan__frame]
    exists. *)
Definition stocked_frames : contents := stocked ++ [(scan_frame, [])].
Definition idle_frames : conn contents :=
  Conn stocked_frames None empty_graph [].

End Demo.

(** * Properties *)

(** The columns of the row set handed to [insert1p]. *)
Definition rows_columns (rows : rows_arg) : list string :=
  match rows with
  | RowsRecarray f | RowsFrame f => columns f
  | RowsDict d => d.*1
  | RowsOther _ => []
  end.

(** The row set of [insert1p] as a frame, when it has an accepted type. *)
Definition frame_of (rows : rows_arg) : option frame :=
  match rows with
  | RowsRecarray f | RowsFrame f => Some f
  | RowsDict d => Some (Frame (d.*1) [d])
  | RowsOther _ => None
  end.

(** The value of a record in a column, null when the record has none. *)
Definition cell (k : string) (r : pydict) : pyval :=
  default PNone (dict_get k r).

(** What a binding of [entry_settings] denotes: a column name stands for
    the value of the entry in that column; a list, tuple or set of column
    names for the container of the same kind holding the values of these
    columns; a dict of column names for the dict of their values. *)
Definition column_value (entry : pydict) (col v : pyval) : Prop :=
  ∃ s, col = PStr s ∧ dict_get s entry = Some v.

Inductive binding_value (entry : pydict) : pyval → pyval → Prop :=
| bv_column s v :
    dict_get s entry = Some v → binding_value entry (PStr s) v
| bv_list cols vs :
    Forall2 (column_value entry) cols vs →
    binding_value entry (PList cols) (PList vs)
| bv_tuple cols vs :
    Forall2 (column_value entry) cols vs →
    binding_value entry (PTuple cols) (PTuple vs)
| bv_set cols vs items :
    Forall2 (column_value entry) cols vs →
    NoDup items → (∀ v, v ∈ items ↔ v ∈ vs) →
    binding_value entry (PSet cols) (PSet items)
| bv_dict m d :
    Forall2 (λ kc kv, kv.1 = kc.1 ∧ column_value entry kc.2 kv.2) m d →
    binding_value entry (PDict m) (PDict d).

(** The shapes named by the output contract of [make]. *)
Definition is_mapping (o : pyobj) : Prop := ∃ d, o = ObjVal (PDict d).

Definition is_tabular (o : pyobj) : Prop :=
  ∃ f, o = ObjFrame f ∨ o = ObjRecarray f.

(** The tables named by the DELETE and by the DROP statements of a
    trace, in the order of the statements. *)
Definition deleted_tables (evs : list event) : list string :=
  omap (λ ev, match ev with
              | EvQuery (SqlDelete (QTable n _)) => Some n
              | _ => None
              end) evs.

Definition dropped_tables (evs : list event) : list string :=
  omap (λ ev, match ev with
              | EvQuery (SqlDropTable n) => Some n
              | _ => None
              end) evs.

(** The statements of a trace. *)
Definition statements (evs : list event) : list sql :=
  omap (λ ev, match ev with EvQuery q => Some q | _ => None end) evs.

Definition is_delete (q : sql) : bool :=
  match q with SqlDelete _ => true | _ => false end.

Definition is_drop (q : sql) : bool :=
  match q with SqlDropTable _ => true | _ => false end.

(** In a delete list every name that is not a projection node files the
    handle of the table of that name. *)
Definition well_filed (dl : list (string * dl_item)) : Prop :=
  ∀ n item, (n, item) ∈ dl → isdigit n = false →
            ∃ t, item = DlTable t ∧ full_table_name t = n.

(** Events that open or finalize a transaction. *)
(** The tables an INSERT with literal rows was sent for, in order. *)
Definition inserted_tables (evs : list event) : list string :=
  omap (λ ev, match ev with
              | EvQuery (SqlInsert n _ _ _ _) => Some n
              | _ => None
              end) evs.

Definition is_insert (q : sql) : bool :=
  match q with SqlInsert _ _ _ _ _ => true | _ => false end.

Definition tx_event (ev : event) : bool :=
  match ev with
  | EvStart | EvCommit | EvCancel => true
  | _ => false
  end.

Definition is_query (ev : event) : bool :=
  match ev with
  | EvQuery _ => true
  | _ => false
  end.

Definition quiet (evs : list event) : Prop :=
  Forall (λ ev, tx_event ev = false) evs.

Section Facts.

Context {db : Type}.
Variable B : backend db.
Variable W : world.

(** The assumptions on the foreign-key graph under which the recursion
    of the downstream check is studied: the graph is acyclic, witnessed
    by a rank that decreases along every edge; a plain foreign key of a
    table leads to a table, and a renamed one leads to a projection node
    whose first child is a table. *)
Definition ranked (g : graph) (rank : string → nat) : Prop :=
  ∀ p ch props, (p, ch, props) ∈ edges g → rank ch < rank p.

Definition aliases_resolved (g : graph) : Prop :=
  ∀ p a props, (p, a, props) ∈ edges g → isdigit p = false →
    if aliased props
    then match children g a None with
         | [] => False
         | first :: _ => isdigit first.1 = false
         end
    else isdigit a = false.

(** The graph the check works on: the catalog when the check loads it,
    the graph already loaded otherwise. *)
Definition uses_graph (g : graph) (reload : bool) (c : conn db) : Prop :=
  (reload || bool_decide (nodes (dependencies c) = []) = true ∧
   g = catalog W) ∨
  (reload || bool_decide (nodes (dependencies c) = []) = false ∧
   g = dependencies c).

(** The restricted tables the check visits below [self]. *)
Inductive downstream (g : graph) : table → table → Prop :=
| downstream_child self entry child :
    entry ∈ children g (full_table_name self) None →
    resolve_alias g entry = Ok child →
    downstream g self (restricted_child W self child)
| downstream_next self t u :
    downstream g self t → downstream g t u → downstream g self u.

(** A child that is recognized as auto-populated and holds a row that
    depends on [self]. *)
Definition dependent_child (g : graph) (self : table) (c : conn db) : Prop :=
  ∃ entry child,
    entry ∈ children g (full_table_name self) None ∧
    resolve_alias g entry = Ok child ∧
    is_autopopulated child.1 = true ∧
    count_rows B (visible c) (as_query (restricted_child W self child)) ≠ 0.

(** No auto-populated table visited below [self] holds a dependent row. *)
Definition no_dependents (g : graph) (self : table) (c : conn db) : Prop :=
  ∀ t, downstream g self t →
       is_autopopulated (full_table_name t) = true →
       count_rows B (visible c) (as_query t) = 0.

(** An auto-populated table visited below [self], at any depth, holds a
    row that depends on [self]. *)
Definition dependent_below (g : graph) (self : table) (c : conn db) : Prop :=
  ∃ t, downstream g self t ∧
       is_autopopulated (full_table_name t) = true ∧
       count_rows B (visible c) (as_query t) ≠ 0.

Definition refusal (error : string) : result bool :=
  if bool_decide (error = "ignore") then Ok false
  else if bool_decide (error = "warn") then Ok false
  else Raise (DataJointError save_update_failure).

(** What a run of the check may do to the connection: load the graph
    and, under the policy [warn], emit the warning. *)
Definition check_events (error : string) (evs : list event) : Prop :=
  Forall (λ ev, ev = EvLoad ∨
                (error = "warn" ∧ ev = EvWarn save_update_failure)) evs.

Definition check_result (error : string) (r : result bool) : Prop :=
  match r with
  | Ok _ => True
  | Raise e => error ≠ "ignore" ∧ error ≠ "warn" ∧
               e = DataJointError save_update_failure
  end.

(** A positional row that cannot fill the heading: an object without a
    length, or a sequence whose length is not the number of attributes. *)
Definition ill_sized (self : table) (row : pyval) : Prop :=
  (∀ d, row ≠ PDict d) ∧
  ∀ items, py_iter row = Ok items →
           length items ≠ length (heading_names W self).

(** The three lists of a row to insert have one entry per name. *)
Definition aligned (fl : list string) (r : row_to_insert) : Prop :=
  names r = fl ∧ length (placeholders r) = length fl ∧
  length (values r) = length fl.

(** [p] is reached from [master] by one edge, or through an aliased edge
    and the first edge that leaves its numbered node, and its name
    extends the name of [master] by a double underscore. *)
Definition part_of (g : graph) (master p : string) : Prop :=
  startswith (remove_char "`"%char master +:+ "__")
             (remove_char "`"%char p) = true ∧
  ∃ ch info, (ch, info) ∈ children g master None ∧
    if aliased info
    then ∃ i rest, children g ch None = (p, i) :: rest
    else p = ch.

(** The part tables of a handle: the cached list, or what the catalog
    gives. *)
Definition part_list (self : table) : list string :=
  match _part_tables self with
  | Some pts => pts
  | None =>
      default []
        (match part_names (catalog W)
                 (remove_char "`"%char (full_table_name self))
                 (children (catalog W) (full_table_name self) None) with
         | Ok pts => Some pts
         | Raise _ => None
         end)
  end.

(** The attribute and value pairs that a given row provides: for a
    mapping the attributes of the heading it has a value for, for a
    positional row the attributes of the heading paired with its items. *)
Definition row_cells (self : table) (row : pyval) : list (string * pyval) :=
  match row with
  | PDict d =>
      (λ n, (n, default PNone (dict_get n d)))
        <$> filter (λ n, n ∈ d.*1) (heading_names W self)
  | _ =>
      match py_iter row with
      | Ok items => zip (heading_names W self) items
      | Raise _ => []
      end
  end.

(** Field by field, [sent] carries what the codec makes of the value
    that [row] gives to the field. *)
Definition encodes (self : table) (row : pyval) (sent : row_to_insert)
    : Prop :=
  ∀ j f ph v,
    names sent !! j = Some f →
    placeholders sent !! j = Some ph →
    values sent !! j = Some v →
    ∃ x, (f, x) ∈ row_cells self row ∧
         codec W (full_table_name self) f x = Ok (ph, v).

(** The columns of a row set that a table takes, in the order of its
    heading. *)
Definition table_columns (t : table) (f : frame) : list string :=
  filter (λ n, n ∈ columns f) (heading_names W t).

(** The records that [insert1p] hands to a part table: the row set cut
    down to the part's columns, one record per key of the part. *)
Definition part_input (f : frame) (p : string) : list pydict :=
  drop_duplicates (pk_names W (FreeTable p))
    (records (frame_select (table_columns (FreeTable p) f) f)).

(** [q] is the INSERT that writes these records to the part table [p]. *)
Definition part_statement (f : frame) (o : insert_opts) (p : string)
    (q : sql) : Prop :=
  ∃ fl sent,
    q = SqlInsert p (replace o) (skip_duplicates o) fl sent ∧
    Forall2 (encodes (FreeTable p)) (PDict <$> part_input f p) sent.

(** [q] is the INSERT that writes the one row of the master: the first
    record of the row set cut down to the master's columns, without its
    null values. *)
Definition master_statement (self : table) (f : frame) (o : insert_opts)
    (q : sql) : Prop :=
  ∃ first rest fl row,
    records (frame_select (table_columns self f) f) = first :: rest ∧
    q = SqlInsert (full_table_name self) (replace o) (skip_duplicates o)
          fl [row] ∧
    encodes self (PDict (filter (λ kv, kv.2 ≠ PNone) first)) row.

(** A computation is inert when it leaves transaction control alone: it
    emits no begin, commit or cancel, keeps the in-transaction flag, and
    inside a transaction leaves the committed contents untouched. *)
Definition inert {A} (m : M db A) : Prop :=
  ∀ c r c', m c = (r, c') →
    ∃ evs, trace c' = trace c ++ evs ∧ quiet evs ∧
           (is_Some (work c') ↔ is_Some (work c)) ∧
           (is_Some (work c) → store c' = store c).

Lemma inert_ret {A} (a : A) : inert (ret a).
Proof.
  intros c r c' [= <- <-]. exists []. rewrite app_nil_r.
  repeat split; auto; constructor.
Qed.

Lemma inert_raise {A} (e : exn) : inert (raise (A:=A) e).
Proof.
  intros c r c' [= <- <-]. exists []. rewrite app_nil_r.
  repeat split; auto; constructor.
Qed.

Lemma inert_lift {A} (x : result A) : inert (lift x).
Proof.
  intros c r c' [= <- <-]. exists []. rewrite app_nil_r.
  repeat split; auto; constructor.
Qed.

Lemma inert_get_conn : inert (get_conn).
Proof.
  intros c r c' [= <- <-]. exists []. rewrite app_nil_r.
  repeat split; auto; constructor.
Qed.

Lemma inert_len (q : qexpr) : inert (len B q).
Proof.
  intros c r c' [= <- <-]. exists []. rewrite app_nil_r.
  repeat split; auto; constructor.
Qed.

Lemma inert_emit (ev : event) : tx_event ev = false → inert (emit ev).
Proof.
  intros Hev c r c' [= <- <-]. exists [ev]. cbn.
  repeat split; auto. constructor; [done|constructor].
Qed.

Lemma inert_load : inert (load W).
Proof.
  intros c r c' [= <- <-]. exists [EvLoad]. cbn.
  repeat split; auto. constructor; [done|constructor].
Qed.

Lemma inert_query (q : sql) : inert (query B q).
Proof.
  intros c r c'. unfold query, write.
  destruct (run_sql B q (visible c)) as [[n d]|e]; intros [= <- <-];
    exists [EvQuery q]; cbn.
  - destruct (work c) eqn:Hw; cbn; rewrite ?Hw.
    + repeat split; eauto. constructor; [done|constructor].
    + repeat split; auto; try (by intros []).
      constructor; [done|constructor].
  - repeat split; auto. constructor; [done|constructor].
Qed.

Lemma inert_bind {A C} (m : M db A) (k : A → M db C) :
  inert m → (∀ a, inert (k a)) → inert (bind m k).
Proof.
  intros Hm Hk c r c'. unfold bind.
  destruct (m c) as [[a|e] c1] eqn:E.
  - intros Hk'. destruct (Hm _ _ _ E) as (ev1 & T1 & Q1 & F1 & S1).
    destruct (Hk a _ _ _ Hk') as (ev2 & T2 & Q2 & F2 & S2).
    exists (ev1 ++ ev2). rewrite T2, T1, app_assoc.
    split; [done|]. split; [by apply Forall_app|].
    split; [by rewrite F2|].
    intros Hc. rewrite S2, S1; auto. by apply F1.
  - intros [= <- <-]. exact (Hm _ _ _ E).
Qed.

Lemma inert_on_error {A} (m : M db A) (h : M db ()) :
  inert m → inert h → inert (on_error m h).
Proof.
  intros Hm Hh c r c'. unfold on_error.
  destruct (m c) as [[a|e] c1] eqn:E.
  - intros [= <- <-]. exact (Hm _ _ _ E).
  - destruct (h c1) as [[[]|e'] c2] eqn:E2; intros [= <- <-];
      destruct (Hm _ _ _ E) as (ev1 & T1 & Q1 & F1 & S1);
      destruct (Hh _ _ _ E2) as (ev2 & T2 & Q2 & F2 & S2);
      exists (ev1 ++ ev2); rewrite T2, T1, app_assoc;
      (split; [done|]); (split; [by apply Forall_app|]);
      (split; [by rewrite F2|]);
      intros Hc; rewrite S2, S1; auto; by apply F1.
Qed.

Lemma inert_for_each {A} (l : list A) (body : A → M db ()) :
  (∀ x, inert (body x)) → inert (for_each l body).
Proof.
  intros Hb. induction l as [|x l IH]; cbn.
  - apply inert_ret.
  - apply inert_bind; [apply Hb|intros _; apply IH].
Qed.

Ltac inert_step :=
  first
    [ apply inert_ret | apply inert_raise | apply inert_lift
    | apply inert_get_conn | apply inert_len | apply inert_load
    | apply inert_query | apply inert_emit; reflexivity
    | apply inert_bind; [|intros ?]
    | apply inert_on_error
    | apply inert_for_each; intros ?
    | match goal with
      | |- inert (if ?b then _ else _) => destruct b
      | |- inert (match ?x with _ => _ end) => destruct x
      end ].

Ltac inert_auto := repeat inert_step.

Lemma inert_insert (self : table) (rows : insert_source) (o : insert_opts) :
  inert (insert B W self rows o).
Proof. unfold insert. inert_auto. Qed.

Lemma inert_part_tables (self : table) : inert (part_tables W self).
Proof. unfold part_tables. inert_auto. Qed.

Lemma inert_insert1p_helper self master_input rows o :
  inert (insert1p_helper B W self master_input rows o).
Proof.
  unfold insert1p_helper, insert1.
  apply inert_bind; [apply inert_insert|intros _].
  apply inert_bind; [apply inert_part_tables|intros [pts t]].
  apply inert_for_each. intros part. unfold insert_part.
  repeat first [apply inert_insert | inert_step].
Qed.

Lemma inert_delete_loop verbose safe items total message :
  inert (delete_loop B verbose safe items total message).
Proof.
  revert total message. induction items as [|[name item] rest IH];
    intros total message; cbn.
  - apply inert_ret.
  - destruct (isdigit name); [apply IH|].
    destruct item; [|apply inert_raise].
    apply inert_bind.
    + unfold delete_quick, _log. inert_auto.
    + intros count. apply IH.
Qed.

(** ** Cascading delete and transactions *)

Lemma _delete_joined (self : table) (verbose force : bool) (c : conn db) r c' :
  in_transaction c = true →
  _delete B W self verbose force c = (r, c') →
  ∃ evs, trace c' = trace c ++ evs ∧ quiet evs ∧ is_Some (work c') ∧
         store c' = store c.
Proof.
  intros Ht H. unfold _delete in H. unfold bind at 1 in H. cbn in H.
  rewrite Ht in H. cbn in H.
  assert (Hw : is_Some (work c)).
  { unfold in_transaction in Ht. by apply bool_decide_eq_true in Ht. }
  destruct (safemode W).
  - injection H as <- <-. exists []. rewrite app_nil_r.
    repeat split; auto. constructor.
  - match type of H with
    | ?m c = _ => assert (Hi : inert m)
    end.
    { inert_auto. apply inert_delete_loop. }
    destruct (Hi _ _ _ H) as (evs & T & Q & F & S).
    exists evs. repeat split; auto. by apply F.
Qed.

(** C1.  A cascading delete that joins a transaction opened by an outer
    call and runs to its end has finalized that transaction: the
    connection is no longer inside a transaction, and a commit or a
    cancel was issued by the call. *)
Theorem delete_finalizes_joined_transaction
    (self : table) (verbose force : bool) (c c' : conn db) :
  in_transaction c = true →
  delete B W self verbose force c = (Ok (), c') →
  work c' = None ∧
  ∃ evs, trace c' = trace c ++ evs ∧ (EvCommit ∈ evs ∨ EvCancel ∈ evs).
Proof.
  intros Ht H. unfold delete in H. unfold bind at 1 in H.
  destruct (_delete B W self verbose force c) as [[[message commit]|e] c1] eqn:E;
    [|discriminate].
  destruct (_delete_joined _ _ _ _ _ _ Ht E) as (evs & T & _ & _ & _).
  unfold bind in H. cbn in H.
  destruct commit; cbn in H.
  - destruct (verbose || safemode W); cbn in H; injection H as <-; cbn;
      (split; [done|]); rewrite T.
    + exists (evs ++ [EvPrint message; EvCommit; EvPrint "Commited."]).
      rewrite <- !app_assoc. split; [done|]. left.
      rewrite elem_of_app. right. set_solver.
    + exists (evs ++ [EvPrint message; EvCommit]).
      rewrite <- !app_assoc. split; [done|]. left.
      rewrite elem_of_app. right. set_solver.
  - destruct (bool_decide (user_answer W = "yes")); cbn in H.
    + destruct (verbose || safemode W); cbn in H; injection H as <-; cbn;
        (split; [done|]); rewrite T.
      * exists (evs ++ [EvPrint message; EvPrompt "Proceed?"; EvCommit;
                         EvPrint "Commited."]).
        rewrite <- !app_assoc. split; [done|]. left.
        rewrite elem_of_app. right. set_solver.
      * exists (evs ++ [EvPrint message; EvPrompt "Proceed?"; EvCommit]).
        rewrite <- !app_assoc. split; [done|]. left.
        rewrite elem_of_app. right. set_solver.
    + injection H as <-; cbn. split; [done|]. rewrite T.
      exists (evs ++ [EvPrint message; EvPrompt "Proceed?"; EvCancel]).
      rewrite <- !app_assoc. split; [done|]. right.
      rewrite elem_of_app. right. set_solver.
Qed.

(** C7.  With safemode on, a delete started inside an open transaction
    raises a DataJointError and leaves the connection exactly as it was:
    no row is deleted, no transaction is opened or finalized, nothing is
    loaded or printed. *)
Theorem delete_safemode_in_transaction
    (self : table) (verbose force : bool) (c : conn db) :
  in_transaction c = true →
  safemode W = true →
  ∃ msg, delete B W self verbose force c = (Raise (DataJointError msg), c).
Proof.
  intros Ht Hs. unfold delete, _delete. unfold bind, get_conn. cbn.
  rewrite Ht, Hs. cbn. eauto.
Qed.

(** C8.  [drop] on a handle that carries a restriction raises a
    DataJointError and leaves the connection exactly as it was: the
    dependency graph is not loaded and no table is dropped. *)
Theorem drop_restricted_refused (self : table) (c : conn db) :
  restriction self ≠ [] →
  ∃ msg, drop B W self c = (Raise (DataJointError msg), c).
Proof.
  intros Hr. unfold drop. rewrite bool_decide_eq_true_2 by done.
  unfold raise. eauto.
Qed.

(** ** Inserts *)

(** C9 (amended).  When direct inserts are permitted on the handle,
    [insert] with an empty collection of rows returns normally, issues no
    write statement and leaves the contents, the pending transaction and
    the loaded graph as they were. *)
Theorem insert_no_rows (self : table) (o : insert_opts) (c : conn db) :
  allow_direct_insert o || _allow_insert self = true →
  ∃ evs,
    insert B W self (FromRows []) o c
    = (Ok (), Conn (store c) (work c) (dependencies c) (trace c ++ evs)) ∧
    Forall (λ ev, is_query ev = false) evs.
Proof.
  intros Hallow. unfold insert.
  replace (negb (allow_direct_insert o) && negb (_allow_insert self))
    with false by (destruct (allow_direct_insert o), (_allow_insert self);
                   done).
  destruct (heading W (full_table_name self)) as [h|].
  - exists []. split; [|constructor]. rewrite app_nil_r. by destruct c.
  - exists [EvLogger "Could not access table"]. split; [done|].
    constructor; [done|constructor].
Qed.

(** C10.  [insert1p] raises, with the connection exactly as it was (no
    transaction opened, no row written), whenever a primary-key attribute
    of the master is not among the columns of the row set. *)
Theorem insert1p_missing_key
    (self : table) (rows : rows_arg) (o : insert_opts) (c : conn db)
    (k : string) :
  k ∈ pk_names W self →
  k ∉ rows_columns rows →
  ∃ e, insert1p B W self rows o c = (Raise e, c).
Proof.
  intros Hk Hcol. unfold insert1p.
  assert (Hgen : ∀ f : frame, k ∉ columns f →
    bool_decide
      (filter (λ k0, k0 ∉ filter (λ n, n ∈ columns f) (heading_names W self))
              (pk_names W self) ≠ []) = true).
  { intros f Hf. apply bool_decide_eq_true_2. intros Hnil.
    assert (Hin : k ∈ filter
              (λ k0, k0 ∉ filter (λ n, n ∈ columns f) (heading_names W self))
              (pk_names W self)).
    { apply list_elem_of_filter. split; [|done].
      rewrite list_elem_of_filter. tauto. }
    rewrite Hnil in Hin. by apply not_elem_of_nil in Hin. }
  destruct rows as [f|d|f|v]; cbn in Hcol; unfold bind, ret, raise; cbn.
  - rewrite (Hgen f Hcol). eauto.
  - pose proof (Hgen (Frame (d.*1) [d]) Hcol) as Hd. cbn in Hd.
    rewrite Hd. eauto.
  - rewrite (Hgen f Hcol). eauto.
  - eauto.
Qed.

(** ** Atomicity of [insert1p] *)

Lemma select_get (cols : list string) (r : pydict) (k : string) :
  k ∈ cols → dict_get k (select cols r) = Some (cell k r).
Proof.
  induction cols as [|c cols IH]; intros Hk.
  - by apply not_elem_of_nil in Hk.
  - cbn. destruct (decide (c = k)) as [->|Hne]; [done|].
    apply IH. apply elem_of_cons in Hk as [->|]; [done|assumption].
Qed.

Lemma select_values (sub : list string) (r : pydict) :
  (select sub r).*2 = (λ k, cell k r) <$> sub.
Proof. unfold select. rewrite <- list_fmap_compose. done. Qed.

Lemma select_select_values (sub cols : list string) (r : pydict) :
  sub ⊆ cols →
  (select sub (select cols r)).*2 = (λ k, cell k r) <$> sub.
Proof.
  intros Hsub. rewrite select_values. apply list_fmap_ext.
  intros i k Hik. unfold cell at 1. rewrite select_get; [done|].
  apply Hsub. by eapply list_elem_of_lookup_2.
Qed.

Lemma drop_duplicates_from_keys (subset : list string)
    (seen : list (list pyval)) (rs : list pydict) (k : list pyval) :
  k ∈ (λ r, (select subset r).*2) <$> drop_duplicates_from subset seen rs ↔
  k ∈ (λ r, (select subset r).*2) <$> rs ∧ k ∉ seen.
Proof.
  revert seen. induction rs as [|r rs IH]; intros seen; cbn.
  - rewrite elem_of_nil. tauto.
  - case_bool_decide as Hseen.
    + rewrite IH, elem_of_cons. split; [tauto|].
      intros [[->|Hin] Hn]; [done|tauto].
    + cbn. rewrite !elem_of_cons, IH, not_elem_of_cons. split.
      * intros [->|[Hin [Hne Hn]]]; tauto.
      * intros [[->|Hin] Hn]; [tauto|].
        destruct (decide (k = (select subset r).*2)); tauto.
Qed.

Lemma two_members_length {A} (l : list A) (x y : A) :
  x ∈ l → y ∈ l → x ≠ y → 2 ≤ length l.
Proof.
  intros Hx Hy Hne. destruct l as [|a [|b l]]; cbn; try lia.
  - by apply not_elem_of_nil in Hx.
  - apply list_elem_of_singleton in Hx, Hy. congruence.
Qed.

Lemma master_key_not_unique (self : table) (f : frame) (r1 r2 : pydict)
    (k : string) :
  let cols := filter (λ n, n ∈ columns f) (heading_names W self) in
  filter (λ k0, k0 ∉ cols) (pk_names W self) = [] →
  r1 ∈ records f → r2 ∈ records f →
  k ∈ pk_names W self → cell k r1 ≠ cell k r2 →
  length (drop_duplicates (pk_names W self)
            (records (frame_select (pk_names W self)
                        (frame_select cols f)))) ≠ 1.
Proof.
  intros cols Hall H1 H2 Hk Hne.
  assert (Hsub : pk_names W self ⊆ cols).
  { intros x Hx. destruct (decide (x ∈ cols)) as [|Hn]; [done|].
    assert (Hin : x ∈ filter (λ k0, k0 ∉ cols) (pk_names W self)).
    { apply list_elem_of_filter. done. }
    rewrite Hall in Hin. by apply not_elem_of_nil in Hin. }
  set (key := λ r : pydict, (select (pk_names W self) r).*2).
  assert (Hkeys : ∀ r, r ∈ records f →
            (λ k, cell k r) <$> pk_names W self
            ∈ key <$> drop_duplicates (pk_names W self)
                        (records (frame_select (pk_names W self)
                                    (frame_select cols f)))).
  { intros r Hr. unfold drop_duplicates.
    apply drop_duplicates_from_keys. split; [|apply not_elem_of_nil].
    cbn. apply list_elem_of_fmap.
    exists (select (pk_names W self) (select cols r)). split.
    - rewrite select_select_values by done.
      rewrite <- (select_select_values (pk_names W self) cols r Hsub).
      by rewrite select_values.
    - apply list_elem_of_fmap. eexists. split; [done|].
      apply list_elem_of_fmap. eauto. }
  pose proof (Hkeys r1 H1) as K1. pose proof (Hkeys r2 H2) as K2.
  assert (Hdiff : (λ k, cell k r1) <$> pk_names W self
                  ≠ (λ k, cell k r2) <$> pk_names W self).
  { intros Heq. apply Hne.
    apply list_elem_of_lookup in Hk as [i Hi].
    assert (Hl : ((λ k, cell k r1) <$> pk_names W self) !! i
                 = ((λ k, cell k r2) <$> pk_names W self) !! i)
      by (by rewrite Heq).
    rewrite !list_lookup_fmap, Hi in Hl. by injection Hl. }
  pose proof (two_members_length _ _ _ K1 K2 Hdiff) as Hlen.
  rewrite length_fmap in Hlen. lia.
Qed.

Lemma run_in_transaction (m : M db ()) (c : conn db) r c' :
  inert m →
  (if in_transaction c then m else transaction m) c = (r, c') →
  if in_transaction c
  then ∃ evs, trace c' = trace c ++ evs ∧ quiet evs ∧
              is_Some (work c') ∧ store c' = store c
  else work c' = None ∧
       match r with
       | Ok _ => ∃ evs, quiet evs ∧
                        trace c' = trace c ++ EvStart :: evs ++ [EvCommit]
       | Raise _ =>
           store c' = store c ∧
           (trace c' = trace c ∨
            ∃ evs, quiet evs ∧
                   trace c' = trace c ++ EvStart :: evs ++ [EvCancel])
       end.
Proof.
  intros Hm H. destruct (in_transaction c) eqn:Ht.
  - destruct (Hm _ _ _ H) as (evs & T & Q & F & S).
    assert (Hw : is_Some (work c)).
    { unfold in_transaction in Ht. by apply bool_decide_eq_true in Ht. }
    exists evs. repeat split; auto. by apply F.
  - unfold transaction, on_error, bind, start_transaction in H.
    rewrite Ht in H. cbn in H.
    match type of H with
    | context [m ?c1] => destruct (m c1) as [[[]|e] c2] eqn:E
    end; cbn in H; injection H as <- <-; cbn;
      destruct (Hm _ _ _ E) as (evs & T & Q & F & S); cbn in *.
    + split; [done|]. exists evs. split; [done|].
      rewrite T, <- !app_assoc. done.
    + split; [done|]. split; [apply S; eauto|]. right.
      exists evs. split; [done|]. rewrite T, <- !app_assoc. done.
Qed.

Lemma raise_in_transaction (e : exn) (c : conn db) r c' :
  raise (A:=()) e c = (r, c') →
  if in_transaction c
  then ∃ evs, trace c' = trace c ++ evs ∧ quiet evs ∧
              is_Some (work c') ∧ store c' = store c
  else work c' = None ∧
       match r with
       | Ok _ => ∃ evs, quiet evs ∧
                        trace c' = trace c ++ EvStart :: evs ++ [EvCommit]
       | Raise _ =>
           store c' = store c ∧
           (trace c' = trace c ∨
            ∃ evs, quiet evs ∧
                   trace c' = trace c ++ EvStart :: evs ++ [EvCancel])
       end.
Proof.
  intros [= <- <-]. destruct (in_transaction c) eqn:Ht.
  - exists []. rewrite app_nil_r. repeat split; auto; [constructor|].
    unfold in_transaction in Ht. by apply bool_decide_eq_true in Ht.
  - unfold in_transaction in Ht. apply bool_decide_eq_false in Ht.
    split; [|auto]. destruct (work c); [|done]. exfalso. eauto.
Qed.

Lemma insert1p_frame (self : table) (f : frame) (o : insert_opts)
    (rows : rows_arg) :
  frame_of rows = Some f →
  insert1p B W self rows o =
  let cols := filter (λ n, n ∈ columns f) (heading_names W self) in
  if bool_decide (filter (λ k, k ∉ cols) (pk_names W self) ≠ [])
  then raise (AssertionError
                  "not all master primary key in dataframe for insert1p.")
  else
    if bool_decide
         (length (drop_duplicates (pk_names W self)
                    (records (frame_select (pk_names W self)
                                (frame_select cols f)))) ≠ 1)
    then raise (AssertionError "master primary keys are not unique.")
    else
      match records (frame_select cols f) with
      | [] => raise IndexError
      | first :: _ =>
          let master_input := filter (λ kv, kv.2 ≠ PNone) first in
          λ c, (if in_transaction c
                then insert1p_helper B W self master_input f o
                else transaction
                       (insert1p_helper B W self master_input f o)) c
      end.
Proof.
  intros Hf. destruct rows; cbn in Hf; try discriminate;
    injection Hf as <-; reflexivity.
Qed.

(** ** The nodes that restrict by their whole relation *)

Lemma od_set_keys {A} (k : string) (v : A) (d : list (string * A)) (x : string) :
  x ∈ (od_set k v d).*1 ↔ x = k ∨ x ∈ d.*1.
Proof.
  induction d as [|[k' v'] d IH]; cbn.
  - rewrite list_elem_of_singleton, elem_of_nil. tauto.
  - destruct (decide (k' = k)) as [->|Hne]; cbn.
    + rewrite !elem_of_cons. tauto.
    + rewrite !elem_of_cons, IH. tauto.
Qed.

Lemma od_of_list_keys {A} (l : list (string * A)) (x : string) :
  x ∈ (od_of_list l).*1 ↔ x ∈ l.*1.
Proof.
  unfold od_of_list.
  assert (Hgen : ∀ acc : list (string * A),
            x ∈ (foldl (λ d kv, od_set kv.1 kv.2 d) acc l).*1
            ↔ x ∈ acc.*1 ∨ x ∈ l.*1).
  { induction l as [|[k v] l IH]; intros acc; cbn.
    - rewrite elem_of_nil. tauto.
    - rewrite IH, od_set_keys, elem_of_cons. tauto. }
  rewrite Hgen. cbn. rewrite elem_of_nil. tauto.
Qed.

Lemma rmap_keys {A} (f : string → result (string * A)) (l : list string)
    (out : list (string * A)) :
  (∀ n y, f n = Ok y → y.1 = n) →
  rmap f l = Ok out → out.*1 = l.
Proof.
  intros Hf. revert out. induction l as [|n l IH]; intros out; cbn.
  - by intros [= <-].
  - destruct (f n) as [y|e] eqn:E; cbn; [|discriminate].
    destruct (rmap f l) as [ys|e]; cbn; [|discriminate].
    intros [= <-]. cbn. f_equal; [by apply Hf|by apply IH].
Qed.

Lemma make_delete_list_keys (g : graph) (name : string)
    (dl : list (string * dl_item)) (x : string) :
  make_delete_list g name = Ok dl →
  x ∈ dl.*1 ↔ x ∈ descendants g name.
Proof.
  unfold make_delete_list. intros H.
  destruct (rmap _ (descendants g name)) as [l|e] eqn:E; cbn in H;
    [|discriminate].
  injection H as <-. rewrite od_of_list_keys.
  erewrite rmap_keys; [done| |exact E].
  intros n y. cbn. destruct (isdigit n).
  - destruct (parents g n None) as [|[p props] ?]; [discriminate|].
    by intros [= <-].
  - by intros [= <-].
Qed.

Lemma elem_of_foldl_union (F : string → gset string) (l : list string)
    (s : gset string) (x : string) :
  x ∈ foldl (λ acc t, acc ∪ F t) s l ↔ x ∈ s ∨ ∃ t, t ∈ l ∧ x ∈ F t.
Proof.
  revert s. induction l as [|t l IH]; intros s; cbn.
  - split; [tauto|]. intros [?|(t & Ht & _)]; [done|].
    by apply not_elem_of_nil in Ht.
  - rewrite IH, elem_of_union. split.
    + intros [[?|?]|(t' & ? & ?)]; [tauto| |].
      * right. exists t. split; [left|done].
      * right. exists t'. split; [by right|done].
    + intros [?|(t' & Ht' & ?)]; [tauto|].
      apply elem_of_cons in Ht' as [->|?]; [tauto|]. right. eauto.
Qed.

(** C5 (amended).  The set [restrict_by_me] built by a cascading delete
    of [self] consists of [self] when it carries a restriction, of every
    projection node among the descendants of [self], and of every
    secondary child of a descendant of [self] (the list of descendants
    starts with [self]). *)
Theorem restrict_by_me_spec (g : graph) (self : table)
    (delete_list : list (string * dl_item)) (x : string) :
  make_delete_list g (full_table_name self) = Ok delete_list →
  x ∈ restrict_by_me g self delete_list ↔
    (restriction self ≠ [] ∧ x = full_table_name self) ∨
    (x ∈ descendants g (full_table_name self) ∧ isdigit x = true) ∨
    (∃ n, n ∈ descendants g (full_table_name self) ∧
          x ∈ (children g n (Some false)).*1).
Proof.
  intros Hdl. unfold restrict_by_me.
  rewrite elem_of_foldl_union, elem_of_union, elem_of_list_to_set,
    list_elem_of_filter.
  rewrite (make_delete_list_keys _ _ _ x Hdl).
  assert (Hself : x ∈ (if bool_decide (restriction self ≠ [])
                    then {[full_table_name self]} else ∅ : gset string)
               ↔ restriction self ≠ [] ∧ x = full_table_name self).
  { case_bool_decide as Hr; [rewrite elem_of_singleton|rewrite elem_of_empty];
      tauto. }
  assert (Hsec : (∃ t, t ∈ delete_list.*1 ∧
                     x ∈ (list_to_set ((children g t (Some false)).*1)
                            : gset string))
               ↔ ∃ n, n ∈ descendants g (full_table_name self) ∧
                      x ∈ (children g n (Some false)).*1).
  { split; intros (t & Ht & Hx); exists t;
      rewrite elem_of_list_to_set in *;
      (split; [by apply (make_delete_list_keys _ _ _ t Hdl)|done]). }
  rewrite Hself, Hsec, Is_true_true. tauto.
Qed.

(** ** The output contract of [make] *)

Lemma normalize_output_eq (self : table) (output : pyobj) (c : conn db) :
  normalize_output W self output c =
  let warned :=
    match output with
    | ObjVal PNone =>
        log_event (EvWarn "output of function is None for key") c
    | _ => c
    end in
  let shaped :=
    match output with
    | ObjVal PNone => ObjVal (PDict [])
    | _ => output
    end in
  match has_part_tables W self warned with
  | (Ok (hpt, self'), c1) =>
      let shaped := match shaped with
                    | ObjRecarray f => ObjFrame f
                    | _ => shaped
                    end in
      if hpt && negb (is_frame_or_dict shaped)
      then (Raise (DataJointError
              "output must be dataframe or dict for table with part tables."),
            c1)
      else if negb hpt && negb (is_dict shaped)
      then (Raise (DataJointError
              "ouput must be dict for table without part tables."), c1)
      else (Ok (shaped, hpt, self'), c1)
  | (Raise e, c1) => (Raise e, c1)
  end.
Proof.
  unfold normalize_output.
  destruct output as [[]|f|f]; cbn;
    unfold bind, ret, emit, raise; cbn;
    match goal with
    | |- context [has_part_tables W self ?c0] =>
        destruct (has_part_tables W self c0) as [[[hpt self']|e] c1]
    end; cbn; try reflexivity;
    destruct hpt; reflexivity.
Qed.

(** C6.  Once the entry is fetched and the function has returned, [make]
    replaces a [None] output by an empty dict after a warning; then, with
    part tables, an output that is neither a dict nor a DataFrame or
    recarray raises a DataJointError, and without part tables an output
    that is not a dict does; in the remaining cases no shape error is
    raised and [make] goes on to store the output. *)
Theorem make_output_shape
    (self : table) (st : settings) (key : pyval) (c c0 : conn db)
    (entry : pydict) (arguments : list pyval) (keywords : pydict)
    (raw output : pyobj) :
  make_fetch B st key c = (Ok entry, c0) →
  AutoMake._create_kwargs entry (entry_settings st) (global_settings st)
    (args st) (kwargs st) = Ok (arguments, keywords) →
  func st arguments keywords = Ok raw →
  make_compatible W raw = Ok output →
  let warned :=
    match output with
    | ObjVal PNone =>
        log_event (EvWarn "output of function is None for key") c0
    | _ => c0
    end in
  let shaped :=
    match output with
    | ObjVal PNone => ObjVal (PDict [])
    | _ => output
    end in
  ∀ hpt self' c1,
    has_part_tables W self warned = (Ok (hpt, self'), c1) →
    if hpt
    then (¬ is_mapping shaped ∧ ¬ is_tabular shaped →
          make B W self st key c
          = (Raise (DataJointError
               "output must be dataframe or dict for table with part tables."),
             c1)) ∧
         (∀ d, shaped = ObjVal (PDict d) →
          make B W self st key c
          = store_output B W self' st entry shaped true c1) ∧
         (∀ f, shaped = ObjFrame f ∨ shaped = ObjRecarray f →
          make B W self st key c
          = store_output B W self' st entry (ObjFrame f) true c1)
    else (¬ is_mapping shaped →
          make B W self st key c
          = (Raise (DataJointError
               "ouput must be dict for table without part tables."), c1)) ∧
         (is_mapping shaped →
          make B W self st key c
          = store_output B W self' st entry shaped false c1).
Proof.
  intros Hfetch Hkw Hfunc Hcompat warned shaped hpt self' c1 Hpt.
  assert (Hmake : make B W self st key c
                  = bind (normalize_output W self output)
                      (λ '(output, hpt, self),
                         store_output B W self st entry output hpt) c0).
  { unfold make. unfold bind at 1. rewrite Hfetch.
    unfold bind at 1, lift at 1. rewrite Hkw.
    unfold bind at 1, lift at 1. rewrite Hfunc.
    unfold bind at 1, lift at 1. rewrite Hcompat. reflexivity. }
  unfold bind at 1 in Hmake. rewrite normalize_output_eq in Hmake.
  cbn zeta in Hmake. fold warned in Hmake. fold shaped in Hmake.
  rewrite Hpt in Hmake. rewrite Hmake.
  clear Hmake Hpt Hfetch Hkw Hfunc Hcompat. clearbody shaped. clear warned.
  destruct hpt.
  - split; [|split].
    + intros [Hm Ht]. destruct shaped as [[]|f|f]; cbn; try reflexivity.
      * exfalso. apply Hm. by eexists.
      * exfalso. apply Ht. eexists. by left.
      * exfalso. apply Ht. eexists. by right.
    + intros d ->. reflexivity.
    + intros f [->| ->]; reflexivity.
  - split.
    + intros Hm. destruct shaped as [[]|f|f]; cbn; try reflexivity.
      exfalso. apply Hm. by eexists.
    + intros [d ->]. reflexivity.
Qed.

(** ** Argument assembly *)

Lemma dict_get_set (k k' : string) (v : pyval) (d : pydict) :
  dict_get k (dict_set k' v d)
  = if decide (k' = k) then Some v else dict_get k d.
Proof.
  induction d as [|[k0 v0] d IH]; cbn.
  - done.
  - destruct (decide (k0 = k')) as [->|Hne]; cbn.
    + destruct (decide (k' = k)); done.
    + destruct (decide (k0 = k)) as [->|Hne'].
      * destruct (decide (k' = k)); [congruence|done].
      * exact IH.
Qed.

Lemma dict_get_del (k k' : string) (d : pydict) :
  dict_get k (dict_del k' d)
  = if decide (k' = k) then None else dict_get k d.
Proof.
  induction d as [|[k0 v0] d IH]; cbn.
  - by destruct (decide (k' = k)).
  - destruct (decide (k0 = k')) as [->|Hne]; cbn.
    + rewrite IH. destruct (decide (k' = k)); done.
    + destruct (decide (k0 = k)) as [->|Hne'].
      * destruct (decide (k' = k)); [congruence|done].
      * exact IH.
Qed.

(** After [d.update(other)] a key reads as its last binding in [other],
    or as in [d] when [other] does not bind it. *)
Lemma dict_get_update (k : string) (d other : pydict) :
  dict_get k (dict_update d other)
  = match dict_get k (reverse other) with
    | Some v => Some v
    | None => dict_get k d
    end.
Proof.
  unfold dict_update. revert d.
  induction other as [|[k0 v0] other IH] using rev_ind; intros d.
  - done.
  - rewrite foldl_app, reverse_app. cbn.
    rewrite dict_get_set. destruct (decide (k0 = k)); [done|apply IH].
Qed.

Lemma dict_get_not_in (k : string) (d : pydict) :
  k ∉ d.*1 → dict_get k d = None.
Proof.
  induction d as [|[k0 v0] d IH]; cbn; [done|].
  rewrite not_elem_of_cons. intros [Hne Hn].
  destruct (decide (k0 = k)); [congruence|auto].
Qed.

Lemma dict_get_in_wf (k : string) (v : pyval) (d : pydict) :
  NoDup (d.*1) → (k, v) ∈ d → dict_get k d = Some v.
Proof.
  induction d as [|[k0 v0] d IH]; cbn.
  - intros _ H. by apply not_elem_of_nil in H.
  - rewrite NoDup_cons. intros [Hn Hd] Hin.
    apply elem_of_cons in Hin as [[= -> ->]|Hin].
    + by destruct (decide (k0 = k0)).
    + destruct (decide (k0 = k)) as [->|Hne]; [|auto].
      exfalso. apply Hn. apply list_elem_of_fmap. by exists (k, v).
Qed.

Lemma rmap_Forall2 {A C} (f : A → result C) (l : list A) (out : list C) :
  rmap f l = Ok out ↔ Forall2 (λ x y, f x = Ok y) l out.
Proof.
  revert out. induction l as [|x l IH]; intros out; cbn.
  - split; [intros [= <-]; constructor|by inversion 1].
  - split.
    + destruct (f x) as [y|e] eqn:E; cbn; [|discriminate].
      destruct (rmap f l) as [ys|e]; cbn; [|discriminate].
      intros [= <-]. constructor; [done|by apply IH].
    + inversion 1 as [|? y ? ys Hy Hys]; subst. rewrite Hy. cbn.
      apply IH in Hys. rewrite Hys. done.
Qed.

Lemma entry_item_ok (entry : pydict) (k v : pyval) :
  AutoMake.entry_item entry k = Ok v ↔ column_value entry k v.
Proof.
  unfold AutoMake.entry_item, column_value. split.
  - destruct k; try (destruct (hashable _); discriminate).
    destruct (dict_get s entry) as [v'|] eqn:E; [|discriminate].
    intros [= <-]. eauto.
  - intros (s & -> & ->). done.
Qed.

Lemma entry_items_ok (entry : pydict) (cols vs : list pyval) :
  rmap (AutoMake.entry_item entry) cols = Ok vs ↔
  Forall2 (column_value entry) cols vs.
Proof.
  rewrite rmap_Forall2. split; intros H;
    (eapply Forall2_impl; [exact H|]); intros ? ?; apply entry_item_ok.
Qed.

(** A binding that evaluates denotes what the contract says. *)
Lemma bind_arg_value (entry : pydict) (arg v : pyval) :
  AutoMake.bind_arg entry arg = Ok v → binding_value entry arg v.
Proof.
  destruct arg as [|z|s|l|l|l|m]; cbn; try discriminate.
  - destruct (dict_get s entry) as [v'|] eqn:E; [|discriminate].
    intros [= <-]. by constructor.
  - destruct (rmap _ l) as [vs|e] eqn:E; cbn; [|discriminate].
    intros [= <-]. constructor. by apply entry_items_ok.
  - destruct (rmap _ l) as [vs|e] eqn:E; cbn; [|discriminate].
    intros [= <-]. constructor. by apply entry_items_ok.
  - destruct (rmap _ l) as [vs|e] eqn:E; cbn; [|discriminate].
    unfold py_set. destruct (forallb hashable vs); [|discriminate].
    intros [= <-]. apply (bv_set entry l vs).
    + by apply entry_items_ok.
    + apply NoDup_remove_dups.
    + intros x. apply elem_of_remove_dups.
  - destruct (rmap _ m) as [d|e] eqn:E; cbn; [|discriminate].
    intros [= <-]. constructor. apply rmap_Forall2 in E.
    eapply Forall2_impl; [exact E|]. intros [k col] [k' v']. cbn.
    destruct (AutoMake.entry_item entry col) as [x|] eqn:Ex; cbn;
      [|discriminate].
    intros [= <- <-]. split; [done|]. by apply entry_item_ok.
Qed.

(** The loop over [entry_settings]: every binding is evaluated and
    written over the copy of [global_settings], in order. *)
Lemma substitute_entry_settings_update (entry es kw out : pydict) :
  AutoMake.substitute_entry_settings entry es kw = Ok out →
  ∃ bound,
    Forall2 (λ kv b, b.1 = kv.1 ∧ AutoMake.bind_arg entry kv.2 = Ok b.2)
            es bound ∧
    out = dict_update kw bound.
Proof.
  revert kw. induction es as [|[k arg] es IH]; intros kw; cbn.
  - intros [= <-]. exists []. split; [constructor|done].
  - destruct (AutoMake.bind_arg entry arg) as [v|e] eqn:E; cbn;
      [|discriminate].
    intros H. destruct (IH _ H) as (bound & HF & ->).
    exists ((k, v) :: bound). split; [|done].
    constructor; [done|exact HF].
Qed.

Lemma bound_keys (entry es bound : pydict) :
  Forall2 (λ kv b, b.1 = kv.1 ∧ AutoMake.bind_arg entry kv.2 = Ok b.2)
          es bound →
  bound.*1 = es.*1.
Proof.
  induction 1 as [|[k a] [k' v] es bound [Hk _] _ IH]; cbn in *;
    [done|]. by rewrite Hk, IH.
Qed.

Lemma bound_member (entry es bound : pydict) (k : string) (arg : pyval) :
  Forall2 (λ kv b, b.1 = kv.1 ∧ AutoMake.bind_arg entry kv.2 = Ok b.2)
          es bound →
  (k, arg) ∈ es →
  ∃ v, (k, v) ∈ bound ∧ AutoMake.bind_arg entry arg = Ok v.
Proof.
  induction 1 as [|[k0 a] [k' v] es bound [Hk Hv] _ IH]; cbn in *.
  - intros H. by apply not_elem_of_nil in H.
  - intros Hin. apply elem_of_cons in Hin as [[= -> ->]|Hin].
    + exists v. subst k'. split; [left|done].
    + destruct (IH Hin) as (v' & ? & ?). exists v'. split; [by right|done].
Qed.

(** A binding whose columns are all present in the entry evaluates; for
    a set binding the values have to be hashable. *)
Lemma bind_arg_returns (entry : pydict) (arg : pyval) :
  match arg with
  | PStr s => is_Some (dict_get s entry)
  | PList cols | PTuple cols =>
      ∃ vs, Forall2 (column_value entry) cols vs
  | PSet cols =>
      ∃ vs, Forall2 (column_value entry) cols vs ∧ forallb hashable vs = true
  | PDict m => ∃ vs, Forall2 (column_value entry) (m.*2) vs
  | PNone | PInt _ => False
  end →
  ∃ v, AutoMake.bind_arg entry arg = Ok v.
Proof.
  destruct arg as [|z|s|l|l|l|m]; cbn; try done.
  - intros [v ->]. eauto.
  - intros (vs & H). apply entry_items_ok in H. rewrite H. cbn. eauto.
  - intros (vs & H). apply entry_items_ok in H. rewrite H. cbn. eauto.
  - intros (vs & H & Hh). apply entry_items_ok in H. rewrite H. cbn.
    unfold py_set. rewrite Hh. eauto.
  - intros (vs & H).
    assert (Hm : ∃ d, rmap (λ kv, rbind (AutoMake.entry_item entry kv.2)
                                    (λ v, Ok (kv.1, v))) m = Ok d).
    { revert vs H. induction m as [|[k col] m IH]; intros vs H; cbn.
      - eauto.
      - cbn in H. inversion H as [|? v ? vs' Hv Hvs]; subst.
        apply entry_item_ok in Hv. rewrite Hv. cbn.
        destruct (IH _ Hvs) as [d ->]. cbn. eauto. }
    destruct Hm as [d ->]. cbn. eauto.
Qed.

(** Without reserved keys, [_create_kwargs] returns as soon as every
    binding evaluates, and no positional argument is produced. *)
Lemma create_kwargs_returns (entry es gs : pydict) :
  (∀ k arg, (k, arg) ∈ es → ∃ v, AutoMake.bind_arg entry arg = Ok v) →
  ∃ keywords, AutoMake._create_kwargs entry es gs None None = Ok ([], keywords).
Proof.
  intros Hall. unfold AutoMake._create_kwargs.
  assert (Hsub : ∀ kw, ∃ out,
            AutoMake.substitute_entry_settings entry es kw = Ok out).
  { induction es as [|[k arg] es IH]; intros kw; cbn.
    - eauto.
    - destruct (Hall k arg) as [v ->]; [left|]. cbn.
      apply IH. intros k' arg' Hin. apply (Hall k' arg'). by right. }
  destruct (Hsub gs) as [out ->]. cbn. eauto.
Qed.

(** C4.  When [_create_kwargs] returns, the keyword arguments were
    assembled from a copy of [global_settings] overridden by the entry
    bindings: a name bound in [entry_settings] reads as the value its
    binding denotes (a column's value, a container of the binding's own
    kind over the columns' values, or a dict of column values), any other
    name reads as in [global_settings].  The value stored under the
    reserved [args] key is removed and its items become the positional
    arguments; the dict stored under the reserved [kwargs] key is removed
    and merged into the keyword arguments. *)
Theorem create_kwargs_spec
    (entry es gs : pydict) (sa sk : option string)
    (arguments : list pyval) (keywords : pydict) :
  dict_wf es →
  AutoMake._create_kwargs entry es gs sa sk = Ok (arguments, keywords) →
  ∃ assembled : pydict,
    (∀ k, k ∉ es.*1 → dict_get k assembled = dict_get k gs) ∧
    (∀ k arg, (k, arg) ∈ es →
       ∃ v, dict_get k assembled = Some v ∧ binding_value entry arg v) ∧
    match sa with
    | None => arguments = []
    | Some a => ∃ v, dict_get a assembled = Some v ∧ py_iter v = Ok arguments
    end ∧
    match sk with
    | None =>
        ∀ k, dict_get k keywords
             = if decide (sa = Some k) then None else dict_get k assembled
    | Some kw =>
        sa ≠ Some kw ∧
        ∃ v, dict_get kw assembled = Some v ∧
          ∀ extra, v = PDict extra →
            ∀ k, dict_get k keywords
                 = match dict_get k (reverse extra) with
                   | Some x => Some x
                   | None => if decide (sa = Some k ∨ kw = k) then None
                             else dict_get k assembled
                   end
    end.
Proof.
  intros Hwf. unfold AutoMake._create_kwargs.
  destruct (AutoMake.substitute_entry_settings entry es gs)
    as [assembled|e] eqn:Hsub; cbn; [|discriminate].
  intros H. exists assembled.
  destruct (substitute_entry_settings_update _ _ _ _ Hsub)
    as (bound & HF & ->).
  assert (Hkeys := bound_keys _ _ _ HF).
  split; [|split].
  - intros k Hk. rewrite dict_get_update, dict_get_not_in; [done|].
    rewrite fmap_reverse, elem_of_reverse, Hkeys. done.
  - intros k arg Hin. destruct (bound_member _ _ _ _ _ HF Hin) as (v & Hv & Hb).
    exists v. split; [|by apply bind_arg_value].
    rewrite dict_get_update.
    rewrite (dict_get_in_wf k v (reverse bound)); [done| |].
    + rewrite fmap_reverse, Hkeys, reverse_Permutation. exact Hwf.
    + by apply elem_of_reverse.
  - set (assembled := dict_update gs bound) in *.
    destruct sa as [a|]; cbn in H.
    + unfold dict_pop in H.
      destruct (dict_get a assembled) as [va|] eqn:Ea; cbn in H;
        [|discriminate].
      destruct (py_iter va) as [items|] eqn:Ei; cbn in H; [|discriminate].
      destruct sk as [kw|]; cbn in H.
      * destruct (dict_get kw (dict_del a assembled)) as [vk|] eqn:Ek;
          cbn in H; [|discriminate].
        destruct (dict_update_from _ vk) as [final|] eqn:Eu; cbn in H;
          [|discriminate].
        injection H as <- <-.
        rewrite dict_get_del in Ek.
        destruct (decide (a = kw)) as [->|Hne]; [discriminate|].
        split; [eauto|]. split; [congruence|].
        exists vk. split; [done|]. intros extra ->. cbn in Eu.
        injection Eu as <-. intros k.
        rewrite dict_get_update, !dict_get_del.
        destruct (dict_get k (reverse extra)); [done|].
        destruct (decide (kw = k)) as [->|Hk].
        -- rewrite decide_True by auto. done.
        -- destruct (decide (a = k)) as [->|Ha].
           ++ rewrite decide_True by auto. done.
           ++ rewrite decide_False; [done|]. intros [[=]|]; congruence.
      * injection H as <- <-. split; [eauto|].
        intros k. rewrite dict_get_del.
        destruct (decide (a = k)) as [->|Ha].
        -- rewrite decide_True by done. done.
        -- rewrite decide_False; [done|]. congruence.
    + destruct sk as [kw|]; cbn in H.
      * unfold dict_pop in H.
        destruct (dict_get kw assembled) as [vk|] eqn:Ek; cbn in H;
          [|discriminate].
        destruct (dict_update_from _ vk) as [final|] eqn:Eu; cbn in H;
          [|discriminate].
        injection H as <- <-. split; [done|]. split; [done|].
        exists vk. split; [done|]. intros extra ->. cbn in Eu.
        injection Eu as <-. intros k.
        rewrite dict_get_update, dict_get_del.
        destruct (dict_get k (reverse extra)); [done|].
        destruct (decide (kw = k)) as [->|Hk].
        -- rewrite decide_True by auto. done.
        -- rewrite decide_False; [done|]. intros [[=]|]; congruence.
      * injection H as <- <-. split; [done|]. intros k.
        rewrite decide_False by done. done.
Qed.

(** ** The downstream guard of [save_update] *)

Lemma children_edge (g : graph) (name : string) (want : option bool)
    (entry : string * edge_props) :
  entry ∈ children g name want → (name, entry.1, entry.2) ∈ edges g.
Proof.
  unfold children. rewrite list_elem_of_omap.
  intros ([[u v] p] & Hin & Hf). cbn in Hf.
  destruct (bool_decide (u = name)) eqn:Hu; cbn in Hf; [|discriminate].
  destruct (primary_matches want p); [|discriminate].
  injection Hf as <-. apply bool_decide_eq_true in Hu as <-. done.
Qed.

Lemma resolve_alias_rank (g : graph) (rank : string → nat) (name : string)
    (entry child : string * edge_props) :
  ranked g rank →
  entry ∈ children g name None →
  resolve_alias g entry = Ok child →
  rank child.1 < rank name.
Proof.
  intros Hr Hin. apply children_edge in Hin. apply Hr in Hin.
  unfold resolve_alias. destruct (aliased entry.2).
  - destruct (children g entry.1 None) as [|first rest] eqn:E; [discriminate|].
    intros [= <-].
    assert (Hf : first ∈ children g entry.1 None) by (rewrite E; left).
    apply children_edge, Hr in Hf. lia.
  - by intros [= <-].
Qed.

Lemma resolve_alias_defined (g : graph) (name : string)
    (entry : string * edge_props) :
  aliases_resolved g →
  isdigit name = false →
  entry ∈ children g name None →
  ∃ child, resolve_alias g entry = Ok child ∧ isdigit child.1 = false.
Proof.
  intros Ha Hname Hin. apply children_edge in Hin.
  specialize (Ha _ _ _ Hin Hname).
  unfold resolve_alias. destruct (aliased entry.2) eqn:Hal; [|eauto].
  destruct (children g entry.1 None); [done|eauto].
Qed.

Lemma check_children_cons (recurse : table → M db bool) (self : table)
    (error : string) (entry : string * edge_props)
    (rest : list (string * edge_props)) (c : conn db) :
  check_children B W recurse self error (entry :: rest) c =
  match resolve_alias (dependencies c) entry with
  | Raise e => (Raise e, c)
  | Ok child =>
      match recurse (restricted_child W self child) c with
      | (Raise e, c') => (Raise e, c')
      | (Ok _, c') =>
          if is_autopopulated child.1 &&
             negb (bool_decide
                     (count_rows B (visible c')
                        (as_query (restricted_child W self child)) = 0))
          then if bool_decide (error = "ignore") then (Ok false, c')
               else if bool_decide (error = "warn")
               then (Ok false, log_event (EvWarn save_update_failure) c')
               else (Raise (DataJointError save_update_failure), c')
          else check_children B W recurse self error rest c'
      end
  end.
Proof.
  cbn [check_children]. unfold bind at 1, get_conn at 1.
  unfold bind at 1, lift at 1.
  destruct (resolve_alias (dependencies c) entry) as [child|e]; [|done].
  unfold bind at 1.
  destruct (recurse (restricted_child W self child) c) as [[b|e] c'];
    [|done].
  unfold bind at 1, len at 1.
  destruct (is_autopopulated child.1 && _); [|done].
  unfold bind, ret, raise, emit.
  destruct (bool_decide (error = "ignore")); [done|].
  destruct (bool_decide (error = "warn")); done.
Qed.

Lemma check_unfold (fuel : nat) (self : table) (reload : bool)
    (error : string) (c : conn db) :
  _check_downstream_autopopulated B W (S fuel) self reload error c =
  let c1 := if reload || bool_decide (nodes (dependencies c) = [])
            then log_event EvLoad
                   (Conn (store c) (work c) (catalog W) (trace c))
            else c in
  check_children B W
    (λ t, _check_downstream_autopopulated B W fuel t false error)
    self error (children (dependencies c1) (full_table_name self) None) c1.
Proof.
  cbn [_check_downstream_autopopulated].
  unfold bind at 1, get_conn at 1. unfold bind at 1.
  destruct (reload || _); cbn; reflexivity.
Qed.

Lemma uses_graph_next (g : graph) (reload : bool) (c : conn db)
    (evs : list event) :
  uses_graph g reload c →
  uses_graph g false (Conn (store c) (work c) g evs).
Proof.
  unfold uses_graph. cbn. intros [[Hl ->]|[Hl ->]].
  - destruct (bool_decide (nodes (catalog W) = [])); auto.
  - right. split; [|done].
    destruct reload; [done|]. exact Hl.
Qed.

Lemma check_first_step (g : graph) (reload : bool) (c : conn db) :
  uses_graph g reload c →
  ∃ evs, (if reload || bool_decide (nodes (dependencies c) = [])
          then log_event EvLoad
                 (Conn (store c) (work c) (catalog W) (trace c))
          else c) = Conn (store c) (work c) g (trace c ++ evs) ∧
         Forall (λ ev, ev = EvLoad) evs.
Proof.
  intros [[-> ->]|[-> ->]].
  - exists [EvLoad]. split; [done|]. by constructor.
  - exists []. rewrite app_nil_r. split; [by destruct c|constructor].
Qed.

Lemma check_post (g : graph) (rank : string → nat) (error : string) :
  ranked g rank → aliases_resolved g →
  ∀ fuel self reload (c : conn db),
    uses_graph g reload c →
    rank (full_table_name self) < fuel →
    isdigit (full_table_name self) = false →
    ∃ r evs,
      _check_downstream_autopopulated B W fuel self reload error c
      = (r, Conn (store c) (work c) g (trace c ++ evs)) ∧
      check_events error evs ∧ check_result error r.
Proof.
  intros Hrank Halias. induction fuel as [|fuel IH];
    intros self reload c Huse Hfuel Hself; [lia|].
  rewrite check_unfold. cbn zeta.
  destruct (check_first_step g reload c Huse) as (ev0 & -> & Hev0).
  cbn [dependencies].
  assert (Hloop : ∀ chs evs,
    (∀ entry, entry ∈ chs → entry ∈ children g (full_table_name self) None) →
    check_events error evs →
    ∃ r evs',
      check_children B W
        (λ t, _check_downstream_autopopulated B W fuel t false error)
        self error chs (Conn (store c) (work c) g (trace c ++ evs))
      = (r, Conn (store c) (work c) g (trace c ++ evs')) ∧
      check_events error evs' ∧ check_result error r).
  { induction chs as [|entry rest IHc]; intros evs Hsub Hevs.
    - exists (Ok true), evs. repeat split; auto.
    - rewrite check_children_cons. cbn [dependencies].
      assert (Hentry : entry ∈ children g (full_table_name self) None)
        by (apply Hsub; left).
      destruct (resolve_alias_defined g _ entry Halias Hself Hentry)
        as (child & Hchild & Hreal).
      rewrite Hchild.
      pose proof (resolve_alias_rank g rank _ entry child Hrank Hentry Hchild)
        as Hlt.
      destruct (IH (restricted_child W self child) false
                  (Conn (store c) (work c) g (trace c ++ evs)))
        as (r1 & ev1 & E1 & Hev1 & Hr1).
      { eapply (uses_graph_next g reload c). exact Huse. }
      { cbn. lia. }
      { exact Hreal. }
      rewrite E1. cbn [store work trace] in *.
      destruct r1 as [b|e].
      + destruct (is_autopopulated child.1 && _).
        * destruct (bool_decide (error = "ignore")) eqn:Hig.
          -- exists (Ok false), (evs ++ ev1). rewrite app_assoc.
             repeat split; auto. by apply Forall_app.
          -- destruct (bool_decide (error = "warn")) eqn:Hwa.
             ++ exists (Ok false), (evs ++ ev1 ++ [EvWarn save_update_failure]).
                unfold log_event. cbn. rewrite !app_assoc.
                repeat split; auto. rewrite <- app_assoc.
                apply Forall_app. split; [done|].
                apply Forall_app. split; [done|].
                constructor; [|constructor]. right.
                apply bool_decide_eq_true in Hwa. done.
             ++ exists (Raise (DataJointError save_update_failure)),
                  (evs ++ ev1).
                rewrite app_assoc. repeat split; auto.
                ** by apply Forall_app.
                ** by apply bool_decide_eq_false in Hig.
                ** by apply bool_decide_eq_false in Hwa.
        * rewrite <- app_assoc.
          apply IHc.
          -- intros e He. apply Hsub. by right.
          -- by apply Forall_app.
      + exists (Raise e), (evs ++ ev1). rewrite app_assoc.
        split; [done|]. split; [by apply Forall_app|exact Hr1]. }
  apply Hloop; [done|].
  eapply Forall_impl; [exact Hev0|]. intros ev ->. by left.
Qed.

Lemma check_dependent_child (g : graph) (rank : string → nat)
    (error : string) (fuel : nat) (self : table) (reload : bool)
    (c : conn db) :
  ranked g rank → aliases_resolved g →
  uses_graph g reload c →
  rank (full_table_name self) < fuel →
  isdigit (full_table_name self) = false →
  dependent_child g self c →
  ∃ evs,
    _check_downstream_autopopulated B W fuel self reload error c
    = (refusal error, Conn (store c) (work c) g (trace c ++ evs)) ∧
    check_events error evs ∧
    (error = "warn" → EvWarn save_update_failure ∈ evs).
Proof.
  intros Hrank Halias Huse Hfuel Hself Hdep.
  destruct fuel as [|fuel]; [lia|].
  rewrite check_unfold. cbn zeta.
  destruct (check_first_step g reload c Huse) as (ev0 & -> & Hev0).
  cbn [dependencies].
  assert (Hloop : ∀ chs evs,
    (∀ entry, entry ∈ chs → entry ∈ children g (full_table_name self) None) →
    (∃ entry child,
        entry ∈ chs ∧ resolve_alias g entry = Ok child ∧
        is_autopopulated child.1 = true ∧
        count_rows B (visible c)
          (as_query (restricted_child W self child)) ≠ 0) →
    check_events error evs →
    ∃ evs',
      check_children B W
        (λ t, _check_downstream_autopopulated B W fuel t false error)
        self error chs (Conn (store c) (work c) g (trace c ++ evs))
      = (refusal error, Conn (store c) (work c) g (trace c ++ evs')) ∧
      check_events error evs' ∧
      (error = "warn" → EvWarn save_update_failure ∈ evs')).
  { induction chs as [|entry rest IHc]; intros evs Hsub Hex Hevs.
    - destruct Hex as (e & ? & He & _). by apply not_elem_of_nil in He.
    - rewrite check_children_cons. cbn [dependencies].
      assert (Hentry : entry ∈ children g (full_table_name self) None)
        by (apply Hsub; left).
      destruct (resolve_alias_defined g _ entry Halias Hself Hentry)
        as (child & Hchild & Hreal).
      rewrite Hchild.
      pose proof (resolve_alias_rank g rank _ entry child Hrank Hentry Hchild)
        as Hlt.
      destruct (check_post g rank error Hrank Halias fuel
                  (restricted_child W self child) false
                  (Conn (store c) (work c) g (trace c ++ evs)))
        as (r1 & ev1 & E1 & Hev1 & Hr1).
      { eapply (uses_graph_next g reload c). exact Huse. }
      { cbn. lia. }
      { exact Hreal. }
      rewrite E1. cbn [store work trace] in *.
      change (visible (Conn (store c) (work c) g ((trace c ++ evs) ++ ev1)))
        with (visible c).
      unfold refusal.
      destruct r1 as [b|e].
      + destruct (is_autopopulated child.1 && _) eqn:Hcond.
        * destruct (bool_decide (error = "ignore")) eqn:Hig.
          -- exists (evs ++ ev1). rewrite app_assoc.
             split; [done|]. split; [by apply Forall_app|].
             apply bool_decide_eq_true in Hig. intros ->. discriminate.
          -- destruct (bool_decide (error = "warn")) eqn:Hwa.
             ++ exists (evs ++ ev1 ++ [EvWarn save_update_failure]).
                unfold log_event. cbn. rewrite !app_assoc.
                split; [done|]. split.
                ** rewrite <- app_assoc.
                   apply Forall_app. split; [done|].
                   apply Forall_app. split; [done|].
                   constructor; [|constructor]. right.
                   apply bool_decide_eq_true in Hwa. done.
                ** intros _. rewrite elem_of_app. right.
                   by apply list_elem_of_singleton.
             ++ exists (evs ++ ev1). rewrite app_assoc.
                split; [done|]. split; [by apply Forall_app|].
                apply bool_decide_eq_false in Hwa. done.
        * rewrite <- app_assoc. apply IHc.
          -- intros e He. apply Hsub. by right.
          -- destruct Hex as (e & ch & He & Hres & Hauto & Hcount).
             apply elem_of_cons in He as [->|He]; [|by eauto 6].
             exfalso. rewrite Hchild in Hres. injection Hres as <-.
             rewrite Hauto in Hcond. cbn in Hcond.
             apply negb_false_iff, bool_decide_eq_true in Hcond. done.
          -- by apply Forall_app.
      + destruct Hr1 as (Hig & Hwa & ->).
        rewrite !bool_decide_eq_false_2 by done.
        exists (evs ++ ev1). rewrite app_assoc.
        split; [done|]. split; [by apply Forall_app|done]. }
  apply Hloop; [done| |].
  - destruct Hdep as (e & ch & ? & ? & ? & ?). eauto 6.
  - eapply Forall_impl; [exact Hev0|]. intros ev ->. by left.
Qed.

Lemma check_no_dependents (g : graph) (rank : string → nat)
    (error : string) :
  ranked g rank → aliases_resolved g →
  ∀ fuel self reload (c : conn db),
    uses_graph g reload c →
    rank (full_table_name self) < fuel →
    isdigit (full_table_name self) = false →
    no_dependents g self c →
    ∃ evs,
      _check_downstream_autopopulated B W fuel self reload error c
      = (Ok true, Conn (store c) (work c) g (trace c ++ evs)) ∧
      Forall (λ ev, ev = EvLoad) evs.
Proof.
  intros Hrank Halias. induction fuel as [|fuel IH];
    intros self reload c Huse Hfuel Hself Hnone; [lia|].
  rewrite check_unfold. cbn zeta.
  destruct (check_first_step g reload c Huse) as (ev0 & -> & Hev0).
  cbn [dependencies].
  assert (Hloop : ∀ chs evs,
    (∀ entry, entry ∈ chs → entry ∈ children g (full_table_name self) None) →
    Forall (λ ev, ev = EvLoad) evs →
    ∃ evs',
      check_children B W
        (λ t, _check_downstream_autopopulated B W fuel t false error)
        self error chs (Conn (store c) (work c) g (trace c ++ evs))
      = (Ok true, Conn (store c) (work c) g (trace c ++ evs')) ∧
      Forall (λ ev, ev = EvLoad) evs').
  { induction chs as [|entry rest IHc]; intros evs Hsub Hevs.
    - exists evs. done.
    - rewrite check_children_cons. cbn [dependencies].
      assert (Hentry : entry ∈ children g (full_table_name self) None)
        by (apply Hsub; left).
      destruct (resolve_alias_defined g _ entry Halias Hself Hentry)
        as (child & Hchild & Hreal).
      rewrite Hchild.
      pose proof (resolve_alias_rank g rank _ entry child Hrank Hentry Hchild)
        as Hlt.
      pose proof (downstream_child g self entry child Hentry Hchild) as Hdown.
      destruct (IH (restricted_child W self child) false
                  (Conn (store c) (work c) g (trace c ++ evs)))
        as (ev1 & E1 & Hev1).
      { eapply (uses_graph_next g reload c). exact Huse. }
      { cbn. lia. }
      { exact Hreal. }
      { intros t Ht Hauto.
        change (visible (Conn (store c) (work c) g (trace c ++ evs)))
          with (visible c).
        apply Hnone; [|done]. by eapply downstream_next. }
      rewrite E1. cbn [store work trace] in *.
      change (visible (Conn (store c) (work c) g ((trace c ++ evs) ++ ev1)))
        with (visible c).
      destruct (is_autopopulated child.1 && _) eqn:Hcond.
      + exfalso. apply andb_true_iff in Hcond as [Hauto Hcount].
        apply negb_true_iff, bool_decide_eq_false in Hcount.
        apply Hcount. by apply Hnone.
      + rewrite <- app_assoc. apply IHc.
        * intros e He. apply Hsub. by right.
        * by apply Forall_app. }
  by apply Hloop.
Qed.

(** A table visited below [self] is a restricted child of [self] or is
    visited below one. *)
Lemma downstream_inv (g : graph) (self u : table) :
  downstream g self u →
  ∃ entry child,
    entry ∈ children g (full_table_name self) None ∧
    resolve_alias g entry = Ok child ∧
    (u = restricted_child W self child ∨
     downstream g (restricted_child W self child) u).
Proof.
  induction 1 as [self entry child Hin Hres|self t u Ht IHt Hu IHu].
  - exists entry, child. auto.
  - destruct IHt as (entry & child & Hin & Hres & [->|Hdown]).
    + exists entry, child. auto.
    + exists entry, child. split; [done|]. split; [done|]. right.
      by eapply downstream_next.
Qed.

(** Under a policy that refuses by raising, a check that answers has
    found no dependent row at any depth. *)
Lemma check_ok_no_dependents (g : graph) (rank : string → nat)
    (error : string) :
  ranked g rank → aliases_resolved g →
  error ≠ "ignore" → error ≠ "warn" →
  ∀ fuel self reload (c c' : conn db) (b : bool),
    uses_graph g reload c →
    rank (full_table_name self) < fuel →
    isdigit (full_table_name self) = false →
    _check_downstream_autopopulated B W fuel self reload error c
    = (Ok b, c') →
    no_dependents g self c.
Proof.
  intros Hrank Halias Hig Hwa. induction fuel as [|fuel IH];
    intros self reload c c' b Huse Hfuel Hself; [lia|].
  rewrite check_unfold. cbn zeta.
  destruct (check_first_step g reload c Huse) as (ev0 & -> & Hev0).
  cbn [dependencies].
  assert (Hloop : ∀ chs evs,
    (∀ entry, entry ∈ chs → entry ∈ children g (full_table_name self) None) →
    check_children B W
      (λ t, _check_downstream_autopopulated B W fuel t false error)
      self error chs (Conn (store c) (work c) g (trace c ++ evs))
    = (Ok b, c') →
    ∀ entry child, entry ∈ chs → resolve_alias g entry = Ok child →
      (is_autopopulated child.1 = true →
       count_rows B (visible c) (as_query (restricted_child W self child))
       = 0) ∧
      no_dependents g (restricted_child W self child) c).
  { induction chs as [|entry rest IHc]; intros evs Hsub Hrun entry0 child0 Hin0.
    { by apply not_elem_of_nil in Hin0. }
    rewrite check_children_cons in Hrun. cbn [dependencies] in Hrun.
    assert (Hentry : entry ∈ children g (full_table_name self) None)
      by (apply Hsub; left).
    destruct (resolve_alias_defined g _ entry Halias Hself Hentry)
      as (child & Hchild & Hreal).
    rewrite Hchild in Hrun.
    pose proof (resolve_alias_rank g rank _ entry child Hrank Hentry Hchild)
      as Hlt.
    assert (Huse' : uses_graph g false
                      (Conn (store c) (work c) g (trace c ++ evs))).
    { eapply (uses_graph_next g reload c). exact Huse. }
    destruct (check_post g rank error Hrank Halias fuel
                (restricted_child W self child) false
                (Conn (store c) (work c) g (trace c ++ evs)))
      as (r1 & ev1 & E1 & Hev1 & Hr1); [done|cbn; lia|done|].
    rewrite E1 in Hrun. cbn [store work trace] in *.
    change (visible (Conn (store c) (work c) g ((trace c ++ evs) ++ ev1)))
      with (visible c) in Hrun.
    destruct r1 as [b1|e]; [|discriminate].
    assert (Hchild_none : no_dependents g (restricted_child W self child) c).
    { assert (Hr : rank (full_table_name (restricted_child W self child))
                   < fuel) by (cbn; lia).
      exact (IH (restricted_child W self child) false
               (Conn (store c) (work c) g (trace c ++ evs)) _ b1
               Huse' Hr Hreal E1). }
    destruct (is_autopopulated child.1 && _) eqn:Hcond.
    { rewrite !bool_decide_eq_false_2 in Hrun by done. discriminate. }
    rewrite <- app_assoc in Hrun.
    apply elem_of_cons in Hin0 as [->|Hin0].
    - intros Hres. rewrite Hchild in Hres. injection Hres as <-.
      split; [|done]. intros Hauto. rewrite Hauto in Hcond. cbn in Hcond.
      by apply negb_false_iff, bool_decide_eq_true in Hcond.
    - assert (Hsub' : ∀ e, e ∈ rest →
                        e ∈ children g (full_table_name self) None)
        by (intros e He; apply Hsub; by right).
      by apply (IHc _ Hsub' Hrun). }
  intros Hrun t Ht Hauto.
  destruct (downstream_inv g self t Ht)
    as (entry & child & Hin & Hres & [->|Hdown]).
  - destruct (Hloop _ _ (λ e He, He) Hrun entry child Hin Hres) as [H1 _].
    apply H1. exact Hauto.
  - destruct (Hloop _ _ (λ e He, He) Hrun entry child Hin Hres) as [_ H2].
    by apply H2.
Qed.

(** Under a policy that refuses by raising, a dependent row at any depth
    makes the check raise, after nothing but loads of the graph. *)
Lemma check_dependent_below (g : graph) (rank : string → nat)
    (error : string) (fuel : nat) (self : table) (reload : bool)
    (c : conn db) :
  ranked g rank → aliases_resolved g →
  error ≠ "ignore" → error ≠ "warn" →
  uses_graph g reload c →
  rank (full_table_name self) < fuel →
  isdigit (full_table_name self) = false →
  dependent_below g self c →
  ∃ evs,
    _check_downstream_autopopulated B W fuel self reload error c
    = (Raise (DataJointError save_update_failure),
       Conn (store c) (work c) g (trace c ++ evs)) ∧
    Forall (λ ev, ev = EvLoad) evs.
Proof.
  intros Hrank Halias Hig Hwa Huse Hfuel Hself (t & Ht & Hauto & Hcount).
  destruct (check_post g rank error Hrank Halias fuel self reload c
              Huse Hfuel Hself) as (r & evs & E & Hevs & Hr).
  exists evs. split.
  - destruct r as [b|e].
    + exfalso. apply Hcount.
      by apply (check_ok_no_dependents g rank error Hrank Halias Hig Hwa
                  fuel self reload c _ b Huse Hfuel Hself E t).
    + destruct Hr as (_ & _ & ->). exact E.
  - eapply Forall_impl; [exact Hevs|]. cbn. intros ev [->|[-> _]]; done.
Qed.

Lemma _update_issued (self : table) (attrname : string) (value : pyval)
    (ph : string) (v' : option pyval) (c : conn db) :
  count_rows B (visible c) (as_query self) = 1 →
  attrname ∈ heading_names W self →
  attrname ∉ pk_names W self →
  codec W (full_table_name self) attrname value = Ok (ph, v') →
  ∃ r c',
    _update B W self attrname value c = (r, c') ∧
    trace c' = trace c ++
      [EvQuery (SqlUpdate (as_query self) [(attrname, ph)]
                  (match v' with Some x => [x] | None => [] end))].
Proof.
  intros Hone Hin Hpk Hcodec. unfold _update.
  unfold bind at 1, len at 1. rewrite Hone. cbn.
  rewrite !(bool_decide_eq_false_2 (attrname ∉ heading_names W self))
    by (intros Hn; by apply Hn).
  rewrite (bool_decide_eq_false_2 (attrname ∈ pk_names W self)) by done.
  rewrite Hcodec. cbn. unfold bind, lift, query, ret. cbn.
  rewrite (bool_decide_eq_false_2 (1 ≠ 1)) by (intros Hn; by apply Hn).
  match goal with
  | |- context [run_sql B ?q (visible c)] =>
      destruct (run_sql B q (visible c)) as [[n d]|e]
  end; eexists _, _; (split; [reflexivity|]).
  - unfold write. cbn. destruct (work c); done.
  - done.
Qed.

(** C2 (amended).  For a target restricted to one row on an acyclic
    foreign-key graph.  When an auto-populated table visited below the
    target, at any depth, holds a row that depends on the target,
    [save_update] raises under the policy [raise] (and under any policy
    other than [ignore] and [warn]).  When that table is a child of the
    target, [save_update] returns without updating and without a warning
    under [ignore], and returns without updating after emitting the
    warning under [warn].  In these cases no statement reaches the server
    and the contents are unchanged.  When no auto-populated table visited
    below the target holds a dependent row, the UPDATE statement is
    issued under every policy. *)
Theorem save_update_policies
    (g : graph) (rank : string → nat) (fuel : nat) (self : table)
    (attrname : string) (value : pyval) (reload : bool) (error : string)
    (c : conn db) :
  ranked g rank → aliases_resolved g →
  uses_graph g reload c →
  rank (full_table_name self) < fuel →
  isdigit (full_table_name self) = false →
  count_rows B (visible c) (as_query self) = 1 →
  (dependent_below g self c → error ≠ "ignore" → error ≠ "warn" →
   ∃ evs,
     Forall (λ ev, ev = EvLoad) evs ∧
     save_update B W fuel self attrname value reload error c
     = (Raise (DataJointError save_update_failure),
        Conn (store c) (work c) g (trace c ++ evs))) ∧
  (dependent_child g self c →
   ∃ evs,
     Forall (λ ev, ev = EvLoad ∨
                   (error = "warn" ∧ ev = EvWarn save_update_failure)) evs ∧
     let c' := Conn (store c) (work c) g (trace c ++ evs) in
     if bool_decide (error = "ignore")
     then save_update B W fuel self attrname value reload error c = (Ok (), c')
     else if bool_decide (error = "warn")
     then save_update B W fuel self attrname value reload error c
          = (Ok (), c') ∧
          EvWarn save_update_failure ∈ evs
     else save_update B W fuel self attrname value reload error c
          = (Raise (DataJointError save_update_failure), c')) ∧
  (no_dependents g self c →
   ∀ ph v',
     attrname ∈ heading_names W self →
     attrname ∉ pk_names W self →
     codec W (full_table_name self) attrname value = Ok (ph, v') →
     ∃ evs r c',
       Forall (λ ev, ev = EvLoad) evs ∧
       save_update B W fuel self attrname value reload error c = (r, c') ∧
       trace c' = trace c ++ evs ++
         [EvQuery (SqlUpdate (as_query self) [(attrname, ph)]
                     (match v' with Some x => [x] | None => [] end))]).
Proof.
  intros Hrank Halias Huse Hfuel Hself Hone. split; [|split].
  - intros Hdep Hig Hwa.
    destruct (check_dependent_below g rank error fuel self reload c
                Hrank Halias Hig Hwa Huse Hfuel Hself Hdep)
      as (evs & E & Hevs).
    exists evs. split; [exact Hevs|].
    unfold save_update, bind. by rewrite E.
  - intros Hdep.
    destruct (check_dependent_child g rank error fuel self reload c
                Hrank Halias Huse Hfuel Hself Hdep)
      as (evs & E & Hevs & Hwarn).
    exists evs. split; [exact Hevs|]. cbn zeta.
    unfold save_update, bind. rewrite E. unfold refusal.
    destruct (bool_decide (error = "ignore")); [done|].
    destruct (bool_decide (error = "warn")) eqn:Hwa; [|done].
    split; [done|]. apply Hwarn. by apply bool_decide_eq_true in Hwa.
  - intros Hnone ph v' Hin Hpk Hcodec.
    destruct (check_no_dependents g rank error Hrank Halias fuel self reload c
                Huse Hfuel Hself Hnone) as (evs & E & Hevs).
    destruct (_update_issued self attrname value ph v'
                (Conn (store c) (work c) g (trace c ++ evs)))
      as (r & c' & Eu & Tu); auto.
    exists evs, r, c'. split; [exact Hevs|].
    unfold save_update, bind. rewrite E. split; [exact Eu|].
    rewrite Tu. cbn. by rewrite <- app_assoc.
Qed.

(** The graph assumptions can be checked edge by edge. *)
Lemma ranked_check (g : graph) (rank : string → nat) :
  forallb (λ e, rank e.1.2 <? rank e.1.1) (edges g) = true → ranked g rank.
Proof.
  rewrite forallb_forall. intros H p ch props Hin.
  apply list_elem_of_In, H in Hin. cbn in Hin. by apply Nat.ltb_lt.
Qed.

Lemma aliases_resolved_check (g : graph) :
  forallb (λ e, isdigit e.1.1 ||
                if aliased e.2
                then match children g e.1.2 None with
                     | [] => false
                     | first :: _ => negb (isdigit first.1)
                     end
                else negb (isdigit e.1.2)) (edges g) = true →
  aliases_resolved g.
Proof.
  rewrite forallb_forall. intros H p a props Hin Hp.
  apply list_elem_of_In, H in Hin. cbn in Hin. rewrite Hp in Hin. cbn in Hin.
  destruct (aliased props).
  - destruct (children g a None) as [|first rest]; [done|].
    by apply negb_true_iff.
  - by apply negb_true_iff.
Qed.

(** ** More on cascading delete *)

(** A top-level [_delete] works inside a transaction of its own: the
    committed contents are untouched when it returns, the transaction is
    closed when it raises or found nothing to delete, and it is left open
    for the caller otherwise. *)
Lemma _delete_top_level (self : table) (verbose force : bool)
    (c : conn db) r c' :
  in_transaction c = false →
  _delete B W self verbose force c = (r, c') →
  store c' = store c ∧
  match r with
  | Raise _ => work c' = None
  | Ok (_, true) => is_Some (work c') ∧ (safemode W = false ∨ force = true)
  | Ok (_, false) =>
      work c' = None ∨
      (is_Some (work c') ∧ safemode W = true ∧ force = false)
  end.
Proof.
  intros Ht H. unfold _delete in H. unfold bind at 1 in H. cbn in H.
  rewrite Ht in H. cbn in H.
  assert (Hw : work c = None).
  { unfold in_transaction in Ht. apply bool_decide_eq_false in Ht.
    destruct (work c); [|done]. exfalso. eauto. }
  destruct (make_delete_list (catalog W) (full_table_name self))
    as [dl|e]; [|by injection H as <- <-].
  destruct (apply_restrictions _ _ _) as [dl'|e];
    [|by injection H as <- <-].
  unfold bind at 1, start_transaction at 1, in_transaction at 1 in H.
  cbn [work log_event] in H. rewrite Hw in H.
  rewrite bool_decide_eq_false_2 in H by (by intros []).
  unfold bind at 1, on_error at 1 in H.
  match type of H with
  | context [delete_loop B verbose (safemode W) ?items 0 ?msg ?c2] =>
      destruct (delete_loop B verbose (safemode W) items 0 msg c2)
        as [[[total message]|e] c3] eqn:E;
      destruct (inert_delete_loop verbose (safemode W) items 0 msg _ _ _ E)
        as (evs & T & Q & F & S)
  end; cbn in T, F, S.
  - assert (Hw3 : is_Some (work c3)) by (apply F; eauto).
    assert (Hs3 : store c3 = store c) by (apply S; eauto).
    cbn in H. destruct (bool_decide (total = 0)).
    + injection H as <- <-. cbn. auto.
    + injection H as <- <-. split; [done|].
      destruct (safemode W), force; cbn; auto.
  - cbn in H. injection H as <- <-. cbn. split; [|done].
    apply S. eauto.
Qed.

(** X1.  When the cascade of a top-level [delete] fails, for instance
    because a DELETE statement is rejected, [delete] passes the error on
    without a further step; the committed contents are as they were and no
    transaction is open.  A failure of the commit itself is not covered. *)
Theorem delete_failure_rolls_back
    (self : table) (verbose force : bool) (c c' : conn db) (e : exn) :
  in_transaction c = false →
  _delete B W self verbose force c = (Raise e, c') →
  delete B W self verbose force c = (Raise e, c') ∧
  store c' = store c ∧ work c' = None.
Proof.
  intros Ht E. split.
  - unfold delete. unfold bind at 1. by rewrite E.
  - exact (_delete_top_level _ _ _ _ _ _ Ht E).
Qed.

(** X2.  In safemode, a top-level [delete] whose confirmation prompt is
    not answered by yes leaves the committed contents as they were and no
    transaction open, whatever the cascade deleted in the meantime. *)
Theorem delete_declined_keeps_contents
    (self : table) (verbose : bool) (c c' : conn db) (r : result ()) :
  in_transaction c = false →
  safemode W = true →
  user_answer W ≠ "yes" →
  delete B W self verbose false c = (r, c') →
  store c' = store c ∧ work c' = None.
Proof.
  intros Ht Hs Hans H. unfold delete in H. unfold bind at 1 in H.
  destruct (_delete B W self verbose false c) as [[[message commit]|e0] c1] eqn:E.
  - destruct (_delete_top_level _ _ _ _ _ _ Ht E) as [Hst Hc].
    unfold bind in H. cbn in H.
    destruct commit.
    + destruct Hc as [_ [Hc|Hc]]; [congruence|discriminate].
    + cbn in H. rewrite bool_decide_eq_false_2 in H by done.
      cbn in H. injection H as <- <-. cbn. auto.
  - injection H as <- <-.
    exact (_delete_top_level _ _ _ _ _ _ Ht E).
Qed.

Lemma od_set_keys_present {A} (k : string) (v : A) (d : list (string * A)) :
  k ∈ d.*1 → (od_set k v d).*1 = d.*1.
Proof.
  induction d as [|[k' v'] d IH]; cbn.
  - intros H. by apply not_elem_of_nil in H.
  - intros H. destruct (decide (k' = k)) as [->|Hne]; cbn; [done|].
    f_equal. apply IH. apply elem_of_cons in H as [?|?]; [congruence|done].
Qed.

Lemma od_set_fresh {A} (k : string) (v : A) (d : list (string * A)) :
  k ∉ d.*1 → od_set k v d = d ++ [(k, v)].
Proof.
  induction d as [|[k' v'] d IH]; cbn; [done|].
  rewrite not_elem_of_cons. intros [Hne Hn].
  destruct (decide (k' = k)); [congruence|]. by rewrite IH.
Qed.

Lemma od_set_member {A} (k : string) (v : A) (d : list (string * A))
    (x : string * A) :
  x ∈ od_set k v d → x = (k, v) ∨ x ∈ d.
Proof.
  induction d as [|[k' v'] d IH]; cbn.
  - rewrite list_elem_of_singleton. auto.
  - destruct (decide (k' = k)) as [->|Hne].
    + rewrite !elem_of_cons. tauto.
    + rewrite !elem_of_cons. intros [?|?]; [tauto|].
      destruct (IH H); tauto.
Qed.

Lemma od_get_member {A} (k : string) (v : A) (d : list (string * A)) :
  od_get k d = Some v → (k, v) ∈ d.
Proof.
  induction d as [|[k' v'] d IH]; cbn; [done|].
  destruct (decide (k' = k)) as [->|Hne].
  - intros [= ->]. left.
  - intros H. right. auto.
Qed.

Lemma od_of_list_nodup {A} (l : list (string * A)) :
  NoDup (l.*1) → od_of_list l = l.
Proof.
  unfold od_of_list.
  assert (Hgen : ∀ acc : list (string * A),
            NoDup ((acc ++ l).*1) →
            foldl (λ d kv, od_set kv.1 kv.2 d) acc l = acc ++ l).
  { induction l as [|[k v] l IH]; intros acc Hnd; cbn.
    - by rewrite app_nil_r.
    - rewrite od_set_fresh.
      + rewrite IH; rewrite <- app_assoc; done.
      + rewrite fmap_app in Hnd. apply NoDup_app in Hnd as (_ & Hd & _).
        intros Hin. apply (Hd k Hin). left. }
  intros Hnd. by apply (Hgen []).
Qed.

Lemma make_delete_list_filed (g : graph) (name : string)
    (dl : list (string * dl_item)) :
  NoDup (descendants g name) →
  make_delete_list g name = Ok dl →
  dl.*1 = descendants g name ∧ well_filed dl.
Proof.
  unfold make_delete_list. intros Hnd H.
  destruct (rmap _ (descendants g name)) as [l|e] eqn:E; cbn in H;
    [|discriminate].
  injection H as <-.
  assert (Hkeys : l.*1 = descendants g name).
  { eapply rmap_keys; [|exact E]. intros n y. cbn. destruct (isdigit n).
    - destruct (parents g n None) as [|[p props] ?]; [discriminate|].
      by intros [= <-].
    - by intros [= <-]. }
  rewrite od_of_list_nodup by (by rewrite Hkeys).
  split; [done|].
  apply rmap_Forall2 in E. clear Hkeys Hnd.
  intros n item Hin Hdig.
  apply list_elem_of_lookup in Hin as [i Hi].
  destruct (Forall2_lookup_r _ _ _ _ _ E Hi) as (n' & _ & Hf).
  cbn in Hf. destruct (isdigit n') eqn:Hn'.
  - destruct (parents g n' None) as [|[p props] ?]; [discriminate|].
    injection Hf as -> <-. congruence.
  - injection Hf as -> <-. eauto.
Qed.

Lemma apply_restrictions_filed (rs : gmap string (list rterm))
    (names : list string) (dl dl' : list (string * dl_item)) :
  apply_restrictions rs names dl = Ok dl' →
  dl'.*1 = dl.*1 ∧ (well_filed dl → well_filed dl').
Proof.
  revert dl. induction names as [|name rest IH]; intros dl; cbn.
  - intros [= <-]. done.
  - destruct (negb (isdigit name) && _) eqn:Hcond; [|apply IH].
    destruct (rmap _ _) as [conds|e]; cbn; [|discriminate].
    destruct (od_get name dl) as [[t|p props]|] eqn:Hget; try discriminate.
    intros H. destruct (IH _ H) as [Hk Hw].
    pose proof (od_get_member _ _ _ Hget) as Hmem.
    split.
    + rewrite Hk. apply od_set_keys_present.
      apply list_elem_of_fmap. by exists (name, DlTable t).
    + intros Hfiled. apply Hw. intros n item Hin Hdig.
      apply od_set_member in Hin as [[= -> ->]|Hin]; [|by apply Hfiled].
      destruct (Hfiled _ _ Hmem Hdig) as (t' & [= <-] & Hname). eauto.
Qed.

Lemma deleted_tables_app (l1 l2 : list event) :
  deleted_tables (l1 ++ l2) = deleted_tables l1 ++ deleted_tables l2.
Proof. unfold deleted_tables. apply omap_app. Qed.

Lemma statements_app (l1 l2 : list event) :
  statements (l1 ++ l2) = statements l1 ++ statements l2.
Proof. unfold statements. apply omap_app. Qed.

(** The loop of [_delete] issues one DELETE per table of its list, in
    the order of the list, and stops at the first one that fails. *)
Lemma delete_loop_order (verbose safe : bool)
    (items : list (string * dl_item)) (total : nat) (message : string)
    (c : conn db) r c' :
  well_filed items →
  delete_loop B verbose safe items total message c = (r, c') →
  ∃ evs,
    trace c' = trace c ++ evs ∧
    Forall (λ q, is_delete q = true) (statements evs) ∧
    deleted_tables evs `prefix_of`
      filter (λ n, negb (isdigit n)) (items.*1) ∧
    (∀ res, r = Ok res →
       deleted_tables evs = filter (λ n, negb (isdigit n)) (items.*1)).
Proof.
  revert total message c.
  induction items as [|[name item] rest IH]; intros total message c Hfiled;
    cbn [delete_loop].
  - intros [= <- <-]. exists []. rewrite app_nil_r. cbn.
    repeat split; auto.
  - assert (Hrest : well_filed rest).
    { intros n it Hin. apply Hfiled. by right. }
    cbn [fmap list_fmap fst]. rewrite filter_cons.
    destruct (isdigit name) eqn:Hdig; cbn [negb].
    + rewrite decide_False by (by intros []). by apply IH.
    + rewrite decide_True by done.
      destruct (Hfiled name item) as (t & -> & Hname); [left|done|].
      unfold bind at 1, delete_quick, bind at 1, query.
      destruct (run_sql B (SqlDelete (as_query t)) (visible c))
        as [[n d]|e].
      * cbn. intros H. destruct (IH _ _ _ Hrest H) as (evs & T & Hq & Hp & Heq).
        exists (EvQuery (SqlDelete (as_query t))
                  :: EvLog ("DELETE FROM " +:+ full_table_name t) :: evs).
        rewrite T. unfold _log, emit, write, log_event. cbn.
        split.
        { destruct (work c); cbn; by rewrite <- !app_assoc. }
        unfold as_query. cbn. rewrite Hname.
        split; [by constructor|]. split.
        { by apply prefix_cons. }
        intros res Hres. f_equal. eauto.
      * cbn. intros [= <- <-].
        exists [EvQuery (SqlDelete (as_query t))].
        unfold as_query. cbn. rewrite Hname.
        split; [done|]. split; [by repeat constructor|].
        split; [|done]. apply prefix_cons, prefix_nil.
Qed.

(** The trace of [_delete].  The entries of the event log, which the
    code writes by an INSERT into the log table of the schema after every
    DELETE, are log events here; [statements] are the statements on the
    modelled contents. *)
Lemma _delete_trace
    (self : table) (verbose force : bool) (c c' : conn db)
    (r : result (string * bool)) :
  NoDup (descendants (catalog W) (full_table_name self)) →
  _delete B W self verbose force c = (r, c') →
  ∃ evs,
    trace c' = trace c ++ evs ∧
    Forall (λ q, is_delete q = true) (statements evs) ∧
    deleted_tables evs `prefix_of`
      filter (λ n, negb (isdigit n))
        (reverse (descendants (catalog W) (full_table_name self))) ∧
    (∀ res, r = Ok res →
       deleted_tables evs
       = filter (λ n, negb (isdigit n))
           (reverse (descendants (catalog W) (full_table_name self)))).
Proof.
  intros Hnd H. unfold _delete in H. unfold bind at 1 in H. cbn in H.
  destruct (in_transaction c && safemode W) eqn:Hguard.
  { injection H as <- <-. exists []. rewrite app_nil_r. cbn.
    repeat split; auto using prefix_nil; try discriminate. }
  unfold bind at 1, load at 1 in H. unfold bind at 1, get_conn at 1 in H.
  cbn [dependencies log_event] in H.
  unfold bind at 1, lift at 1 in H.
  destruct (make_delete_list (catalog W) (full_table_name self))
    as [dl|e] eqn:Edl.
  2:{ injection H as <- <-. exists [EvLoad]. cbn.
      repeat split; auto using prefix_nil; try discriminate. }
  destruct (make_delete_list_filed _ _ _ Hnd Edl) as [Hkeys Hfiled].
  unfold bind at 1, lift at 1 in H.
  destruct (apply_restrictions _ _ _) as [dl'|e] eqn:Eap.
  2:{ injection H as <- <-. exists [EvLoad]. cbn.
      repeat split; auto using prefix_nil; try discriminate. }
  destruct (apply_restrictions_filed _ _ _ _ Eap) as [Hkeys' Hfiled'].
  specialize (Hfiled' Hfiled).
  assert (Hrev : well_filed (reverse dl')).
  { intros n item Hin. apply Hfiled'. by apply elem_of_reverse. }
  assert (Hnames : (reverse dl').*1
                   = reverse (descendants (catalog W) (full_table_name self))).
  { by rewrite fmap_reverse, Hkeys', Hkeys. }
  rewrite <- Hnames.
  unfold bind at 1 in H.
  destruct (in_transaction c) eqn:Ht; cbn in Hguard; cbn [ret] in H.
  - (* joined *)
    rewrite Hguard in H. cbn in H.
    unfold bind at 1, on_error at 1 in H.
    match type of H with
    | context [delete_loop B verbose false ?items 0 ?msg ?c2] =>
        destruct (delete_loop B verbose false items 0 msg c2)
          as [[[total message]|e] c3] eqn:E;
        destruct (delete_loop_order _ _ _ _ _ _ _ _ Hrev E)
          as (evs & T & Hq & Hp & Heq)
    end; cbn in T.
    + exists (EvLoad :: evs).
      assert (HT : trace c' = trace c ++ EvLoad :: evs).
      { cbn in H. destruct (bool_decide (total = 0)); injection H as <- <-;
          rewrite T, <- app_assoc; done. }
      split; [exact HT|]. cbn. split; [done|]. split; [done|].
      intros res _. by apply (Heq (total, message)).
    + cbn in H. injection H as <- <-. exists (EvLoad :: evs).
      rewrite T, <- app_assoc. cbn. repeat split; auto. discriminate.
  - (* top level *)
    unfold start_transaction at 1, in_transaction at 1 in H.
    cbn [work log_event] in H.
    assert (Hw : work c = None).
    { unfold in_transaction in Ht. apply bool_decide_eq_false in Ht.
      destruct (work c); [|done]. exfalso. eauto. }
    rewrite Hw in H.
    rewrite bool_decide_eq_false_2 in H by (by intros []).
    unfold bind at 1, on_error at 1 in H.
    match type of H with
    | context [delete_loop B verbose ?safe ?items 0 ?msg ?c2] =>
        destruct (delete_loop B verbose safe items 0 msg c2)
          as [[[total message]|e] c3] eqn:E;
        destruct (delete_loop_order _ _ _ _ _ _ _ _ Hrev E)
          as (evs & T & Hq & Hp & Heq)
    end; cbn in T.
    + specialize (Heq _ eq_refl). cbn in H.
      destruct (bool_decide (total = 0)); cbn in H.
      * injection H as <- <-. exists (EvLoad :: EvStart :: evs ++ [EvCancel]).
        cbn. rewrite T. split; [by rewrite <- !app_assoc|].
        rewrite statements_app, deleted_tables_app. cbn.
        rewrite !app_nil_r. auto.
      * injection H as <- <-. exists (EvLoad :: EvStart :: evs).
        cbn. rewrite T. split; [by rewrite <- !app_assoc|]. auto.
    + cbn in H. injection H as <- <-.
      exists (EvLoad :: EvStart :: evs ++ [EvCancel]).
      cbn. rewrite T. split; [by rewrite <- !app_assoc|].
      rewrite statements_app, deleted_tables_app. cbn.
      rewrite !app_nil_r. repeat split; auto. discriminate.
Qed.

(** X3.  The DELETE statements of [_delete] come in strict reverse
    dependency order: one per table among the descendants, last
    descendant first, never for a projection node.  A run that returns
    has issued all of them; a run that raises has issued an initial part
    of that sequence. *)
Theorem _delete_reverse_order
    (self : table) (verbose force : bool) (c c' : conn db)
    (r : result (string * bool)) :
  NoDup (descendants (catalog W) (full_table_name self)) →
  _delete B W self verbose force c = (r, c') →
  ∃ evs,
    trace c' = trace c ++ evs ∧
    deleted_tables evs `prefix_of`
      filter (λ n, negb (isdigit n))
        (reverse (descendants (catalog W) (full_table_name self))) ∧
    (∀ res, r = Ok res →
       deleted_tables evs
       = filter (λ n, negb (isdigit n))
           (reverse (descendants (catalog W) (full_table_name self)))).
Proof.
  intros Hnd H.
  destruct (_delete_trace _ _ _ _ _ _ Hnd H) as (evs & T & _ & Hp & Heq).
  eauto.
Qed.

(** ** More on cascading drop *)

Lemma dropped_tables_app (l1 l2 : list event) :
  dropped_tables (l1 ++ l2) = dropped_tables l1 ++ dropped_tables l2.
Proof. unfold dropped_tables. apply omap_app. Qed.

(** The listing shown before the confirmation prompt only reads. *)
Lemma drop_listing_reads (tables : list string) (c : conn db) :
  ∃ evs,
    for_each tables (λ t,
      bind (len B (as_query (FreeTable t))) (λ n,
        emit (EvPrint (t +:+ " (" +:+ pretty n +:+ " tuples)")))) c
    = (Ok (), Conn (store c) (work c) (dependencies c) (trace c ++ evs)) ∧
    statements evs = [].
Proof.
  revert c. induction tables as [|t rest IH]; intros c; cbn [for_each].
  - exists []. rewrite app_nil_r. by destruct c.
  - unfold bind at 1. unfold bind at 1, len at 1, emit at 1.
    match goal with
    | |- context [for_each rest ?body ?c1] =>
        destruct (IH c1) as (evs & E & Hs)
    end.
    rewrite E. cbn.
    eexists (_ :: evs). rewrite <- app_assoc. split; [reflexivity|].
    exact Hs.
Qed.

Lemma drop_quick_cases (t : string) (c : conn db) :
  drop_quick B (FreeTable t) c =
  if is_declared B (visible c) t
  then match run_sql B (SqlDropTable t) (visible c) with
       | Ok (n, d) =>
           (Ok (),
            log_event (EvLog ("DROP TABLE " +:+ t))
              (log_event (EvLogger ("Dropped table " +:+ t))
                 (write d (log_event (EvQuery (SqlDropTable t)) c))))
       | Raise e => (Raise e, log_event (EvQuery (SqlDropTable t)) c)
       end
  else (Ok (),
        log_event (EvLogger ("Nothing to drop: table " +:+ t
                               +:+ " is not declared")) c).
Proof.
  unfold drop_quick, bind, get_conn, query, emit, _log, emit. cbn.
  destruct (is_declared B (visible c) t); [|done].
  destruct (run_sql B (SqlDropTable t) (visible c)) as [[n d]|e]; done.
Qed.

(** The loop of [drop] issues at most one DROP per table of its list, in
    the order of the list. *)
Lemma drop_loop_order (tables : list string) (c : conn db) r c' :
  for_each tables (λ t, drop_quick B (FreeTable t)) c = (r, c') →
  ∃ evs,
    trace c' = trace c ++ evs ∧
    Forall (λ q, is_drop q = true) (statements evs) ∧
    dropped_tables evs `sublist_of` tables.
Proof.
  revert c. induction tables as [|t rest IH]; intros c; cbn [for_each].
  - intros [= <- <-]. exists []. rewrite app_nil_r. cbn. auto.
  - unfold bind at 1. rewrite drop_quick_cases.
    destruct (is_declared B (visible c) t).
    + destruct (run_sql B (SqlDropTable t) (visible c)) as [[n d]|e].
      * intros H. destruct (IH _ H) as (evs & T & Hq & Hs).
        exists (EvQuery (SqlDropTable t)
                 :: EvLogger ("Dropped table " +:+ t)
                 :: EvLog ("DROP TABLE " +:+ t) :: evs).
        rewrite T. unfold write, log_event. cbn. split.
        { destruct (work c); cbn; by rewrite <- !app_assoc. }
        split; [by constructor|]. by apply sublist_skip.
      * intros [= <- <-]. exists [EvQuery (SqlDropTable t)]. cbn.
        split; [done|]. split; [by repeat constructor|].
        apply sublist_skip, sublist_nil_l.
    + intros H. destruct (IH _ H) as (evs & T & Hq & Hs).
      exists (EvLogger ("Nothing to drop: table " +:+ t
                          +:+ " is not declared") :: evs).
      rewrite T. cbn.
      split; [by rewrite <- app_assoc|]. split; [done|].
      by apply sublist_cons.
Qed.

(** X4.  In safemode, a [drop] whose confirmation prompt is not answered
    by yes issues no statement and returns with the contents and the
    pending transaction as they were. *)
Theorem drop_declined_drops_nothing (self : table) (c : conn db) :
  restriction self = [] →
  safemode W = true →
  user_answer W ≠ "yes" →
  ∃ evs,
    drop B W self c
    = (Ok (), Conn (store c) (work c) (catalog W) (trace c ++ evs)) ∧
    statements evs = [].
Proof.
  intros Hr Hs Hans. unfold drop.
  rewrite (bool_decide_eq_false_2 (restriction self ≠ []))
    by (rewrite Hr; intros Hn; by apply Hn).
  unfold bind at 1, load at 1. unfold bind at 1, get_conn at 1.
  cbn [dependencies log_event]. rewrite Hs.
  unfold bind at 1. unfold bind at 1.
  match goal with
  | |- context [for_each ?tables ?body ?c1] =>
      destruct (drop_listing_reads tables c1) as (evs & E & Hst)
  end.
  rewrite E. unfold user_choice_yes, bind, emit, ret. cbn.
  rewrite bool_decide_eq_false_2 by done.
  exists (EvLoad :: evs ++ [EvPrompt "Proceed?"]).
  split.
  - unfold log_event. cbn. by rewrite <- !app_assoc.
  - cbn. rewrite statements_app, Hst. done.
Qed.

(** The trace of [drop]; as for [_delete], the entries of the event log
    are log events here. *)
Lemma drop_trace (self : table) (c c' : conn db) (r : result ()) :
  drop B W self c = (r, c') →
  ∃ evs,
    trace c' = trace c ++ evs ∧
    Forall (λ q, is_drop q = true) (statements evs) ∧
    dropped_tables evs `sublist_of`
      reverse (filter (λ t, negb (isdigit t))
                 (descendants (catalog W) (full_table_name self))).
Proof.
  unfold drop. destruct (bool_decide (restriction self ≠ [])).
  { intros [= <- <-]. exists []. rewrite app_nil_r. cbn.
    split; [done|]. split; [done|]. apply sublist_nil_l. }
  unfold bind at 1, load at 1. unfold bind at 1, get_conn at 1.
  cbn [dependencies log_event].
  set (tables := filter (λ t, negb (isdigit t))
                   (descendants (catalog W) (full_table_name self))).
  unfold bind at 1.
  assert (Hpre : ∃ evs0 go,
    (if safemode W
     then bind (for_each tables (λ t,
                  bind (len B (as_query (FreeTable t))) (λ n,
                    emit (EvPrint (t +:+ " (" +:+ pretty n +:+ " tuples)")))))
               (λ _, user_choice_yes W "Proceed?")
     else ret true)
      (log_event EvLoad (Conn (store c) (work c) (catalog W) (trace c)))
    = (Ok go, Conn (store c) (work c) (catalog W) (trace c ++ evs0)) ∧
    statements evs0 = []).
  { destruct (safemode W).
    - unfold bind at 1.
      match goal with
      | |- context [for_each tables ?body ?c1] =>
          destruct (drop_listing_reads tables c1) as (evs & E & Hst)
      end.
      rewrite E. unfold user_choice_yes, bind, emit, ret. cbn.
      eexists (EvLoad :: evs ++ [EvPrompt "Proceed?"]), _.
      split; [unfold log_event; cbn; by rewrite <- !app_assoc|].
      cbn. rewrite statements_app, Hst. done.
    - exists [EvLoad], true. done. }
  destruct Hpre as (evs0 & go & -> & Hst0).
  destruct go.
  - unfold bind at 1.
    match goal with
    | |- context [for_each (reverse tables) ?body ?c1] =>
        destruct (for_each (reverse tables) body c1) as [[[]|e] c2] eqn:E;
        destruct (drop_loop_order _ _ _ _ E) as (evs & T & Hq & Hsub)
    end; cbn in T.
    + unfold emit. intros [= <- <-]. cbn.
      exists (evs0 ++ evs ++ [EvPrint "Tables dropped.  Restart kernel."]).
      rewrite T, <- !app_assoc. split; [done|].
      rewrite !statements_app, !dropped_tables_app, Hst0. cbn.
      rewrite app_nil_r.
      assert (Hd0 : dropped_tables evs0 = []).
      { clear -Hst0. induction evs0 as [|[] evs0 IH]; cbn in *;
          try done; auto. }
      rewrite Hd0, app_nil_r. done.
    + intros [= <- <-]. exists (evs0 ++ evs).
      rewrite T, <- !app_assoc. split; [done|].
      rewrite !statements_app, !dropped_tables_app, Hst0. cbn.
      assert (Hd0 : dropped_tables evs0 = []).
      { clear -Hst0. induction evs0 as [|[] evs0 IH]; cbn in *;
          try done; auto. }
      rewrite Hd0. done.
  - intros [= <- <-]. exists evs0. split; [done|]. rewrite Hst0.
    split; [done|].
    assert (Hd0 : dropped_tables evs0 = []).
    { clear -Hst0. induction evs0 as [|[] evs0 IH]; cbn in *;
        try done; auto. }
    rewrite Hd0. apply sublist_nil_l.
Qed.

(** X5.  The DROP TABLE statements of [drop] come in strict reverse
    dependency order: at most one per table among the descendants, last
    descendant first, and never for a projection node. *)
Theorem drop_reverse_order (self : table) (c c' : conn db) (r : result ()) :
  drop B W self c = (r, c') →
  ∃ evs,
    trace c' = trace c ++ evs ∧
    dropped_tables evs `sublist_of`
      reverse (filter (λ t, negb (isdigit t))
                 (descendants (catalog W) (full_table_name self))).
Proof.
  intros H. destruct (drop_trace _ _ _ _ H) as (evs & T & _ & Hs). eauto.
Qed.

(** ** More on inserts *)

Lemma rmap_placeholders {A} (self : table) (key : A → string)
    (val : A → pyval) (ignore_extra : bool) (l : list A)
    (attrs : list (option (string * string * option pyval))) :
  (∀ x, x ∈ l → key x ∈ heading_names W self) →
  rmap (λ x, _make_placeholder W self (key x) (val x) ignore_extra) l
  = Ok attrs →
  (omap id attrs).*1.*1 = key <$> l ∧
  length ((omap id attrs).*1.*2) = length l ∧
  length ((omap id attrs).*2) = length l.
Proof.
  revert attrs. induction l as [|x l IH]; intros attrs Hin; cbn.
  - by intros [= <-].
  - unfold _make_placeholder at 1.
    rewrite (bool_decide_eq_false_2 (key x ∉ heading_names W self))
      by (intros Hn; apply Hn, Hin; left).
    rewrite andb_false_r.
    destruct (codec W (full_table_name self) (key x) (val x)) as [pv|e];
      cbn; [|discriminate].
    destruct (rmap _ l) as [rest|e] eqn:E; cbn; [|discriminate].
    intros [= <-]. cbn.
    destruct (IH rest) as (H1 & H2 & H3); [|done|].
    { intros y Hy. apply Hin. by right. }
    by rewrite H1, H2, H3.
Qed.

Lemma row_to_insert_names
    (self : table) (row : pyval) (ignore_extra : bool)
    (field_list : option (list string)) (r : row_to_insert) :
  _make_row_to_insert W self row ignore_extra field_list = Ok r →
  names r ≠ [] ∧
  names r = match row with
            | PDict d => filter (λ n, n ∈ d.*1) (heading_names W self)
            | _ => heading_names W self
            end ∧
  length (placeholders r) = length (names r) ∧
  length (values r) = length (names r).
Proof.
  unfold _make_row_to_insert.
  assert (Hfin : ∀ (l : list string)
                   (attrs : list (option (string * string * option pyval))),
    (omap id attrs).*1.*1 = l →
    length ((omap id attrs).*1.*2) = length l →
    length ((omap id attrs).*2) = length l →
    (if bool_decide (omap id attrs = [])
     then Raise (AssertionError "Empty tuple")
     else Ok (RowToInsert ((omap id attrs).*1.*1) ((omap id attrs).*1.*2)
                ((omap id attrs).*2))) = Ok r →
    names r ≠ [] ∧ names r = l ∧
    length (placeholders r) = length (names r) ∧
    length (values r) = length (names r)).
  { intros l attrs H1 H2 H3. case_bool_decide as Hne; [discriminate|].
    intros [= <-]. cbn. rewrite H1, H2, H3. repeat split; auto.
    intros ->. apply Hne. destruct (omap id attrs); [done|discriminate]. }
  destruct row as [|z|s|l|l|l|d]; cbn; try discriminate.
  - (* a string, read character by character *)
    case_bool_decide as Hlen; cbn; [discriminate|].
    destruct (rmap _ _) as [attrs|e] eqn:E; cbn; [|discriminate].
    apply (rmap_placeholders self fst snd) in E as (H1 & H2 & H3).
    + apply Hfin.
      * rewrite H1. apply fst_zip. lia.
      * rewrite H2, length_zip. lia.
      * rewrite H3, length_zip. lia.
    + intros [n v] Hx. by apply elem_of_zip_l in Hx.
  - case_bool_decide as Hlen; cbn; [discriminate|].
    destruct (rmap _ _) as [attrs|e] eqn:E; cbn; [|discriminate].
    apply (rmap_placeholders self fst snd) in E as (H1 & H2 & H3).
    + apply Hfin.
      * rewrite H1. apply fst_zip. lia.
      * rewrite H2, length_zip. lia.
      * rewrite H3, length_zip. lia.
    + intros [n v] Hx. by apply elem_of_zip_l in Hx.
  - case_bool_decide as Hlen; cbn; [discriminate|].
    destruct (rmap _ _) as [attrs|e] eqn:E; cbn; [|discriminate].
    apply (rmap_placeholders self fst snd) in E as (H1 & H2 & H3).
    + apply Hfin.
      * rewrite H1. apply fst_zip. lia.
      * rewrite H2, length_zip. lia.
      * rewrite H3, length_zip. lia.
    + intros [n v] Hx. by apply elem_of_zip_l in Hx.
  - case_bool_decide as Hlen; cbn; [discriminate|].
    destruct (rmap _ _) as [attrs|e] eqn:E; cbn; [|discriminate].
    apply (rmap_placeholders self fst snd) in E as (H1 & H2 & H3).
    + apply Hfin.
      * rewrite H1. apply fst_zip. lia.
      * rewrite H2, length_zip. lia.
      * rewrite H3, length_zip. lia.
    + intros [n v] Hx. by apply elem_of_zip_l in Hx.
  - destruct (_check_fields W self (d.*1) field_list ignore_extra); cbn;
      [|discriminate].
    destruct (rmap _ _) as [attrs|e] eqn:E; cbn; [|discriminate].
    apply (rmap_placeholders self id (λ n, default PNone (dict_get n d)))
      in E as (H1 & H2 & H3).
    + apply Hfin.
      * by rewrite H1, list_fmap_id.
      * by rewrite H2.
      * by rewrite H3.
    + intros n Hn. apply list_elem_of_filter in Hn. tauto.
Qed.

(** X6.  A row accepted by [_make_row_to_insert] names at least one
    attribute, names attributes of the heading only and in the order of
    the heading (those a mapping gives a value for, all of them for a
    positional row), and carries one placeholder and one value per
    name. *)
Theorem _make_row_to_insert_shape
    (self : table) (row : pyval) (ignore_extra : bool)
    (field_list : option (list string)) (r : row_to_insert) :
  _make_row_to_insert W self row ignore_extra field_list = Ok r →
  names r ≠ [] ∧
  names r = match row with
            | PDict d => filter (λ n, n ∈ d.*1) (heading_names W self)
            | _ => heading_names W self
            end ∧
  length (placeholders r) = length (names r) ∧
  length (values r) = length (names r).
Proof. apply row_to_insert_names. Qed.

Lemma index_of_lookup (field : string) (l : list string) (i : nat) :
  index_of field l = Ok i → l !! i = Some field.
Proof.
  revert i. induction l as [|x l IH]; intros i; cbn; [discriminate|].
  destruct (decide (x = field)) as [->|].
  - by intros [= <-].
  - destruct (index_of field l) as [j|e]; cbn; [|discriminate].
    intros [= <-]. cbn. by apply IH.
Qed.

Lemma omap_lookup_values {A} (l : list A) (out : list A) (order : list nat) :
  Forall2 (λ x i, l !! i = Some x) out order →
  omap (λ i, l !! i) order = out.
Proof.
  induction 1 as [|x i out order Hx _ IH]; cbn; [done|].
  by rewrite Hx, IH.
Qed.

Lemma omap_lookup_length {A} (l : list A) (order : list nat) :
  Forall (λ i, i < length l) order →
  length (omap (λ i, l !! i) order) = length order.
Proof.
  induction 1 as [|i order Hi _ IH]; cbn; [done|].
  destruct (lookup_lt_is_Some_2 l i Hi) as [x ->]. cbn. by rewrite IH.
Qed.

Lemma reorder_aligned (fl : list string) (r r' : row_to_insert) :
  aligned (names r) r → reorder fl r = Ok r' → aligned fl r'.
Proof.
  intros (_ & Hp & Hv). unfold reorder.
  destruct (rmap _ fl) as [order|e] eqn:E; cbn; [|discriminate].
  intros [= <-]. apply rmap_Forall2 in E.
  assert (Hl : Forall2 (λ x i, names r !! i = Some x) fl order).
  { eapply Forall2_impl; [exact E|]. intros f i. apply index_of_lookup. }
  assert (Hb : Forall (λ i, i < length (names r)) order).
  { clear -Hl. induction Hl as [|f i fl order Hi _ IH]; constructor; auto.
    eapply lookup_lt_Some, Hi. }
  unfold aligned; cbn. split; [by apply omap_lookup_values|].
  rewrite (Forall2_length _ _ _ Hl).
  split; apply omap_lookup_length; [by rewrite Hp|by rewrite Hv].
Qed.

Lemma make_rows_to_insert_aligned (self : table) (ignore_extra : bool)
    (rows : list pyval) (field_list fl' : option (list string))
    (out : list row_to_insert) :
  make_rows_to_insert W self ignore_extra field_list rows = Ok (fl', out) →
  length out = length rows ∧
  (∀ fl, field_list = Some fl → fl' = Some fl) ∧
  (rows ≠ [] →
   ∃ fl, fl' = Some fl ∧ Forall (aligned fl) out ∧
         (field_list = None → fl ≠ [] ∧ fl ⊆ heading_names W self)).
Proof.
  revert field_list fl' out.
  induction rows as [|row rest IH]; intros field_list fl' out; cbn.
  - intros [= <- <-]. repeat split; auto. by intros [].
  - destruct (_make_row_to_insert W self row ignore_extra field_list)
      as [r|e] eqn:Er; cbn; [|discriminate].
    apply row_to_insert_names in Er as (Hne & Hnames & Hp & Hv).
    assert (Hsub : names r ⊆ heading_names W self).
    { rewrite Hnames. destruct row; try done.
      intros n Hn. apply list_elem_of_filter in Hn. tauto. }
    assert (Hr : aligned (names r) r) by done.
    destruct field_list as [fl|]; cbn.
    + destruct (reorder fl r) as [r'|e] eqn:Eo; cbn; [|discriminate].
      destruct (make_rows_to_insert W self ignore_extra (Some fl) rest)
        as [[fl2 out2]|e] eqn:Em; cbn; [|discriminate].
      intros [= <- <-].
      destruct (IH _ _ _ Em) as (Hlen & Hkeep & Hal).
      rewrite (Hkeep fl eq_refl) in *.
      split; [cbn; by rewrite Hlen|]. split; [by intros ? [= <-]|].
      intros _. exists fl. split; [done|]. split; [|discriminate].
      constructor; [by eapply reorder_aligned|].
      destruct rest as [|row' rest'].
      * cbn in Em. assert (out2 = []) as -> by congruence. constructor.
      * destruct Hal as (fl3 & [= <-] & Hall & _); [done|]. exact Hall.
    + destruct (make_rows_to_insert W self ignore_extra (Some (names r)) rest)
        as [[fl2 out2]|e] eqn:Em; cbn; [|discriminate].
      intros [= <- <-].
      destruct (IH _ _ _ Em) as (Hlen & Hkeep & Hal).
      rewrite (Hkeep _ eq_refl) in *.
      split; [cbn; by rewrite Hlen|]. split; [discriminate|].
      intros _. exists (names r). split; [done|]. split; [|done].
      constructor; [done|].
      destruct rest as [|row' rest'].
      * cbn in Em. assert (out2 = []) as -> by congruence. constructor.
      * destruct Hal as (fl3 & [= <-] & Hall & _); [done|]. exact Hall.
Qed.

Lemma make_rows_to_insert_rejects (self : table) (ignore_extra : bool)
    (rows : list pyval) (row : pyval) (field_list : option (list string)) :
  row ∈ rows →
  (∀ fl, ∃ e, _make_row_to_insert W self row ignore_extra fl = Raise e) →
  ∃ e, make_rows_to_insert W self ignore_extra field_list rows = Raise e.
Proof.
  intros Hin Hbad. revert field_list.
  induction rows as [|row' rest IH]; intros field_list;
    [by apply elem_of_nil in Hin|].
  cbn. apply elem_of_cons in Hin as [<-|Hin].
  - destruct (Hbad field_list) as [e ->]. by exists e.
  - destruct (_make_row_to_insert W self row' ignore_extra field_list)
      as [r|e]; cbn; [|by exists e].
    destruct field_list as [fl|]; cbn.
    + destruct (reorder fl r) as [r'|e]; cbn; [|by exists e].
      destruct (IH Hin (Some fl)) as [e ->]. by exists e.
    + destruct (IH Hin (Some (names r))) as [e ->]. by exists e.
Qed.

Lemma ill_sized_rejected (self : table) (row : pyval) (ignore_extra : bool)
    (field_list : option (list string)) :
  ill_sized self row →
  ∃ e, _make_row_to_insert W self row ignore_extra field_list = Raise e.
Proof.
  intros [Hnd Hlen]. unfold _make_row_to_insert.
  destruct row as [|z|s|l|l|l|d]; cbn; eauto.
  - rewrite bool_decide_eq_true_2 by (by apply Hlen). cbn. eauto.
  - rewrite bool_decide_eq_true_2 by (by apply Hlen). cbn. eauto.
  - rewrite bool_decide_eq_true_2 by (by apply Hlen). cbn. eauto.
  - rewrite bool_decide_eq_true_2 by (by apply Hlen). cbn. eauto.
  - by destruct (Hnd d).
Qed.

Lemma rmap_placeholders_cells {A} (self : table) (key : A → string)
    (val : A → pyval) (ignore_extra : bool) (l : list A)
    (attrs : list (option (string * string * option pyval))) :
  (∀ x, x ∈ l → key x ∈ heading_names W self) →
  rmap (λ x, _make_placeholder W self (key x) (val x) ignore_extra) l
  = Ok attrs →
  Forall2 (λ x a, a.1.1 = key x ∧
                  codec W (full_table_name self) (key x) (val x)
                  = Ok (a.1.2, a.2))
          l (omap id attrs).
Proof.
  revert attrs. induction l as [|x l IH]; intros attrs Hin; cbn.
  - intros [= <-]. constructor.
  - unfold _make_placeholder at 1.
    rewrite (bool_decide_eq_false_2 (key x ∉ heading_names W self))
      by (intros Hn; apply Hn, Hin; left).
    rewrite andb_false_r.
    destruct (codec W (full_table_name self) (key x) (val x)) as [pv|e]
      eqn:Ec; cbn; [|discriminate].
    destruct (rmap _ l) as [rest|e] eqn:E; cbn; [|discriminate].
    intros [= <-]. cbn. constructor.
    + cbn. split; [done|]. by destruct pv.
    + apply IH; [|done]. intros y Hy. apply Hin. by right.
Qed.

Lemma cells_encoded {A} (self : table) (row : pyval) (key : A → string)
    (val : A → pyval) (l : list A)
    (attrs : list (string * string * option pyval)) :
  (∀ x, x ∈ l → (key x, val x) ∈ row_cells self row) →
  Forall2 (λ x a, a.1.1 = key x ∧
                  codec W (full_table_name self) (key x) (val x)
                  = Ok (a.1.2, a.2)) l attrs →
  encodes self row (RowToInsert (attrs.*1.*1) (attrs.*1.*2) (attrs.*2)).
Proof.
  intros Hcells Hf j f ph v. cbn.
  rewrite !list_lookup_fmap.
  destruct (attrs !! j) as [[[n p] w]|] eqn:Ea; cbn; [|discriminate].
  intros [= <-] [= <-] [= <-].
  destruct (Forall2_lookup_r _ _ _ _ _ Hf Ea) as (x & Hx & Hn & Hc).
  cbn in Hn, Hc. subst n. exists (val x). split; [|done].
  apply Hcells. by eapply list_elem_of_lookup_2.
Qed.

(** The row built from a given row encodes that row. *)
Lemma made_row_encodes (self : table) (row : pyval) (ignore_extra : bool)
    (field_list : option (list string)) (r : row_to_insert) :
  _make_row_to_insert W self row ignore_extra field_list = Ok r →
  encodes self row r.
Proof.
  unfold _make_row_to_insert.
  assert (Hpos : ∀ items,
    py_iter row = Ok items → (∀ d, row ≠ PDict d) →
    rbind
      (if bool_decide (length items ≠ length (heading_names W self))
       then Raise (DataJointError
              "Invalid insert argument. Incorrect number of attributes")
       else rmap (λ nv, _make_placeholder W self nv.1 nv.2 ignore_extra)
                 (zip (heading_names W self) items))
      (λ attributes,
         let attributes := omap id attributes in
         if bool_decide (attributes = [])
         then Raise (AssertionError "Empty tuple")
         else Ok (RowToInsert (attributes.*1.*1) (attributes.*1.*2)
                    (attributes.*2))) = Ok r →
    encodes self row r).
  { intros items Hit Hnd. case_bool_decide; cbn; [discriminate|].
    destruct (rmap _ _) as [attrs|e] eqn:E; cbn; [|discriminate].
    case_bool_decide; [discriminate|]. intros [= <-].
    apply (rmap_placeholders_cells self fst snd) in E.
    2:{ intros [n x] Hx. by apply elem_of_zip_l in Hx. }
    apply (cells_encoded self row fst snd _ _) with (2 := E).
    intros [n x] Hx. cbn.
    unfold row_cells. rewrite Hit. by destruct row; try done;
      exfalso; eapply Hnd. }
  destruct row as [|z|s|l|l|l|d]; cbn; try discriminate.
  - by apply (Hpos (chars s)).
  - by apply (Hpos l).
  - by apply (Hpos l).
  - by apply (Hpos l).
  - destruct (_check_fields W self (d.*1) field_list ignore_extra); cbn;
      [|discriminate].
    destruct (rmap _ _) as [attrs|e] eqn:E; cbn; [|discriminate].
    case_bool_decide; [discriminate|]. intros [= <-].
    apply (rmap_placeholders_cells self id
             (λ n, default PNone (dict_get n d))) in E.
    2:{ intros n Hn. apply list_elem_of_filter in Hn. tauto. }
    apply (cells_encoded self (PDict d) id
             (λ n, default PNone (dict_get n d)) _ _) with (2 := E).
    intros n Hn. cbn. apply list_elem_of_fmap. by exists n.
Qed.

Lemma omap_lookup_at {A} (l : list A) (order : list nat) (j : nat) :
  Forall (λ i, i < length l) order →
  omap (λ i, l !! i) order !! j = order !! j ≫= (λ i, l !! i).
Proof.
  intros Hb. revert j. induction Hb as [|i order Hi _ IH]; intros j.
  - done.
  - destruct (lookup_lt_is_Some_2 l i Hi) as [x Hx].
    change (omap (λ i, l !! i) (i :: order))
      with (match l !! i with
            | Some y => y :: omap (λ i, l !! i) order
            | None => omap (λ i, l !! i) order
            end).
    rewrite Hx. destruct j as [|j]; cbn; [by rewrite Hx|apply IH].
Qed.

Lemma reorder_encodes (self : table) (row : pyval) (fl : list string)
    (r r' : row_to_insert) :
  aligned (names r) r → encodes self row r → reorder fl r = Ok r' →
  encodes self row r'.
Proof.
  intros (_ & Hp & Hv) Henc. unfold reorder.
  destruct (rmap _ fl) as [order|e] eqn:E; cbn; [|discriminate].
  intros [= <-]. apply rmap_Forall2 in E.
  assert (Hb : Forall (λ i, i < length (names r)) order).
  { clear -E. induction E as [|f i fl order Hi _ IH]; constructor; auto.
    eapply lookup_lt_Some, index_of_lookup, Hi. }
  intros j f ph v. cbn.
  rewrite !omap_lookup_at by (by rewrite ?Hp, ?Hv).
  destruct (order !! j) as [i|]; cbn; [|discriminate].
  apply Henc.
Qed.

Lemma make_rows_to_insert_encodes (self : table) (ignore_extra : bool)
    (rows : list pyval) (field_list fl' : option (list string))
    (out : list row_to_insert) :
  make_rows_to_insert W self ignore_extra field_list rows = Ok (fl', out) →
  Forall2 (encodes self) rows out.
Proof.
  revert field_list fl' out.
  induction rows as [|row rest IH]; intros field_list fl' out; cbn.
  - intros [= <- <-]. constructor.
  - destruct (_make_row_to_insert W self row ignore_extra field_list)
      as [r|e] eqn:Er; cbn; [|discriminate].
    pose proof (made_row_encodes _ _ _ _ _ Er) as Henc.
    apply row_to_insert_names in Er as (_ & _ & Hp & Hv).
    assert (Hr : aligned (names r) r) by done.
    destruct field_list as [fl|]; cbn.
    + destruct (reorder fl r) as [r'|e] eqn:Eo; cbn; [|discriminate].
      destruct (make_rows_to_insert W self ignore_extra (Some fl) rest)
        as [[fl2 out2]|e] eqn:Em; cbn; [|discriminate].
      intros [= <- <-]. constructor; [|by eapply IH].
      by eapply reorder_encodes.
    + destruct (make_rows_to_insert W self ignore_extra (Some (names r)) rest)
        as [[fl2 out2]|e] eqn:Em; cbn; [|discriminate].
      intros [= <- <-]. constructor; [done|by eapply IH].
Qed.

(** X7.  When the heading of the table can be read, [insert] of a
    non-empty collection of rows either raises before anything is sent,
    leaving the connection as it was, or sends exactly one INSERT
    statement.  Its field list is a non-empty list of heading attributes.
    It carries one row per given row, in the order given; every row has
    been brought to the field list, and under each field it carries the
    placeholder and the value that the codec makes of what the given row
    holds for that field. *)
Theorem insert_rows_one_statement
    (self : table) (rs : list pyval) (o : insert_opts)
    (c c' : conn db) (r : result ()) :
  is_Some (heading W (full_table_name self)) →
  rs ≠ [] →
  insert B W self (FromRows rs) o c = (r, c') →
  (∃ e, r = Raise e ∧ c' = c) ∨
  ∃ fl rows,
    trace c' = trace c ++
      [EvQuery (SqlInsert (full_table_name self) (replace o)
                  (skip_duplicates o) fl rows)] ∧
    length rows = length rs ∧
    fl ≠ [] ∧ fl ⊆ heading_names W self ∧
    Forall (aligned fl) rows ∧
    Forall2 (encodes self) rs rows.
Proof.
  intros [h Hh] Hrs. unfold insert.
  destruct (negb (allow_direct_insert o) && negb (_allow_insert self)).
  { intros [= <- <-]. left. eauto. }
  rewrite Hh. unfold bind, lift.
  destruct (make_rows_to_insert W self (ignore_extra_fields o) None rs)
    as [[fl' out]|e] eqn:Em.
  2:{ intros [= <- <-]. left. eauto. }
  pose proof (make_rows_to_insert_encodes _ _ _ _ _ _ Em) as Henc.
  apply make_rows_to_insert_aligned in Em as (Hlen & _ & Hal).
  destruct (Hal Hrs) as (fl & -> & Hall & Hfl).
  destruct (Hfl eq_refl) as [Hne Hsub].
  cbn [fst snd]. destruct out as [|r0 out].
  { destruct rs; [done|discriminate]. }
  cbn [default]. unfold query.
  intros H. right. exists fl, (r0 :: out).
  split; [|done].
  destruct (run_sql B _ _) as [[n d]|e]; injection H as <- <-; cbn; [|done].
  unfold write, log_event; cbn. by destruct (work c).
Qed.

(** X8.  Every row of a batch is checked before anything is sent: when
    the heading can be read and any row of the collection, wherever it
    stands, is a positional row of the wrong size, [insert] raises and
    leaves the connection as it was, so no row of the batch is stored. *)
Theorem insert_checks_whole_batch
    (self : table) (rs : list pyval) (row : pyval) (o : insert_opts)
    (c : conn db) :
  is_Some (heading W (full_table_name self)) →
  row ∈ rs →
  ill_sized self row →
  ∃ e, insert B W self (FromRows rs) o c = (Raise e, c).
Proof.
  intros [h Hh] Hin Hbad. unfold insert.
  destruct (negb (allow_direct_insert o) && negb (_allow_insert self));
    [by eexists|].
  rewrite Hh. unfold bind, lift.
  destruct (make_rows_to_insert_rejects self (ignore_extra_fields o) rs row
              None Hin) as [e ->]; [|by exists e].
  intros fl. by apply ill_sized_rejected.
Qed.

(** ** Part tables *)

Lemma part_names_spec (g : graph) (prefix : string)
    (chs : list (string * edge_props)) (pts : list string) :
  part_names g prefix chs = Ok pts →
  (∀ p, p ∈ pts →
     startswith (prefix +:+ "__") (remove_char "`"%char p) = true ∧
     ∃ ch info, (ch, info) ∈ chs ∧
       if aliased info
       then ∃ i rest, children g ch None = (p, i) :: rest
       else p = ch) ∧
  (∀ ch info, (ch, info) ∈ chs → aliased info = false →
     startswith (prefix +:+ "__") (remove_char "`"%char ch) = true →
     ch ∈ pts).
Proof.
  revert pts. induction chs as [|[ch info] rest IH]; intros pts; cbn.
  - intros [= <-]. split.
    + intros p Hp. by apply elem_of_nil in Hp.
    + intros ch info Hin. by apply elem_of_nil in Hin.
  - destruct (aliased info) eqn:Ea.
    + destruct (children g ch None) as [|[n i] more] eqn:Ec; cbn;
        [discriminate|].
      destruct (part_names g prefix rest) as [rest'|e]; cbn; [|discriminate].
      destruct (IH rest' eq_refl) as [Hs Hc].
      destruct (startswith _ _) eqn:Ep; intros [= <-]; split.
      * intros p [->|Hp]%elem_of_cons.
        -- split; [done|]. exists ch, info. split; [left|].
           rewrite Ea. eauto.
        -- destruct (Hs p Hp) as (H1 & ch' & info' & Hin & H2).
           split; [done|]. exists ch', info'. split; [by right|done].
      * intros ch' info' [[= -> ->]|Hin]%elem_of_cons Ha Hp; [congruence|].
        right. eauto.
      * intros p Hp. destruct (Hs p Hp) as (H1 & ch' & info' & Hin & H2).
        split; [done|]. exists ch', info'. split; [by right|done].
      * intros ch' info' [[= -> ->]|Hin]%elem_of_cons Ha Hp; [congruence|].
        eauto.
    + cbn.
      destruct (part_names g prefix rest) as [rest'|e]; cbn; [|discriminate].
      destruct (IH rest' eq_refl) as [Hs Hc].
      destruct (startswith _ _) eqn:Ep; intros [= <-]; split.
      * intros p [->|Hp]%elem_of_cons.
        -- split; [done|]. exists ch, info. split; [left|].
           by rewrite Ea.
        -- destruct (Hs p Hp) as (H1 & ch' & info' & Hin & H2).
           split; [done|]. exists ch', info'. split; [by right|done].
      * intros ch' info' [[= -> ->]|Hin]%elem_of_cons Ha Hp; [left|].
        right. eauto.
      * intros p Hp. destruct (Hs p Hp) as (H1 & ch' & info' & Hin & H2).
        split; [done|]. exists ch', info'. split; [by right|done].
      * intros ch' info' [[= -> ->]|Hin]%elem_of_cons Ha Hp; [congruence|].
        eauto.
Qed.

(** X9.  On a handle whose part tables have not been computed yet,
    [part_tables] reloads the dependencies and touches nothing else;
    every table it returns is reached from the master by one edge (or
    through an aliased edge) and has a name that extends the master's
    name by a double underscore, and every direct, non-aliased child
    with such a name is returned. *)
Theorem part_tables_of_master
    (self self' : table) (pts : list string) (c c' : conn db) :
  _part_tables self = None →
  part_tables W self c = (Ok (pts, self'), c') →
  c' = Conn (store c) (work c) (catalog W) (trace c ++ [EvLoad]) ∧
  (∀ p, p ∈ pts → part_of (catalog W) (full_table_name self) p) ∧
  (∀ ch info,
     (ch, info) ∈ children (catalog W) (full_table_name self) None →
     aliased info = false →
     startswith (remove_char "`"%char (full_table_name self) +:+ "__")
                (remove_char "`"%char ch) = true →
     ch ∈ pts).
Proof.
  intros Hnone. unfold part_tables. rewrite Hnone.
  unfold bind, load, get_conn, lift, ret, log_event. cbn.
  destruct (part_names _ _ _) as [l|e] eqn:E; [|discriminate].
  intros [= <- <- <-]. split; [done|].
  apply part_names_spec in E as [Hs Hc]. split; [|exact Hc].
  intros p Hp. destruct (Hs p Hp) as [H1 H2]. by split.
Qed.

(** X10.  The part tables are computed once per handle: the handle that
    [part_tables] returns answers every later call with the same list
    and leaves the connection untouched, without looking at the
    dependencies again. *)
Theorem part_tables_cached
    (self self' : table) (pts : list string) (c c' c2 : conn db) :
  part_tables W self c = (Ok (pts, self'), c') →
  part_tables W self' c2 = (Ok (pts, self'), c2).
Proof.
  unfold part_tables at 1.
  destruct (_part_tables self) as [cached|] eqn:Ec.
  - intros [= <- <- <-]. unfold part_tables. by rewrite Ec.
  - unfold bind, load, get_conn, lift, ret. cbn.
    destruct (part_names _ _ _) as [l|e]; [|discriminate].
    intros [= <- <- <-]. done.
Qed.

(** ** More on updates *)

Lemma check_reads_only (error : string) (fuel : nat) :
  ∀ (self : table) (reload : bool) (c c' : conn db) (r : result bool),
    _check_downstream_autopopulated B W fuel self reload error c = (r, c') →
    store c' = store c ∧ work c' = work c ∧
    ∃ evs, trace c' = trace c ++ evs ∧ check_events error evs.
Proof.
  induction fuel as [|fuel IH]; intros self reload c c' r.
  { cbn. intros [= <- <-]. repeat split; auto.
    exists []. rewrite app_nil_r. split; [done|constructor]. }
  rewrite check_unfold. cbn zeta.
  set (c1 := if reload || bool_decide (nodes (dependencies c) = [])
             then log_event EvLoad
                    (Conn (store c) (work c) (catalog W) (trace c))
             else c).
  assert (H1 : store c1 = store c ∧ work c1 = work c ∧
               ∃ evs, trace c1 = trace c ++ evs ∧ check_events error evs).
  { subst c1. destruct (reload || _); cbn.
    - repeat split; auto. exists [EvLoad]. split; [done|].
      constructor; [by left|constructor].
    - repeat split; auto. exists []. rewrite app_nil_r.
      split; [done|constructor]. }
  generalize (children (dependencies c1) (full_table_name self) None).
  revert H1. generalize c1. clear c1.
  intros c1 H1 chs. revert c1 H1.
  induction chs as [|entry rest IHc]; intros c1 (Hs & Hw & evs & Ht & Hev).
  { cbn. intros [= <- <-]. eauto. }
  rewrite check_children_cons.
  destruct (resolve_alias (dependencies c1) entry) as [child|e].
  2:{ intros [= <- <-]. eauto. }
  destruct (_check_downstream_autopopulated B W fuel
              (restricted_child W self child) false error c1)
    as [[b|e] c2] eqn:E2;
    apply IH in E2 as (Hs2 & Hw2 & evs2 & Ht2 & Hev2).
  2:{ intros [= <- <-]. rewrite Hs2, Hw2, Ht2, Ht, <- app_assoc.
      repeat split; auto. eexists. split; [done|]. by apply Forall_app. }
  assert (H2 : store c2 = store c ∧ work c2 = work c ∧
               ∃ evs, trace c2 = trace c ++ evs ∧ check_events error evs).
  { rewrite Hs2, Hw2, Ht2, Ht, <- app_assoc. repeat split; auto.
    eexists. split; [done|]. by apply Forall_app. }
  destruct (is_autopopulated child.1 && _); [|by apply IHc].
  destruct (bool_decide (error = "ignore")); [by intros [= <- <-]|].
  destruct (bool_decide (error = "warn")) eqn:Hwa;
    [|by intros [= <- <-]].
  intros [= <- <-]. destruct H2 as (H2s & H2w & evs3 & H2t & H2e).
  unfold log_event; cbn. repeat split; auto.
  exists (evs3 ++ [EvWarn save_update_failure]).
  rewrite H2t, <- app_assoc. split; [done|].
  apply Forall_app. split; [done|].
  constructor; [|constructor]. right.
  by apply bool_decide_eq_true in Hwa.
Qed.

Lemma check_events_statements (error : string) (evs : list event) :
  check_events error evs → statements evs = [].
Proof.
  induction 1 as [|ev evs Hev _ IH]; [done|].
  destruct Hev as [->|[_ ->]]; exact IH.
Qed.

(** X11.  The downstream check only reads: whatever the graph, the
    policy and the depth allowed to the recursion, and whether it
    answers or raises, it leaves the contents and the open transaction
    as they were, sends no statement to the server, and adds nothing to
    the trace but reloads of the dependencies and, under the policy
    [warn], the warning. *)
Theorem _check_downstream_autopopulated_reads_only
    (fuel : nat) (self : table) (reload : bool) (error : string)
    (c c' : conn db) (r : result bool) :
  _check_downstream_autopopulated B W fuel self reload error c = (r, c') →
  store c' = store c ∧ work c' = work c ∧
  ∃ evs, trace c' = trace c ++ evs ∧ statements evs = [] ∧
         Forall (λ ev, ev = EvLoad ∨
                       (error = "warn" ∧ ev = EvWarn save_update_failure))
                evs.
Proof.
  intros H. apply check_reads_only in H as (Hs & Hw & evs & Ht & Hev).
  repeat split; auto. exists evs. split; [done|].
  split; [by eapply check_events_statements|exact Hev].
Qed.

(** X12.  [save_update] sends at most one statement.  Either nothing is
    sent and the contents are unchanged, or the single statement is the
    UPDATE of the one attribute on the target's own restriction, and it
    is sent only when the target holds exactly one row, the attribute is
    in the heading and it is not part of the primary key. *)
Theorem save_update_guarded
    (fuel : nat) (self : table) (attrname : string) (value : pyval)
    (reload : bool) (error : string) (c c' : conn db) (r : result ()) :
  save_update B W fuel self attrname value reload error c = (r, c') →
  ∃ evs, trace c' = trace c ++ evs ∧
    ((statements evs = [] ∧ store c' = store c ∧ work c' = work c) ∨
     (∃ ph args,
        statements evs = [SqlUpdate (as_query self) [(attrname, ph)] args] ∧
        count_rows B (visible c) (as_query self) = 1 ∧
        attrname ∈ heading_names W self ∧
        attrname ∉ pk_names W self)).
Proof.
  unfold save_update. unfold bind at 1.
  destruct (_check_downstream_autopopulated B W fuel self reload error c)
    as [[truth|e] c1] eqn:E;
    apply check_reads_only in E as (Hs & Hw & evs & Ht & Hev);
    pose proof (check_events_statements _ _ Hev) as Hst.
  2:{ intros [= <- <-]. exists evs. split; [done|]. left. done. }
  destruct truth.
  2:{ intros [= <- <-]. exists evs. split; [done|]. left. done. }
  assert (Hvis : visible c1 = visible c).
  { unfold visible. by rewrite Hs, Hw. }
  unfold _update. unfold bind at 1, len at 1. rewrite Hvis.
  case_bool_decide as Hone.
  { intros [= <- <-]. exists evs. split; [done|]. left. done. }
  case_bool_decide as Hin.
  { intros [= <- <-]. exists evs. split; [done|]. left. done. }
  case_bool_decide as Hpk.
  { intros [= <- <-]. exists evs. split; [done|]. left. done. }
  unfold bind at 1, lift at 1.
  destruct (_make_placeholder W self attrname value false)
    as [[[[a ph] v]|]|e] eqn:Ep.
  2,3: intros [= <- <-]; exists evs; split; [done|]; left; done.
  assert (a = attrname) as ->.
  { unfold _make_placeholder in Ep. cbn in Ep.
    destruct (bool_decide (attrname ∉ heading_names W self));
      [discriminate|].
    destruct (codec W _ _ _) as [[p v']|e]; cbn in Ep; congruence. }
  unfold bind, query, ret. intros H.
  exists (evs ++ [EvQuery (SqlUpdate (as_query self) [(attrname, ph)]
                    (match v with Some x => [x] | None => [] end))]).
  assert (Ht' : trace c' = trace c ++ evs ++
            [EvQuery (SqlUpdate (as_query self) [(attrname, ph)]
                        (match v with Some x => [x] | None => [] end))]).
  { destruct (run_sql B _ _) as [[n d]|e]; injection H as <- <-;
      unfold write, log_event; cbn; [destruct (work c1); cbn|];
      by rewrite Ht, <- app_assoc. }
  split; [exact Ht'|]. right. eexists _, _.
  rewrite statements_app, Hst. cbn. done.
Qed.

Lemma filter_nil_not {A} (P : A → Prop) `{∀ x, Decision (P x)} (l : list A) :
  filter P l = [] → ∀ x, x ∈ l → ¬ P x.
Proof.
  intros Hf x Hx HP.
  assert (Hin : x ∈ filter P l) by (apply list_elem_of_filter; done).
  rewrite Hf in Hin. by apply elem_of_nil in Hin.
Qed.

Lemma PStr_member (k : string) (l : list string) :
  PStr k ∈ PStr <$> l ↔ k ∈ l.
Proof.
  rewrite list_elem_of_fmap. split.
  - intros (k' & [= ->] & Hk). done.
  - intros Hk. eauto.
Qed.

(** X13.  [save_updates] with a mapping sends at most one statement.
    Either nothing is sent and the contents are unchanged, or the single
    statement is one UPDATE on the target's own restriction that assigns
    the attributes the mapping names, in the order of the heading; it is
    sent only when the target holds exactly one row and every name of
    the mapping is an attribute of the heading outside the primary
    key. *)
Theorem save_updates_guarded
    (fuel : nat) (self : table) (d : pydict)
    (reload : bool) (error : string) (c c' : conn db) (r : result ()) :
  save_updates B W fuel self (PDict d) reload error c = (r, c') →
  ∃ evs, trace c' = trace c ++ evs ∧
    ((statements evs = [] ∧ store c' = store c ∧ work c' = work c) ∨
     (∃ row,
        statements evs =
          [SqlUpdate (as_query self) (zip (names row) (placeholders row))
             (omap id (values row))] ∧
        count_rows B (visible c) (as_query self) = 1 ∧
        names row = filter (λ n, n ∈ d.*1) (heading_names W self) ∧
        names row ≠ [] ∧
        length (placeholders row) = length (names row) ∧
        ∀ k, k ∈ d.*1 →
             k ∈ heading_names W self ∧ k ∉ pk_names W self)).
Proof.
  unfold save_updates. unfold bind at 1, len at 1.
  assert (Hnil :
    ∃ evs, trace c = trace c ++ evs ∧
      ((statements evs = [] ∧ store c = store c ∧ work c = work c) ∨
       (∃ row,
          statements evs =
            [SqlUpdate (as_query self) (zip (names row) (placeholders row))
               (omap id (values row))] ∧
          count_rows B (visible c) (as_query self) = 1 ∧
          names row = filter (λ n, n ∈ d.*1) (heading_names W self) ∧
          names row ≠ [] ∧
          length (placeholders row) = length (names row) ∧
          ∀ k, k ∈ d.*1 →
               k ∈ heading_names W self ∧ k ∉ pk_names W self))).
  { exists []. rewrite app_nil_r. split; [done|]. by left. }
  case_bool_decide as Hone.
  { intros [= <- <-]. apply Hnil. }
  unfold bind at 1, lift at 1.
  destruct (update_names (PDict d)) as [given|e] eqn:Eg.
  2:{ intros [= <- <-]. apply Hnil. }
  assert (given = PStr <$> d.*1) as ->.
  { unfold update_names in Eg. cbn in Eg.
    destruct (forallb hashable _); cbn in Eg; congruence. }
  destruct (filter (λ k, k ∈ PStr <$> pk_names W self) (PStr <$> d.*1))
    eqn:Hpk.
  2:{ intros [= <- <-]. apply Hnil. }
  destruct (filter (λ k, k ∉ PStr <$> heading_names W self) (PStr <$> d.*1))
    eqn:Hhd.
  2:{ intros [= <- <-]. apply Hnil. }
  assert (Hkeys : ∀ k, k ∈ d.*1 →
            k ∈ heading_names W self ∧ k ∉ pk_names W self).
  { intros k Hk. split.
    - apply PStr_member. apply dec_stable.
      eapply (filter_nil_not _ _ Hhd). by apply PStr_member.
    - rewrite <- PStr_member.
      eapply (filter_nil_not _ _ Hpk). by apply PStr_member. }
  clear Hnil Hpk Hhd Eg.
  unfold bind at 1.
  destruct (_check_downstream_autopopulated B W fuel self reload error c)
    as [[truth|e] c1] eqn:E;
    apply check_reads_only in E as (Hs & Hw & evs & Ht & Hev);
    pose proof (check_events_statements _ _ Hev) as Hst.
  2:{ intros [= <- <-]. exists evs. split; [done|]. by left. }
  destruct truth; cbn [negb].
  2:{ intros [= <- <-]. exists evs. split; [done|]. by left. }
  unfold bind at 1, lift at 1.
  destruct (_make_row_to_insert W self (PDict d) false None)
    as [row|e] eqn:Er.
  2:{ intros [= <- <-]. exists evs. split; [done|]. by left. }
  apply row_to_insert_names in Er as (Hne & Hnames & Hp & _).
  rewrite bool_decide_eq_false_2 by done.
  unfold bind, query, ret. intros H.
  exists (evs ++ [EvQuery (SqlUpdate (as_query self)
                    (zip (names row) (placeholders row))
                    (omap id (values row)))]).
  split.
  { destruct (run_sql B _ _) as [[n x]|e]; injection H as <- <-;
      unfold write, log_event; cbn; [destruct (work c1); cbn|];
      by rewrite Ht, <- app_assoc. }
  right. exists row. rewrite statements_app, Hst. cbn.
  repeat split; auto; by apply Hkeys.
Qed.

(** X14.  [save_updates] never returns silently on its own account:
    when it returns without an error, either the UPDATE statement was
    the last thing it sent, or the downstream check answered false.  The
    early return on an empty [row_to_insert] is dead code: a row that
    [_make_row_to_insert] returns always names an attribute. *)
Theorem save_updates_returns
    (fuel : nat) (self : table) (updates : pyval)
    (reload : bool) (error : string) (c c' : conn db) :
  save_updates B W fuel self updates reload error c = (Ok (), c') →
  (∃ evs row,
     trace c' = trace c ++ evs ++
       [EvQuery (SqlUpdate (as_query self)
                   (zip (names row) (placeholders row))
                   (omap id (values row)))] ∧
     _make_row_to_insert W self updates false None = Ok row) ∨
  _check_downstream_autopopulated B W fuel self reload error c
  = (Ok false, c').
Proof.
  unfold save_updates. unfold bind at 1, len at 1.
  case_bool_decide as Hone; [discriminate|].
  unfold bind at 1, lift at 1.
  destruct (update_names updates) as [given|e]; [|discriminate].
  destruct (filter _ given); [|discriminate].
  destruct (filter _ given); [|discriminate].
  unfold bind at 1.
  destruct (_check_downstream_autopopulated B W fuel self reload error c)
    as [[truth|e] c1] eqn:E; [|discriminate].
  destruct truth; cbn [negb].
  2:{ intros [= <-]. by right. }
  apply check_reads_only in E as (Hs & Hw & evs & Ht & Hev).
  unfold bind at 1, lift at 1.
  destruct (_make_row_to_insert W self updates false None)
    as [row|e] eqn:Er; [|discriminate].
  destruct (row_to_insert_names _ _ _ _ _ Er) as (Hne & _).
  rewrite bool_decide_eq_false_2 by done.
  unfold bind, query, ret. intros H. left. exists evs, row.
  split; [|done].
  destruct (run_sql B _ _) as [[n x]|e]; [|discriminate].
  injection H as <-. unfold write, log_event; cbn.
  destruct (work c1); cbn; by rewrite Ht, <- app_assoc.
Qed.

(** ** Completing the output of [make] *)

Lemma backfill_dict (entry : pydict) (cols : list string) (d : pydict) :
  Forall (λ kv, is_array kv.2 = false) entry →
  (∀ n, n ∈ cols → n ∈ entry.*1) →
  ∃ d2, backfill entry cols (ObjVal (PDict d)) = Ok (ObjVal (PDict d2)) ∧
    ∀ k, dict_get k d2 =
         match (if bool_decide (k ∈ cols) then dict_get k entry else None) with
         | Some PNone | None => dict_get k d
         | Some v => Some v
         end.
Proof.
  intros Hscalar. revert d.
  induction cols as [|column rest IH]; intros d Hin.
  - exists d. split; [done|]. intros k.
    rewrite bool_decide_eq_false_2; [done|]. apply not_elem_of_nil.
  - cbn [backfill].
    destruct (dict_get column entry) as [v|] eqn:Ev.
    2:{ exfalso. assert (Hc : column ∈ entry.*1) by (apply Hin; left).
        clear -Ev Hc. induction entry as [|[k0 v0] entry IH];
          [by apply elem_of_nil in Hc|].
        cbn in *. destruct (decide (k0 = column)); [discriminate|].
        apply elem_of_cons in Hc as [->|Hc]; [done|]. by apply IH. }
    assert (Hrest : ∀ n, n ∈ rest → n ∈ entry.*1)
      by (intros n Hn; apply Hin; by right).
    assert (Hnull : v = PNone →
      ∃ d2, backfill entry rest (ObjVal (PDict d)) = Ok (ObjVal (PDict d2)) ∧
        ∀ k, dict_get k d2 =
             match (if bool_decide (k ∈ column :: rest)
                    then dict_get k entry else None) with
             | Some PNone | None => dict_get k d
             | Some v => Some v
             end).
    { intros ->. destruct (IH d Hrest) as (d2 & E & Hget).
      exists d2. split; [done|]. intros k. rewrite Hget.
      destruct (decide (k = column)) as [->|Hne].
      - rewrite (bool_decide_eq_true_2 (column ∈ column :: rest)) by left.
        rewrite Ev. by destruct (bool_decide (column ∈ rest)).
      - destruct (bool_decide (k ∈ rest)) eqn:Hk.
        + apply bool_decide_eq_true in Hk.
          by rewrite (bool_decide_eq_true_2 (k ∈ column :: rest)) by (by right).
        + apply bool_decide_eq_false in Hk.
          rewrite (bool_decide_eq_false_2 (k ∈ column :: rest)); [done|].
          by intros [?|?]%elem_of_cons. }
    assert (Hset : v ≠ PNone →
      ∃ d2, rbind (set_column column v (ObjVal (PDict d)))
              (backfill entry rest) = Ok (ObjVal (PDict d2)) ∧
        ∀ k, dict_get k d2 =
             match (if bool_decide (k ∈ column :: rest)
                    then dict_get k entry else None) with
             | Some PNone | None => dict_get k d
             | Some v => Some v
             end).
    { intros Hv. cbn.
      destruct (IH (dict_set column v d) Hrest) as (d2 & E & Hget).
      exists d2. split; [done|]. intros k. rewrite Hget, dict_get_set.
      destruct (decide (column = k)) as [<-|Hne].
      - rewrite (bool_decide_eq_true_2 (column ∈ column :: rest)) by left.
        rewrite Ev. destruct (bool_decide (column ∈ rest));
          destruct v; done.
      - destruct (bool_decide (k ∈ rest)) eqn:Hk.
        + apply bool_decide_eq_true in Hk.
          by rewrite (bool_decide_eq_true_2 (k ∈ column :: rest)) by (by right).
        + apply bool_decide_eq_false in Hk.
          rewrite (bool_decide_eq_false_2 (k ∈ column :: rest)); [done|].
          intros [?|?]%elem_of_cons; congruence. }
    assert (Hv : is_array v = false).
    { clear -Ev Hscalar. induction Hscalar as [|[k0 v0] entry Hk _ IHe];
        [discriminate|].
      cbn in Ev. destruct (decide (k0 = column)); [|by apply IHe].
      by injection Ev as <-. }
    destruct v; try discriminate; cbn [is_null rbind];
      try (apply Hset; discriminate).
    by apply Hnull.
Qed.

Lemma dict_get_is_Some (k : string) (d : pydict) :
  k ∈ d.*1 ↔ is_Some (dict_get k d).
Proof.
  induction d as [|[k0 v0] d IH]; cbn.
  - split; [by intros ?%elem_of_nil|by intros [? ?]].
  - destruct (decide (k0 = k)) as [->|Hne].
    + split; [eauto|left].
    + rewrite <- IH. rewrite elem_of_cons. split; [|by right].
      by intros [?|?]; [congruence|].
Qed.

(** X15.  What [make] stores for a dictionary output when the fetched
    entry holds no array, as with a fetch of one row.  The output handed
    to the insert reads, under the key [settings_name], the name of the
    settings in use, whatever the computation returned there; every other
    key the computation returned keeps its value; a heading attribute the
    computation did not return is taken from the fetched entry when the
    entry has a value for it that is not null; no other key is added. *)
Theorem store_output_backfill
    (self : table) (st : settings) (entry d : pydict) (hpt : bool) :
  Forall (λ kv, is_array kv.2 = false) entry →
  ∃ d2,
    (∀ c, store_output B W self st entry (ObjVal (PDict d)) hpt c
          = if hpt
            then insert1p B W self (RowsDict d2) default_opts c
            else insert1 B W self (PDict d2) default_opts c) ∧
    ∀ k, dict_get k d2 =
         if decide (k = "settings_name") then Some (settings_name st)
         else match dict_get k d with
              | Some v => Some v
              | None =>
                  if bool_decide (k ∈ heading_names W self)
                  then match dict_get k entry with
                       | Some PNone | None => None
                       | Some v => Some v
                       end
                  else None
              end.
Proof.
  intros Hscalar. unfold store_output. cbn [set_column].
  set (d1 := dict_set "settings_name" (settings_name st) d).
  set (missing := filter (λ n, n ∈ entry.*1 ∧
                               n ∉ output_names (ObjVal (PDict d1)))
                    (heading_names W self)).
  destruct (backfill_dict entry missing d1) as (d2 & E & Hget); [done|..].
  { intros n Hn. apply list_elem_of_filter in Hn. tauto. }
  exists d2. split.
  - intros c. unfold bind at 1, lift at 1. unfold bind at 1, lift at 1.
    fold d1. fold missing. rewrite E. by destruct hpt.
  - intros k. rewrite Hget. subst d1. rewrite dict_get_set.
    destruct (decide (k = "settings_name")) as [->|Hne].
    + rewrite decide_True by done.
      rewrite bool_decide_eq_false_2; [done|].
      subst missing. intros Hin. apply list_elem_of_filter in Hin as [[_ Hn] _].
      apply Hn. cbn. apply dict_get_is_Some. rewrite dict_get_set.
      rewrite decide_True by done. eauto.
    + rewrite decide_False by congruence.
      destruct (dict_get k d) as [v|] eqn:Ed.
      * rewrite bool_decide_eq_false_2; [done|].
        subst missing. intros Hin.
        apply list_elem_of_filter in Hin as [[_ Hn] _].
        apply Hn. cbn. apply dict_get_is_Some. rewrite dict_get_set.
        rewrite decide_False by congruence. rewrite Ed. eauto.
      * destruct (bool_decide (k ∈ heading_names W self)) eqn:Hh.
        -- apply bool_decide_eq_true in Hh.
           destruct (dict_get k entry) as [v|] eqn:Ee.
           ++ rewrite bool_decide_eq_true_2; [done|].
              subst missing. apply list_elem_of_filter. split; [|done].
              split; [apply dict_get_is_Some; rewrite Ee; eauto|].
              cbn. rewrite dict_get_is_Some, dict_get_set.
              rewrite decide_False by congruence. rewrite Ed.
              by intros [? ?].
           ++ by destruct (bool_decide (k ∈ missing)).
        -- apply bool_decide_eq_false in Hh.
           rewrite bool_decide_eq_false_2; [done|].
           subst missing. intros Hin.
           apply list_elem_of_filter in Hin as [_ Hin]. done.
Qed.

(** X16.  [insert] from a query expression either raises with the
    connection untouched or sends exactly one INSERT ... SELECT on the
    given expression.  The attributes it names are attributes of the
    target's heading, taken in the order of the source's heading; unless
    [ignore_extra_fields] is set they are all the attributes of the
    source, an attribute unknown to the target being refused before
    anything is sent. *)
Theorem insert_from_query_fields
    (self : table) (src : string) (restr : cond) (o : insert_opts)
    (c c' : conn db) (r : result ()) :
  insert B W self (FromQuery (QTable src restr)) o c = (r, c') →
  (∃ e, r = Raise e ∧ c' = c) ∨
  ∃ fields,
    trace c' = trace c ++
      [EvQuery (SqlInsertSelect (full_table_name self) (replace o)
                  (skip_duplicates o) fields (QTable src restr))] ∧
    fields = filter (λ n, n ∈ heading_names W self)
               (default [] (heading W src)) ∧
    (ignore_extra_fields o = false → fields = default [] (heading W src)).
Proof.
  unfold insert.
  destruct (negb (allow_direct_insert o) && negb (_allow_insert self)).
  { intros [= <- <-]. left. eauto. }
  set (src_heading := default [] (heading W src)).
  assert (Hall : filter (λ n, n ∉ heading_names W self) src_heading = [] →
                 filter (λ n, n ∈ heading_names W self) src_heading
                 = src_heading).
  { generalize src_heading. intros l Hl.
    induction l as [|x l IH]; [done|].
    rewrite filter_cons in Hl. rewrite filter_cons.
    destruct (decide (x ∉ heading_names W self)) as [Hx|Hx]; [discriminate|].
    apply dec_stable in Hx. rewrite decide_True by done.
    by rewrite IH. }
  assert (Hsend : ∀ c0 : conn db,
    bind (query B (SqlInsertSelect (full_table_name self) (replace o)
                     (skip_duplicates o)
                     (filter (λ n, n ∈ heading_names W self) src_heading)
                     (QTable src restr))) (λ _, ret ()) c0 = (r, c') →
    trace c' = trace c0 ++
      [EvQuery (SqlInsertSelect (full_table_name self) (replace o)
                  (skip_duplicates o)
                  (filter (λ n, n ∈ heading_names W self) src_heading)
                  (QTable src restr))]).
  { intros c0. unfold bind, query, ret.
    destruct (run_sql B _ _) as [[n d]|e]; intros [= <- <-];
      unfold write, log_event; cbn; [by destruct (work c0)|done]. }
  destruct (ignore_extra_fields o) eqn:Hig.
  - unfold bind at 1, ret at 1. intros H. right. eexists.
    split; [by apply Hsend|]. split; [done|discriminate].
  - destruct (filter (λ n, n ∉ heading_names W self) src_heading) eqn:Hf.
    + unfold bind at 1, ret at 1. intros H. right. eexists.
      split; [by apply Hsend|]. split; [done|]. intros _. by apply Hall.
    + unfold bind at 1, raise at 1. intros [= <- <-]. left. eauto.
Qed.

(** ** Table names *)

Lemma startswith_cons (a : ascii) (p s : string) :
  startswith (String a p) s = true → startswith (String a EmptyString) s = true.
Proof.
  unfold startswith. destruct s as [|b s]; cbn; [done|].
  destruct (ascii_dec a b); [|done]. intros _. by destruct s.
Qed.

(** X17.  The name test of the downstream check looks at what follows
    the last dot of the name, without its backticks, and accepts it
    exactly when it begins with an underscore or with a hash followed by
    an underscore: the prefixes of two underscores and of an underscore
    followed by a hash, which the test also lists, never decide. *)
Theorem is_autopopulated_prefixes (child_name : string) :
  is_autopopulated child_name =
  let t := strip "`"%char (last_field "."%char EmptyString child_name) in
  startswith "_" t || startswith "#_" t.
Proof.
  unfold is_autopopulated. cbn zeta.
  set (t := strip _ _).
  destruct (startswith "_" t) eqn:E1.
  - by rewrite !orb_true_r.
  - assert (H2 : startswith "__" t = false).
    { destruct (startswith "__" t) eqn:E; [|done].
      apply startswith_cons in E. congruence. }
    assert (H3 : startswith "_#" t = false).
    { destruct (startswith "_#" t) eqn:E; [|done].
      apply startswith_cons in E. congruence. }
    by rewrite H2, H3.
Qed.

(** ** The names of a [FreeTable] *)

Lemma append_cons (a : ascii) (s t : string) :
  String a s +:+ t = String a (s +:+ t).
Proof. reflexivity. Qed.

Lemma append_nil_l (s : string) : EmptyString +:+ s = s.
Proof. reflexivity. Qed.

Lemma append_assoc (s t u : string) : (s +:+ t) +:+ u = s +:+ (t +:+ u).
Proof.
  induction s as [|a s IH]; [done|]. by rewrite !append_cons, IH.
Qed.

Lemma append_length (s t : string) :
  String.length (s +:+ t) = String.length s + String.length t.
Proof.
  induction s as [|a s IH]; [done|].
  rewrite append_cons. cbn. by rewrite IH.
Qed.

Lemma rev_app_spec (s acc : string) :
  String.rev_app s acc = String.rev s +:+ acc.
Proof.
  unfold String.rev. revert acc.
  induction s as [|a s IH]; intros acc; cbn; [done|].
  rewrite (IH (String a EmptyString)), IH.
  by rewrite append_assoc.
Qed.

Lemma rev_cons (a : ascii) (s : string) :
  String.rev (String a s) = String.rev s +:+ String a EmptyString.
Proof. unfold String.rev at 1. cbn. apply rev_app_spec. Qed.

Lemma rev_snoc (a : ascii) (s : string) :
  String.rev (s +:+ String a EmptyString) = String a (String.rev s).
Proof.
  induction s as [|b s IH]; [done|].
  by rewrite append_cons, !rev_cons, IH.
Qed.

Lemma rev_involutive (s : string) : String.rev (String.rev s) = s.
Proof.
  induction s as [|a s IH]; [done|]. by rewrite rev_cons, rev_snoc, IH.
Qed.

Lemma lstrip_cons (c : ascii) (s : string) :
  lstrip c (String c s) = lstrip c s.
Proof. cbn. by rewrite decide_True. Qed.

Lemma lstrip_other (c a : ascii) (s : string) :
  a ≠ c → lstrip c (String a s) = String a s.
Proof. intros Hne. cbn. by rewrite decide_False. Qed.

Lemma lstrip_idemp (c : ascii) (s : string) :
  lstrip c (lstrip c s) = lstrip c s.
Proof.
  induction s as [|a s IH]; [done|].
  destruct (decide (a = c)) as [->|Hne].
  - by rewrite lstrip_cons.
  - by rewrite !lstrip_other.
Qed.

(** Stripping on the left keeps the last character of what is left. *)
Lemma lstrip_snoc (c : ascii) (s : string) :
  lstrip c (s +:+ String c EmptyString)
  = match lstrip c s with
    | EmptyString => EmptyString
    | t => t +:+ String c EmptyString
    end.
Proof.
  induction s as [|a s IH].
  - by rewrite append_nil_l, lstrip_cons.
  - rewrite append_cons.
    destruct (decide (a = c)) as [->|Hne].
    + by rewrite !lstrip_cons.
    + by rewrite !lstrip_other.
Qed.

Lemma strip_cons (c : ascii) (s : string) :
  strip c (String c s) = strip c s.
Proof. unfold strip. by rewrite lstrip_cons. Qed.

Lemma strip_snoc (c : ascii) (s : string) :
  strip c (s +:+ String c EmptyString) = strip c s.
Proof.
  unfold strip. rewrite lstrip_snoc.
  destruct (lstrip c s) as [|a t] eqn:E; [done|].
  by rewrite rev_snoc, lstrip_cons.
Qed.

(** What [lstrip] removes is a run of the stripped character. *)
Lemma lstrip_first (c : ascii) (s : string) :
  match lstrip c s with
  | EmptyString => True
  | String a _ => a ≠ c
  end.
Proof.
  induction s as [|a s IH]; [done|].
  destruct (decide (a = c)) as [->|Hne].
  - by rewrite lstrip_cons.
  - by rewrite lstrip_other.
Qed.

(** The last character of [s] heads its reversal. *)
Lemma lstrip_rev_last (c : ascii) (s : string) :
  match s with
  | EmptyString => True
  | String a _ => a ≠ c
  end →
  lstrip c (String.rev (lstrip c (String.rev s)))
  = String.rev (lstrip c (String.rev s)).
Proof.
  remember (String.length s) as n eqn:Hn. revert s Hn.
  induction n as [n IH] using lt_wf_ind. intros s Hn.
  destruct s as [|a s]; [done|]. intros Ha.
  rewrite rev_cons.
  destruct (String.rev s) as [|b t] eqn:Er.
  - rewrite append_nil_l, lstrip_other by done.
    change (String.rev (String a EmptyString)) with (String a EmptyString).
    by rewrite lstrip_other.
  - rewrite append_cons.
    destruct (decide (b = c)) as [->|Hne].
    + rewrite lstrip_cons.
      assert (Hs : s = String.rev t +:+ String c EmptyString).
      { rewrite <- (rev_involutive s), Er. by rewrite rev_cons. }
      assert (Hlen : String.length (String a (String.rev t)) < n).
      { rewrite Hn, Hs. cbn. rewrite append_length. cbn. lia. }
      pose proof (IH _ Hlen (String a (String.rev t)) eq_refl Ha) as IH'.
      rewrite rev_cons, rev_involutive in IH'. exact IH'.
    + rewrite lstrip_other by done.
      assert (E : String b (t +:+ String a EmptyString)
                  = String.rev (String a s))
        by (by rewrite rev_cons, Er).
      rewrite E, rev_involutive. by rewrite lstrip_other.
Qed.

Lemma strip_idemp (c : ascii) (s : string) :
  strip c (strip c s) = strip c s.
Proof.
  unfold strip.
  rewrite (lstrip_rev_last c (lstrip c s)) by apply lstrip_first.
  by rewrite rev_involutive, lstrip_idemp.
Qed.

Lemma split_nonempty (c : ascii) (s : string) : split c s ≠ [].
Proof.
  destruct s as [|a s]; cbn; [done|].
  destruct (decide (a = c)); [done|]. by destruct (split c s).
Qed.

Lemma split_fields (c : ascii) (s : string) :
  Forall (λ field, has_char c field = false) (split c s).
Proof.
  induction s as [|a s IH]; cbn; [by repeat constructor|].
  destruct (decide (a = c)) as [->|Hne]; [by constructor|].
  destruct (split c s) as [|field fields].
  - repeat constructor. cbn. by rewrite bool_decide_eq_false_2.
  - inversion IH; subst. constructor; [|done].
    cbn. by rewrite bool_decide_eq_false_2.
Qed.

Lemma split_plain (c : ascii) (s : string) :
  has_char c s = false → split c s = [s].
Proof.
  induction s as [|a s IH]; cbn; [done|].
  intros [Ha Hs]%orb_false_iff. apply bool_decide_eq_false in Ha.
  rewrite decide_False by done. by rewrite IH.
Qed.

Lemma split_append (c : ascii) (a b : string) :
  has_char c a = false →
  split c (a +:+ String c b) = a :: split c b.
Proof.
  induction a as [|x a IH]; intros Ha.
  - rewrite append_nil_l. cbn. by rewrite decide_True.
  - cbn in Ha. apply orb_false_iff in Ha as [Hx Ha].
    apply bool_decide_eq_false in Hx.
    rewrite append_cons. cbn. rewrite decide_False by done.
    by rewrite IH.
Qed.

Lemma split_single (c : ascii) (s b : string) :
  split c s = [b] → s = b.
Proof.
  revert b. induction s as [|y s IH]; intros b; cbn.
  - by intros [= <-].
  - destruct (decide (y = c)).
    + intros [= _ Hs]. by apply split_nonempty in Hs.
    + destruct (split c s) as [|f fs] eqn:E.
      * by apply split_nonempty in E.
      * intros [= <- ->]. by rewrite (IH f eq_refl).
Qed.

(** A name splits into two fields exactly when it has one dot. *)
Lemma split_two (c : ascii) (s a b : string) :
  split c s = [a; b] ↔
  s = a +:+ String c b ∧ has_char c a = false ∧ has_char c b = false.
Proof.
  split.
  - revert a. induction s as [|x s IH]; intros a; cbn; [discriminate|].
    destruct (decide (x = c)) as [->|Hne].
    + intros [= <- Hs]. rewrite append_nil_l.
      pose proof (split_fields c s) as Hf. rewrite Hs in Hf.
      inversion Hf; subst. apply split_single in Hs as ->. done.
    + destruct (split c s) as [|f fs] eqn:E; [discriminate|].
      intros [= <- ->]. destruct (IH f eq_refl) as (-> & Hf & Hb).
      rewrite append_cons. split; [done|]. split; [|done].
      cbn. by rewrite bool_decide_eq_false_2.
  - intros (-> & Ha & Hb). rewrite split_append by done.
    by rewrite split_plain.
Qed.

Lemma has_char_append (c : ascii) (a b : string) :
  has_char c (a +:+ b) = has_char c a || has_char c b.
Proof.
  induction a as [|x a IH]; [done|].
  rewrite append_cons. cbn. by rewrite IH, orb_assoc.
Qed.

Lemma has_char_rev (c : ascii) (s : string) :
  has_char c (String.rev s) = has_char c s.
Proof.
  induction s as [|x s IH]; [done|].
  rewrite rev_cons, has_char_append, IH. cbn.
  by rewrite orb_false_r, orb_comm.
Qed.

Lemma has_char_lstrip (c d : ascii) (s : string) :
  has_char d s = false → has_char d (lstrip c s) = false.
Proof.
  induction s as [|x s IH]; [done|]. cbn.
  intros [Hx Hs]%orb_false_iff.
  destruct (decide (x = c)); [by apply IH|].
  cbn. by rewrite Hx, Hs.
Qed.

Lemma has_char_strip (c d : ascii) (s : string) :
  has_char d s = false → has_char d (strip c s) = false.
Proof.
  intros Hs. unfold strip.
  rewrite has_char_rev. apply has_char_lstrip.
  rewrite has_char_rev. by apply has_char_lstrip.
Qed.

Lemma free_table_init_fields (s database table_name : string) :
  free_table_init s = Ok (database, table_name) ↔
  ∃ a b, split "."%char s = [a; b] ∧
         database = strip "`"%char a ∧ table_name = strip "`"%char b.
Proof.
  unfold free_table_init.
  destruct (split "."%char s) as [|a [|b [|x fields]]]; cbn.
  - split; [discriminate|]. by intros (a & b & [=] & _).
  - split; [discriminate|]. by intros (a' & b & [=] & _).
  - split.
    + intros [= <- <-]. eauto.
    + by intros (a' & b' & [= <- <-] & -> & ->).
  - split; [discriminate|]. by intros (a' & b' & [=] & _).
Qed.

Lemma free_table_init_quoted (a b : string) :
  has_char "."%char a = false → has_char "."%char b = false →
  free_table_init (a +:+ String "."%char b)
  = Ok (strip "`"%char a, strip "`"%char b).
Proof.
  intros Ha Hb. apply free_table_init_fields. exists a, b.
  split; [|done]. by apply split_two.
Qed.

(** X18.  [FreeTable.__init__] accepts a full table name exactly when it
    has one dot; the database is what stands before the dot and the
    table name what stands after it, each without the backticks around
    it.  A name without a dot, or with more than one, makes the
    unpacking fail. *)
Theorem free_table_init_one_dot (s database table_name : string) :
  free_table_init s = Ok (database, table_name) ↔
  ∃ a b, s = a +:+ String "."%char b ∧
         has_char "."%char a = false ∧ has_char "."%char b = false ∧
         database = strip "`"%char a ∧ table_name = strip "`"%char b.
Proof.
  rewrite free_table_init_fields. split.
  - intros (a & b & Hs & -> & ->). exists a, b.
    apply split_two in Hs as (-> & Ha & Hb). done.
  - intros (a & b & -> & Ha & Hb & -> & ->). exists a, b.
    split; [|done]. by apply split_two.
Qed.

(** X19.  The names of a handle are stable: the full table name formed
    from the database and the table name that [FreeTable.__init__] read
    gives back the same two names, and so does the name written without
    backticks. *)
Theorem free_table_init_round_trip (s database table_name : string) :
  free_table_init s = Ok (database, table_name) →
  free_table_init (format_full_table_name database table_name)
  = Ok (database, table_name) ∧
  free_table_init (database +:+ "." +:+ table_name)
  = Ok (database, table_name).
Proof.
  intros (a & b & Hs & -> & ->)%free_table_init_fields.
  apply split_two in Hs as (_ & Ha & Hb).
  pose proof (has_char_strip "`" "." a Ha) as Hda.
  pose proof (has_char_strip "`" "." b Hb) as Hdb.
  split.
  - unfold format_full_table_name.
    change ("`" +:+ strip "`" a +:+ "`.`" +:+ strip "`" b +:+ "`")
      with (String "`" (strip "`" a +:+ String "`"
              (String "." (String "`" (strip "`" b +:+ "`"))))).
    assert (E : String "`" (strip "`" a +:+ String "`"
                  (String "." (String "`" (strip "`" b +:+ "`"))))
                = String "`" (strip "`" a +:+ "`")
                  +:+ String "." (String "`" (strip "`" b +:+ "`"))).
    { rewrite append_cons. f_equal. by rewrite append_assoc. }
    rewrite E, free_table_init_quoted.
    + by rewrite !strip_cons, !strip_snoc, !strip_idemp.
    + cbn. rewrite has_char_append, Hda. done.
    + cbn. rewrite has_char_append, Hdb. done.
  - change (strip "`" a +:+ "." +:+ strip "`" b)
      with (strip "`" a +:+ String "." (strip "`" b)).
    rewrite free_table_init_quoted by done.
    by rewrite !strip_idemp.
Qed.

(** ** The definition of an auto-made table *)

Lemma startswith_append (p b : string) : startswith p (p +:+ b) = true.
Proof.
  unfold startswith. induction p as [|a p IH]; [by destruct b|].
  rewrite append_cons. cbn. by destruct (ascii_dec a a).
Qed.

Lemma startswith_append_r (p s b : string) :
  startswith p s = true → startswith p (s +:+ b) = true.
Proof.
  unfold startswith. revert s. induction p as [|a p IH]; intros s.
  - intros _. by destruct (s +:+ b).
  - destruct s as [|x s]; [discriminate|].
    rewrite append_cons. cbn.
    destruct (ascii_dec a x); [apply IH|discriminate].
Qed.

Lemma contains_append_l (sub a s : string) :
  contains sub s = true → contains sub (a +:+ s) = true.
Proof.
  intros Hs. induction a as [|x a IH]; [done|].
  rewrite append_cons. cbn [contains]. rewrite IH. apply orb_true_r.
Qed.

Lemma contains_append_r (sub s b : string) :
  contains sub s = true → contains sub (s +:+ b) = true.
Proof.
  induction s as [|x s IH].
  - cbn [contains]. rewrite orb_false_r. intros Hp.
    destruct sub; [|discriminate]. by destruct b.
  - rewrite append_cons. cbn [contains].
    intros [Hp|Hs]%orb_true_iff.
    + apply (startswith_append_r _ _ b) in Hp.
      rewrite append_cons in Hp. by rewrite Hp.
    + rewrite IH by done. apply orb_true_r.
Qed.

Lemma contains_self (s : string) : contains s s = true.
Proof.
  destruct s as [|x s]; [done|]. cbn [contains].
  pose proof (startswith_append (String x s) EmptyString) as H.
  assert (E : String x s +:+ EmptyString = String x s).
  { clear. induction (String x s) as [|a t IH]; [done|].
    by rewrite append_cons, IH. }
  rewrite E in H. by rewrite H.
Qed.

Lemma join_member (sep x : string) (l : list string) :
  x ∈ l → contains x (join sep l) = true.
Proof.
  induction l as [|y l IH]; [by intros ?%elem_of_nil|].
  intros Hx. destruct l as [|z l].
  - apply elem_of_cons in Hx as [->|Hx]; [apply contains_self|by apply elem_of_nil in Hx].
  - change (join sep (y :: z :: l)) with (y +:+ sep +:+ join sep (z :: l)).
    apply elem_of_cons in Hx as [->|Hx].
    + apply contains_append_r, contains_self.
    + apply contains_append_l, contains_append_l. by apply IH.
Qed.

Lemma split_lines_nonempty (field ws : string) (nl : bool) (s : string) :
  split_lines field ws nl s ≠ [].
Proof.
  revert field ws nl. induction s as [|c s IH]; intros field ws nl; cbn.
  - by destruct nl.
  - destruct (is_space c); [apply IH|]. destruct nl; [done|apply IH].
Qed.

(** X20.  [set_true_definition] is idempotent: once the reference to the
    settings table is part of the definition, a further call leaves the
    definition as it is. *)
Theorem set_true_definition_idempotent (name definition : string) :
  set_true_definition name (set_true_definition name definition)
  = set_true_definition name definition.
Proof.
  set (attr := "-> " +:+ (name +:+ "Settings")).
  assert (Hin : contains attr (set_true_definition name definition) = true).
  { unfold set_true_definition. fold attr.
    destruct (contains attr definition) eqn:E; [exact E|].
    apply join_member.
    destruct (list_find _ _) as [[i line]|]; unfold list_insert_at;
      apply elem_of_app; right; left. }
  unfold set_true_definition at 1. fold attr. by rewrite Hin.
Qed.

(** X21.  Where the reference to the settings table goes.  When the
    definition does not hold it yet, its lines are kept in their order
    and the reference is added as one line among them: no line before it
    ends the primary key, and it stands immediately before the first
    line that does so; when no line ends the primary key it stands
    before the last line, not after it. *)
Theorem set_true_definition_position (name definition : string) :
  let attr := "-> " +:+ (name +:+ "Settings") in
  let lines := split_lines EmptyString EmptyString false
                 (strip_space definition) in
  contains attr definition = false →
  ∃ pre line post,
    lines = pre ++ line :: post ∧
    set_true_definition name definition
    = join (String newline EmptyString) (pre ++ attr :: line :: post) ∧
    Forall (λ l, is_divider l = false) pre ∧
    (is_divider line = true ∨
     (post = [] ∧ Forall (λ l, is_divider l = false) lines)).
Proof.
  intros attr lines Hnot. unfold set_true_definition.
  fold attr. rewrite Hnot. fold lines.
  destruct (list_find (λ line, is_divider line = true) lines)
    as [[i line]|] eqn:Ef.
  - apply list_find_Some in Ef as (Hi & Hdiv & Hbefore).
    exists (take i lines), line, (skipn (S i) lines).
    assert (Hd : skipn i lines = line :: skipn (S i) lines)
      by (by apply drop_S).
    split; [by rewrite <- Hd, take_drop|].
    split; [unfold list_insert_at; by rewrite Hd|].
    split; [|by left].
    apply Forall_forall. intros l Hl.
    apply list_elem_of_lookup in Hl as [j Hj].
    pose proof (lookup_lt_Some _ _ _ Hj) as Hlt.
    rewrite length_take in Hlt.
    rewrite lookup_take_lt in Hj by lia.
    destruct (is_divider l) eqn:E; [|done].
    exfalso. apply (Hbefore j l Hj); [lia|done].
  - apply list_find_None in Ef.
    assert (Hall : Forall (λ l, is_divider l = false) lines).
    { eapply Forall_impl; [exact Ef|]. cbn. intros l Hl.
      by destruct (is_divider l). }
    assert (Hne : lines ≠ []) by apply split_lines_nonempty.
    destruct (exists_last Hne) as (front & line & Hlines).
    exists front, line, []. clearbody lines. subst lines.
    split; [done|].
    assert (Hlen : length (front ++ [line]) - 1 = length front).
    { rewrite length_app. cbn. lia. }
    split.
    { unfold list_insert_at. rewrite Hlen.
      by rewrite take_app_length, drop_app_length. }
    split; [|by right].
    by apply Forall_app in Hall as [Hall _].
Qed.

(** ** The statements of [insert1p] *)

Lemma inserted_tables_app (l1 l2 : list event) :
  inserted_tables (l1 ++ l2) = inserted_tables l1 ++ inserted_tables l2.
Proof. apply omap_app. Qed.

(** What one call of [insert] with literal rows sends. *)
Lemma insert_rows_statements (self : table) (rs : list pyval)
    (o : insert_opts) (c c' : conn db) (r : result ()) :
  insert B W self (FromRows rs) o c = (r, c') →
  ∃ evs, trace c' = trace c ++ evs ∧
    (statements evs = [] ∧ inserted_tables evs = [] ∧
     (r = Ok () → heading W (full_table_name self) = None ∨ rs = []) ∨
     ∃ fl rows,
       statements evs = [SqlInsert (full_table_name self) (replace o)
                           (skip_duplicates o) fl rows] ∧
       inserted_tables evs = [full_table_name self] ∧
       length rows = length rs).
Proof.
  unfold insert.
  destruct (negb (allow_direct_insert o) && negb (_allow_insert self)).
  { intros [= <- <-]. exists []. rewrite app_nil_r. split; [done|]. by left. }
  destruct (heading W (full_table_name self)) as [h|].
  2:{ intros [= <- <-]. eexists. split; [done|]. left. eauto. }
  unfold bind, lift.
  destruct (make_rows_to_insert W self (ignore_extra_fields o) None rs)
    as [[fl' out]|e] eqn:Em.
  2:{ intros [= <- <-]. exists []. rewrite app_nil_r. split; [done|]. by left. }
  apply make_rows_to_insert_aligned in Em as (Hlen & _ & _).
  cbn [fst snd]. destruct out as [|r0 out].
  { intros [= <- <-]. exists []. rewrite app_nil_r. split; [done|]. left.
    repeat split; auto. intros _. right. by destruct rs. }
  unfold query. intros H.
  exists [EvQuery (SqlInsert (full_table_name self) (replace o)
                     (skip_duplicates o) (default [] fl') (r0 :: out))].
  split.
  - destruct (run_sql B _ _) as [[n d]|e]; injection H as <- <-; cbn; [|done].
    unfold write, log_event; cbn. by destruct (work c).
  - right. eauto.
Qed.

Lemma part_tables_list (self self' : table) (pts : list string)
    (c c' : conn db) :
  part_tables W self c = (Ok (pts, self'), c') →
  pts = part_list self ∧
  ∃ evs, trace c' = trace c ++ evs ∧ statements evs = [].
Proof.
  unfold part_tables, part_list.
  destruct (_part_tables self) as [cached|].
  - intros [= <- <- <-]. split; [done|]. exists []. by rewrite app_nil_r.
  - unfold bind, load, get_conn, lift, ret, log_event. cbn.
    destruct (part_names _ _ _) as [l|e]; [|discriminate].
    intros [= <- <- <-]. split; [done|]. by exists [EvLoad].
Qed.

Lemma insert_parts_statements (rows : frame) (o : insert_opts)
    (pts : list string) (c c' : conn db) (r : result ()) :
  for_each pts (insert_part B W rows o) c = (r, c') →
  ∃ evs, trace c' = trace c ++ evs ∧
    Forall (λ q, is_insert q = true) (statements evs) ∧
    inserted_tables evs `sublist_of` pts.
Proof.
  revert c. induction pts as [|p pts IH]; intros c; cbn [for_each].
  - intros [= <- <-]. exists []. rewrite app_nil_r. by repeat constructor.
  - unfold bind at 1.
    destruct (insert_part B W rows o p c) as [[[]|e] c1] eqn:E1.
    + assert (H1 : ∃ evs, trace c1 = trace c ++ evs ∧
                Forall (λ q, is_insert q = true) (statements evs) ∧
                inserted_tables evs `sublist_of` [p]).
      { unfold insert_part in E1.
        destruct (filter _ (heading_names W (FreeTable p))).
        { injection E1 as <-. exists []. rewrite app_nil_r.
          split; [done|]. split; [constructor|]. apply sublist_nil_l. }
        destruct (filter _ (pk_names W (FreeTable p))); [|discriminate].
        apply insert_rows_statements in E1
          as (evs & Ht & [(Hs & Hi & _)|(fl & sent & Hs & Hi & _)]);
          exists evs; rewrite Hs, Hi; split; try done.
        - split; [constructor|]. apply sublist_nil_l.
        - split; [by repeat constructor|done]. }
      destruct H1 as (evs1 & Ht1 & Hq1 & Hs1).
      intros H. apply IH in H as (evs2 & Ht2 & Hq2 & Hs2).
      exists (evs1 ++ evs2). rewrite Ht2, Ht1, <- app_assoc.
      split; [done|]. rewrite statements_app, inserted_tables_app.
      split; [by apply Forall_app|].
      by apply (sublist_app _ [p] _ pts).
    + intros [= <- <-].
      unfold insert_part in E1.
      destruct (filter _ (heading_names W (FreeTable p))); [discriminate|].
      destruct (filter _ (pk_names W (FreeTable p))).
      * apply insert_rows_statements in E1
          as (evs & Ht & [(Hs & Hi & _)|(fl & sent & Hs & Hi & _)]);
          exists evs; rewrite Hs, Hi; split; try done.
        -- split; [constructor|]. apply sublist_nil_l.
        -- split; [by repeat constructor|].
           apply sublist_skip, sublist_nil_l.
      * injection E1 as _ <-. exists []. rewrite app_nil_r.
        split; [done|]. split; [constructor|]. apply sublist_nil_l.
Qed.

Lemma insert1p_helper_statements (self : table) (master_input : pydict)
    (rows : frame) (o : insert_opts) (c c' : conn db) (r : result ()) :
  insert1p_helper B W self master_input rows o c = (r, c') →
  ∃ evs, trace c' = trace c ++ evs ∧
    Forall (λ q, is_insert q = true) (statements evs) ∧
    inserted_tables evs `sublist_of` full_table_name self :: part_list self ∧
    (is_Some (heading W (full_table_name self)) →
     statements evs = [] ∨
     ∃ fl row rest,
       statements evs = SqlInsert (full_table_name self) (replace o)
                          (skip_duplicates o) fl [row] :: rest).
Proof.
  unfold insert1p_helper, insert1. unfold bind at 1.
  destruct (insert B W self (FromRows [PDict master_input]) o c)
    as [[[]|e] c1] eqn:E1;
    apply insert_rows_statements in E1 as (evs1 & Ht1 & Hcase).
  2:{ intros [= <- <-]. exists evs1. split; [done|].
      destruct Hcase as [(Hs & Hi & _)|(fl & sent & Hs & Hi & Hlen)];
        rewrite Hs, Hi.
      - split; [constructor|]. split; [apply sublist_nil_l|]. by left.
      - split; [by repeat constructor|].
        split; [apply sublist_skip, sublist_nil_l|].
        intros _. right. destruct sent as [|row [|? ?]]; try discriminate.
        eauto. }
  unfold bind at 1.
  destruct (part_tables W self c1) as [[[pts self']|e] c2] eqn:E2.
  2:{ intros [= <- <-].
      assert (Hq : ∃ evs, trace c2 = trace c1 ++ evs ∧ statements evs = []
                          ∧ inserted_tables evs = []).
      { unfold part_tables in E2. destruct (_part_tables self); [discriminate|].
        unfold bind, load, get_conn, lift, ret, log_event in E2. cbn in E2.
        destruct (part_names _ _ _); [discriminate|].
        injection E2 as _ <-. by exists [EvLoad]. }
      destruct Hq as (evs2 & Ht2 & Hs2 & Hi2).
      exists (evs1 ++ evs2). rewrite Ht2, Ht1, <- app_assoc.
      split; [done|]. rewrite statements_app, inserted_tables_app, Hs2, Hi2.
      rewrite !app_nil_r.
      destruct Hcase as [(Hs & Hi & _)|(fl & sent & Hs & Hi & Hlen)];
        rewrite Hs, Hi.
      - split; [constructor|]. split; [apply sublist_nil_l|]. by left.
      - split; [by repeat constructor|].
        split; [apply sublist_skip, sublist_nil_l|].
        intros _. right. destruct sent as [|row [|? ?]]; try discriminate.
        eauto. }
  assert (Hi2 : ∃ evs, trace c2 = trace c1 ++ evs ∧ statements evs = [] ∧
                       inserted_tables evs = []).
  { unfold part_tables in E2. destruct (_part_tables self).
    - injection E2 as _ _ <-. exists []. by rewrite app_nil_r.
    - unfold bind, load, get_conn, lift, ret, log_event in E2. cbn in E2.
      destruct (part_names _ _ _); [|discriminate].
      injection E2 as _ _ <-. by exists [EvLoad]. }
  apply part_tables_list in E2 as (-> & _).
  destruct Hi2 as (evs2 & Ht2 & Hs2 & Hi2).
  intros H. apply insert_parts_statements in H as (evs3 & Ht3 & Hq3 & Hs3).
  exists (evs1 ++ evs2 ++ evs3). rewrite Ht3, Ht2, Ht1, <- !app_assoc.
  split; [done|].
  rewrite !statements_app, !inserted_tables_app, Hs2, Hi2.
  rewrite !app_nil_l.
  destruct Hcase as [(Hs & Hi & Hok)|(fl & sent & Hs & Hi & Hlen)];
    rewrite Hs, Hi.
  - split; [done|]. split; [by apply sublist_cons|].
    intros Hh. destruct (Hok eq_refl) as [Hnone|?]; [|discriminate].
    rewrite Hnone in Hh. by destruct Hh.
  - split; [by constructor|]. split; [by apply sublist_skip|].
    intros _. right. destruct sent as [|row [|? ?]]; try discriminate.
    eauto.
Qed.

Lemma tx_statements (evs : list event) :
  statements (EvStart :: evs ++ [EvCommit]) = statements evs ∧
  statements (EvStart :: evs ++ [EvCancel]) = statements evs ∧
  inserted_tables (EvStart :: evs ++ [EvCommit]) = inserted_tables evs ∧
  inserted_tables (EvStart :: evs ++ [EvCancel]) = inserted_tables evs.
Proof.
  cbn. rewrite !statements_app, !inserted_tables_app. cbn.
  by rewrite !app_nil_r.
Qed.

Lemma insert1p_statements
    (self : table) (rows : rows_arg) (o : insert_opts)
    (c c' : conn db) (r : result ()) :
  insert1p B W self rows o c = (r, c') →
  ∃ evs, trace c' = trace c ++ evs ∧
    Forall (λ q, is_insert q = true) (statements evs) ∧
    inserted_tables evs `sublist_of` full_table_name self :: part_list self ∧
    (is_Some (heading W (full_table_name self)) →
     statements evs = [] ∨
     ∃ fl row rest,
       statements evs = SqlInsert (full_table_name self) (replace o)
                          (skip_duplicates o) fl [row] :: rest).
Proof.
  assert (Hnil : ∃ evs, trace c = trace c ++ evs ∧
    Forall (λ q, is_insert q = true) (statements evs) ∧
    inserted_tables evs `sublist_of` full_table_name self :: part_list self ∧
    (is_Some (heading W (full_table_name self)) →
     statements evs = [] ∨
     ∃ fl row rest,
       statements evs = SqlInsert (full_table_name self) (replace o)
                          (skip_duplicates o) fl [row] :: rest)).
  { exists []. rewrite app_nil_r. split; [done|]. split; [constructor|].
    split; [apply sublist_nil_l|]. by left. }
  destruct (frame_of rows) as [f|] eqn:Hf.
  2:{ destruct rows; try discriminate. intros H.
      cbv [insert1p bind raise] in H. injection H as <- <-. exact Hnil. }
  rewrite (insert1p_frame _ _ _ _ Hf). cbn zeta.
  case_bool_decide; [intros [= <- <-]; exact Hnil|].
  case_bool_decide; [intros [= <- <-]; exact Hnil|].
  destruct (records (frame_select
              (filter (λ n, n ∈ columns f) (heading_names W self)) f))
    as [|first rest]; [intros [= <- <-]; exact Hnil|].
  clear Hnil.
  set (m := insert1p_helper B W self (filter (λ kv, kv.2 ≠ PNone) first) f o).
  destruct (in_transaction c) eqn:Ht.
  { intros Hrun. by apply insert1p_helper_statements in Hrun. }
  unfold transaction, on_error, bind, start_transaction. rewrite Ht. cbn.
  match goal with
  | |- context [m ?c1] => destruct (m c1) as [[[]|e] c2] eqn:E
  end; cbn; intros [= <- <-]; cbn;
    apply insert1p_helper_statements in E as (evs & T & Hq & Hs & Hfirst);
    cbn in T; destruct (tx_statements evs) as (S1 & S2 & I1 & I2).
  - exists (EvStart :: evs ++ [EvCommit]).
    split; [rewrite T, <- !app_assoc; done|].
    rewrite S1, I1. done.
  - exists (EvStart :: evs ++ [EvCancel]).
    split; [rewrite T, <- !app_assoc; done|].
    rewrite S2, I2. done.
Qed.

(** X22.  [insert1p] sends INSERT statements only, and in a fixed order:
    the table itself comes first and its part tables follow in the order
    of [part_tables], each of them written at most once.  When the
    heading of the table can be read, nothing is sent to a part table
    unless the statement that writes the single row of the master was
    sent before. *)
Theorem insert1p_master_first
    (self : table) (rows : rows_arg) (o : insert_opts)
    (c c' : conn db) (r : result ()) :
  insert1p B W self rows o c = (r, c') →
  ∃ evs, trace c' = trace c ++ evs ∧
    Forall (λ q, is_insert q = true) (statements evs) ∧
    inserted_tables evs `sublist_of` full_table_name self :: part_list self ∧
    (is_Some (heading W (full_table_name self)) →
     statements evs = [] ∨
     ∃ fl row rest,
       statements evs = SqlInsert (full_table_name self) (replace o)
                          (skip_duplicates o) fl [row] :: rest).
Proof. apply insert1p_statements. Qed.

(** ** The statements of [make] *)

Lemma make_fetch_reads (st : settings) (key : pyval) (c c1 : conn db)
    (r : result pydict) :
  make_fetch B st key c = (r, c1) → c1 = c.
Proof.
  unfold make_fetch. destruct (contains "fetch1" (fetch_method st)).
  - unfold bind, get_conn, lift. by intros [= _ <-].
  - unfold bind, len, get_conn, lift, raise.
    case_bool_decide; by intros [= _ <-].
Qed.

Lemma has_part_tables_statements (self : table) (c c1 : conn db)
    (r : result (bool * table)) :
  has_part_tables W self c = (r, c1) →
  ∃ evs, trace c1 = trace c ++ evs ∧ statements evs = [] ∧
         inserted_tables evs = [] ∧
         ∀ hpt self', r = Ok (hpt, self') →
           full_table_name self' = full_table_name self ∧
           part_list self' = part_list self.
Proof.
  unfold has_part_tables, bind, ret, part_tables, part_list.
  destruct (_part_tables self) as [cached|] eqn:Ec.
  - intros [= <- <-]. exists []. rewrite app_nil_r.
    repeat split; auto; injection H as _ <-; by rewrite ?Ec.
  - unfold bind, load, get_conn, lift, ret, log_event. cbn.
    destruct (part_names _ _ _) as [l|e].
    + intros [= <- <-]. exists [EvLoad].
      repeat split; auto; by injection H as _ <-.
    + intros [= <- <-]. exists [EvLoad]. by repeat split.
Qed.

Lemma store_output_statements (self : table) (st : settings)
    (entry : pydict) (output : pyobj) (hpt : bool)
    (c c' : conn db) (r : result ()) :
  store_output B W self st entry output hpt c = (r, c') →
  ∃ evs, trace c' = trace c ++ evs ∧
    Forall (λ q, is_insert q = true) (statements evs) ∧
    inserted_tables evs `sublist_of` full_table_name self :: part_list self.
Proof.
  assert (Hnil : ∃ evs, trace c = trace c ++ evs ∧
            Forall (λ q, is_insert q = true) (statements evs) ∧
            inserted_tables evs `sublist_of`
              full_table_name self :: part_list self).
  { exists []. rewrite app_nil_r. split; [done|]. split; [constructor|].
    apply sublist_nil_l. }
  assert (Hp : ∀ rows,
    insert1p B W self rows default_opts c = (r, c') →
    ∃ evs, trace c' = trace c ++ evs ∧
      Forall (λ q, is_insert q = true) (statements evs) ∧
      inserted_tables evs `sublist_of`
        full_table_name self :: part_list self).
  { intros rows H. apply insert1p_statements in H
      as (evs & Ht & Hq & Hs & _). eauto. }
  unfold store_output. unfold bind at 1, lift at 1.
  destruct (set_column "settings_name" (settings_name st) output)
    as [o1|e]; [|intros [= <- <-]; exact Hnil].
  unfold bind at 1, lift at 1.
  destruct (backfill entry _ o1) as [o2|e]; [|intros [= <- <-]; exact Hnil].
  destruct hpt.
  - destruct o2 as [[]|f|f]; apply Hp.
  - destruct o2 as [v|f|f]; try (intros [= <- <-]; exact Hnil).
    unfold insert1. intros H.
    apply insert_rows_statements in H
      as (evs & Ht & [(Hs & Hi & _)|(fl & sent & Hs & Hi & _)]);
      exists evs; rewrite Hs, Hi; split; try done.
    + split; [constructor|]. apply sublist_nil_l.
    + split; [by repeat constructor|]. apply sublist_skip, sublist_nil_l.
Qed.

(** X23.  What [make] itself writes.  The computation function and
    [make_compatible] are functions of their arguments here: what user
    code does with the connection on its own is not covered.  Whatever
    the settings and whatever output the function returns, the statements
    [make] sends are INSERT statements, the one for the table itself
    first and those for the part tables in the order of [part_tables]. *)
Theorem make_writes_own_tables
    (self : table) (st : settings) (key : pyval)
    (c c' : conn db) (r : result ()) :
  make B W self st key c = (r, c') →
  ∃ evs, trace c' = trace c ++ evs ∧
    Forall (λ q, is_insert q = true) (statements evs) ∧
    inserted_tables evs `sublist_of` full_table_name self :: part_list self.
Proof.
  assert (Hnil : ∃ evs, trace c = trace c ++ evs ∧
            Forall (λ q, is_insert q = true) (statements evs) ∧
            inserted_tables evs `sublist_of`
              full_table_name self :: part_list self).
  { exists []. rewrite app_nil_r. split; [done|]. split; [constructor|].
    apply sublist_nil_l. }
  unfold make. unfold bind at 1.
  destruct (make_fetch B st key c) as [[entry|e] c0] eqn:Ef;
    apply make_fetch_reads in Ef as ->;
    [|intros [= <- <-]; exact Hnil].
  unfold bind at 1, lift at 1.
  destruct (AutoMake._create_kwargs _ _ _ _ _) as [[arguments keywords]|e];
    [|intros [= <- <-]; exact Hnil].
  unfold bind at 1, lift at 1.
  destruct (func st arguments keywords) as [raw|e];
    [|intros [= <- <-]; exact Hnil].
  unfold bind at 1, lift at 1.
  destruct (make_compatible W raw) as [output|e];
    [|intros [= <- <-]; exact Hnil].
  clear Hnil. unfold bind at 1. rewrite normalize_output_eq. cbn zeta.
  set (warned := match output with
                 | ObjVal PNone =>
                     log_event (EvWarn "output of function is None for key") c
                 | _ => c
                 end).
  assert (Hw : ∃ evs, trace warned = trace c ++ evs ∧ statements evs = [] ∧
                      inserted_tables evs = []).
  { subst warned. destruct output as [[]|f|f];
      try (exists []; by rewrite app_nil_r).
    by eexists [_]. }
  destruct Hw as (evs0 & Ht0 & Hs0 & Hi0).
  destruct (has_part_tables W self warned) as [[[hpt self']|e] c1] eqn:Eh;
    apply has_part_tables_statements in Eh as (evs1 & Ht1 & Hs1 & Hi1 & Hself).
  2:{ intros [= <- <-]. exists (evs0 ++ evs1).
      rewrite Ht1, Ht0, <- app_assoc. split; [done|].
      rewrite statements_app, inserted_tables_app, Hs0, Hs1, Hi0, Hi1.
      split; [constructor|]. apply sublist_nil_l. }
  destruct (Hself hpt self' eq_refl) as [Hname Hparts].
  assert (Hquiet : ∃ evs, trace c1 = trace c ++ evs ∧
            Forall (λ q, is_insert q = true) (statements evs) ∧
            inserted_tables evs `sublist_of`
              full_table_name self :: part_list self).
  { exists (evs0 ++ evs1). rewrite Ht1, Ht0, <- app_assoc. split; [done|].
    rewrite statements_app, inserted_tables_app, Hs0, Hs1, Hi0, Hi1.
    split; [constructor|]. apply sublist_nil_l. }
  destruct (hpt && _); [intros [= <- <-]; exact Hquiet|].
  destruct (negb hpt && _); [intros [= <- <-]; exact Hquiet|].
  clear Hquiet. intros H.
  apply store_output_statements in H as (evs2 & Ht2 & Hq2 & Hs2).
  exists (evs0 ++ evs1 ++ evs2). rewrite Ht2, Ht1, Ht0, <- !app_assoc.
  split; [done|].
  rewrite !statements_app, !inserted_tables_app, Hs0, Hs1, Hi0, Hi1.
  rewrite !app_nil_l. rewrite <- Hname, <- Hparts. done.
Qed.

(** ** Fields outside the heading *)

Lemma rmap_ext {A C} (f g : A → result C) (l : list A) :
  (∀ x, x ∈ l → f x = g x) → rmap f l = rmap g l.
Proof.
  induction l as [|x l IH]; intros H; cbn; [done|].
  rewrite (H x) by left. rewrite IH; [done|].
  intros y Hy. apply H. by right.
Qed.

Lemma filter_ext_elem {A} (P Q : A → Prop) `{∀ x, Decision (P x)}
    `{∀ x, Decision (Q x)} (l : list A) :
  (∀ x, x ∈ l → (P x ↔ Q x)) → filter P l = filter Q l.
Proof.
  induction l as [|x l IH]; intros Hl; [done|].
  rewrite !filter_cons.
  assert (Hx : P x ↔ Q x) by (apply Hl; left).
  rewrite IH by (intros y Hy; apply Hl; by right).
  destruct (decide (P x)), (decide (Q x)); tauto.
Qed.

Lemma dict_keys_filter (l : list string) (d : pydict) :
  (filter (λ kv, kv.1 ∈ l) d).*1 = filter (λ k, k ∈ l) (d.*1).
Proof.
  induction d as [|[k v] d IH]; [done|].
  rewrite fmap_cons, !filter_cons. cbn [fst].
  destruct (decide (k ∈ l)); [rewrite fmap_cons|]; by rewrite IH.
Qed.

Lemma dict_get_filter (l : list string) (d : pydict) (k : string) :
  k ∈ l → dict_get k (filter (λ kv, kv.1 ∈ l) d) = dict_get k d.
Proof.
  intros Hk. induction d as [|[k0 v0] d IH]; [done|].
  rewrite filter_cons. cbn [fst].
  destruct (decide (k0 ∈ l)) as [Hk0|Hk0]; cbn.
  - destruct (decide (k0 = k)); [done|exact IH].
  - destruct (decide (k0 = k)) as [->|]; [done|exact IH].
Qed.

(** Once the field list is fixed, the keys of a mapping row that are
    not attributes of the heading play no part. *)
Lemma later_row_heading_only (self : table) (d : pydict)
    (ignore_extra : bool) (fl : list string) :
  _make_row_to_insert W self (PDict d) ignore_extra (Some fl)
  = _make_row_to_insert W self
      (PDict (filter (λ kv, kv.1 ∈ heading_names W self) d))
      ignore_extra (Some fl).
Proof.
  unfold _make_row_to_insert, _check_fields. cbn beta iota.
  rewrite dict_keys_filter.
  rewrite list_filter_filter.
  rewrite (filter_ext_elem
             (λ x, x ∈ heading_names W self ∧ x ∈ heading_names W self)
             (λ x, x ∈ heading_names W self) (d.*1)) by (intros; tauto).
  destruct (same_fields fl _); cbn; [|done].
  rewrite (filter_ext_elem
             (λ name, name ∈ filter (λ k, k ∈ heading_names W self) (d.*1))
             (λ name, name ∈ d.*1) (heading_names W self)).
  2:{ intros x Hx. rewrite list_elem_of_filter. tauto. }
  f_equal. apply rmap_ext. intros name Hn.
  apply list_elem_of_filter in Hn as [_ Hn].
  by rewrite dict_get_filter.
Qed.

Lemma make_rows_later_heading_only (self : table) (ignore_extra : bool)
    (fl : list string) (pre post : list pyval) (d : pydict) :
  make_rows_to_insert W self ignore_extra (Some fl) (pre ++ PDict d :: post)
  = make_rows_to_insert W self ignore_extra (Some fl)
      (pre ++ PDict (filter (λ kv, kv.1 ∈ heading_names W self) d) :: post).
Proof.
  induction pre as [|row pre IH]; cbn.
  - by rewrite later_row_heading_only.
  - destruct (_make_row_to_insert W self row ignore_extra (Some fl));
      cbn; [|done].
    destruct (reorder fl _); cbn; [|done]. by rewrite IH.
Qed.

(** X24.  Only the first row of a batch is checked for fields outside
    the heading.  In any later position a mapping row may name fields
    that the table does not have: [insert] treats it exactly as the same
    row without those fields, also when [ignore_extra_fields] is not
    set. *)
Theorem insert_later_extra_fields
    (self : table) (first : pyval) (pre post : list pyval) (d : pydict)
    (o : insert_opts) (c : conn db) :
  insert B W self (FromRows (first :: pre ++ PDict d :: post)) o c
  = insert B W self
      (FromRows (first :: pre ++
                 PDict (filter (λ kv, kv.1 ∈ heading_names W self) d) :: post))
      o c.
Proof.
  unfold insert.
  destruct (negb (allow_direct_insert o) && negb (_allow_insert self));
    [done|].
  destruct (heading W (full_table_name self)); [|done].
  unfold bind, lift. cbn [make_rows_to_insert].
  destruct (_make_row_to_insert W self first (ignore_extra_fields o) None)
    as [r|e]; cbn; [|done].
  by rewrite make_rows_later_heading_only.
Qed.

(** X25.  In the first row of a batch a field outside the heading is
    refused: when the heading can be read and [ignore_extra_fields] is
    not set, [insert] raises and leaves the connection as it was. *)
Theorem insert_first_extra_field
    (self : table) (d : pydict) (rest : list pyval) (k : string)
    (o : insert_opts) (c : conn db) :
  is_Some (heading W (full_table_name self)) →
  ignore_extra_fields o = false →
  k ∈ d.*1 → k ∉ heading_names W self →
  ∃ e, insert B W self (FromRows (PDict d :: rest)) o c = (Raise e, c).
Proof.
  intros [h Hh] Hig Hk Hout. unfold insert.
  destruct (negb (allow_direct_insert o) && negb (_allow_insert self));
    [by eexists|].
  rewrite Hh. unfold bind, lift. cbn [make_rows_to_insert].
  unfold _make_row_to_insert, _check_fields. cbn beta iota. rewrite Hig.
  destruct (filter (λ f, f ∉ heading_names W self) (d.*1)) as [|f fs] eqn:Hf.
  - exfalso. eapply (filter_nil_not _ _ Hf k); done.
  - cbn. by eexists.
Qed.

(** ** What [insert1p] writes when it returns *)

Lemma insert_rows_sent (self : table) (rs : list pyval) (o : insert_opts)
    (c c' : conn db) :
  is_Some (heading W (full_table_name self)) →
  rs ≠ [] →
  insert B W self (FromRows rs) o c = (Ok (), c') →
  ∃ fl rows,
    trace c' = trace c ++
      [EvQuery (SqlInsert (full_table_name self) (replace o)
                  (skip_duplicates o) fl rows)] ∧
    Forall2 (encodes self) rs rows.
Proof.
  intros [h Hh] Hrs. unfold insert.
  destruct (negb (allow_direct_insert o) && negb (_allow_insert self));
    [discriminate|].
  rewrite Hh. unfold bind, lift.
  destruct (make_rows_to_insert W self (ignore_extra_fields o) None rs)
    as [[fl' out]|e] eqn:Em; [|discriminate].
  pose proof (make_rows_to_insert_encodes _ _ _ _ _ _ Em) as Henc.
  cbn [fst snd]. destruct out as [|r0 out].
  { apply Forall2_length in Henc. destruct rs; [done|discriminate]. }
  unfold query. intros H. exists (default [] fl'), (r0 :: out).
  split; [|done].
  destruct (run_sql B _ _) as [[n d]|e]; [|discriminate].
  injection H as <-. unfold write, log_event; cbn. by destruct (work c).
Qed.

Lemma drop_duplicates_nonempty (subset : list string) (rs : list pydict) :
  rs ≠ [] → drop_duplicates subset rs ≠ [].
Proof.
  destruct rs as [|r rs]; [done|]. intros _. unfold drop_duplicates. cbn.
  rewrite bool_decide_eq_false_2; [done|]. apply not_elem_of_nil.
Qed.

Lemma insert_part_sent (f : frame) (o : insert_opts) (p : string)
    (c c' : conn db) :
  table_columns (FreeTable p) f ≠ [] →
  records f ≠ [] →
  insert_part B W f o p c = (Ok (), c') →
  ∃ q, trace c' = trace c ++ [EvQuery q] ∧ part_statement f o p q.
Proof.
  intros Hcols Hrec. unfold insert_part.
  fold (table_columns (FreeTable p) f).
  destruct (table_columns (FreeTable p) f) as [|col cols] eqn:Ec; [done|].
  destruct (filter _ (pk_names W (FreeTable p))); [|discriminate].
  intros H. apply insert_rows_sent in H as (fl & sent & Ht & Henc).
  - eexists. split; [exact Ht|]. exists fl, sent. split; [done|].
    unfold part_input. by rewrite Ec.
  - unfold table_columns, heading_names in Ec. cbn in *.
    destruct (heading W p); [done|discriminate].
  - intros Hnil. apply fmap_nil_inv in Hnil.
    apply drop_duplicates_nonempty in Hnil; [done|].
    cbn. intros Hn. apply fmap_nil_inv in Hn. done.
Qed.

Lemma insert_parts_sent (f : frame) (o : insert_opts) (pts : list string)
    (c c' : conn db) :
  (∀ p, p ∈ pts → table_columns (FreeTable p) f ≠ []) →
  records f ≠ [] →
  for_each pts (insert_part B W f o) c = (Ok (), c') →
  ∃ evs, trace c' = trace c ++ evs ∧
         Forall2 (part_statement f o) pts (statements evs).
Proof.
  intros Hcols Hrec. revert c.
  induction pts as [|p pts IH]; intros c; cbn [for_each].
  - intros [= <-]. exists []. rewrite app_nil_r. split; [done|constructor].
  - unfold bind at 1.
    destruct (insert_part B W f o p c) as [[[]|e] c1] eqn:E1; [|discriminate].
    apply insert_part_sent in E1 as (q & Ht1 & Hq);
      [|apply Hcols; left|done].
    intros H. apply IH in H as (evs & Ht & Hparts).
    2:{ intros p' Hp'. apply Hcols. by right. }
    exists (EvQuery q :: evs). rewrite Ht, Ht1, <- app_assoc.
    split; [done|]. cbn. by constructor.
Qed.

Lemma insert1p_helper_sent (self : table) (first : pydict) (f : frame)
    (o : insert_opts) (c c' : conn db) :
  is_Some (heading W (full_table_name self)) →
  (∀ p, p ∈ part_list self → table_columns (FreeTable p) f ≠ []) →
  records f ≠ [] →
  insert1p_helper B W self first f o c = (Ok (), c') →
  ∃ evs fl row parts,
    trace c' = trace c ++ evs ∧
    statements evs
    = SqlInsert (full_table_name self) (replace o) (skip_duplicates o)
        fl [row] :: parts ∧
    encodes self (PDict first) row ∧
    Forall2 (part_statement f o) (part_list self) parts.
Proof.
  intros Hh Hcols Hrec. unfold insert1p_helper, insert1. unfold bind at 1.
  destruct (insert B W self (FromRows [PDict first]) o c)
    as [[[]|e] c1] eqn:E1; [|discriminate].
  apply insert_rows_sent in E1 as (fl & sent & Ht1 & Henc); [|done|done].
  inversion Henc as [|? row ? rest Hrow Hrest]; subst.
  inversion Hrest; subst.
  unfold bind at 1.
  destruct (part_tables W self c1) as [[[pts self']|e] c2] eqn:E2;
    [|discriminate].
  assert (Hq : ∃ evs, trace c2 = trace c1 ++ evs ∧ statements evs = []).
  { unfold part_tables in E2. destruct (_part_tables self).
    - injection E2 as _ _ <-. exists []. by rewrite app_nil_r.
    - unfold bind, load, get_conn, lift, ret, log_event in E2. cbn in E2.
      destruct (part_names _ _ _); [|discriminate].
      injection E2 as _ _ <-. by exists [EvLoad]. }
  apply part_tables_list in E2 as (-> & _).
  destruct Hq as (evs2 & Ht2 & Hs2).
  intros H. apply insert_parts_sent in H as (evs3 & Ht3 & Hparts);
    [|done|done].
  eexists (_ :: evs2 ++ evs3), fl, row, (statements evs3).
  split; [rewrite Ht3, Ht2, Ht1, <- !app_assoc; reflexivity|].
  cbn. rewrite statements_app, Hs2. done.
Qed.

(** The master row and then every part table are written when
    [insert1p] returns. *)
Lemma insert1p_sent (self : table) (rows : rows_arg) (f : frame)
    (o : insert_opts) (c c' : conn db) :
  frame_of rows = Some f →
  is_Some (heading W (full_table_name self)) →
  (∀ p, p ∈ part_list self → table_columns (FreeTable p) f ≠ []) →
  insert1p B W self rows o c = (Ok (), c') →
  ∃ evs master parts,
    trace c' = trace c ++ evs ∧
    statements evs = master :: parts ∧
    master_statement self f o master ∧
    Forall2 (part_statement f o) (part_list self) parts.
Proof.
  intros Hf Hh Hcols. rewrite (insert1p_frame _ _ _ _ Hf). cbn zeta.
  fold (table_columns self f).
  case_bool_decide; [discriminate|].
  case_bool_decide; [discriminate|].
  destruct (records (frame_select (table_columns self f) f))
    as [|first rest] eqn:Erec; [discriminate|].
  assert (Hrec : records f ≠ []).
  { intros Hn. cbn in Erec. rewrite Hn in Erec. discriminate. }
  set (m := insert1p_helper B W self (filter (λ kv, kv.2 ≠ PNone) first) f o).
  assert (Hm : ∀ c1 c2, m c1 = (Ok (), c2) →
    ∃ evs master parts,
      trace c2 = trace c1 ++ evs ∧
      statements evs = master :: parts ∧
      master_statement self f o master ∧
      Forall2 (part_statement f o) (part_list self) parts).
  { intros c1 c2 Hrun.
    apply insert1p_helper_sent in Hrun
      as (evs & fl & row & parts & Ht & Hs & Henc & Hparts); try done.
    eexists evs, _, parts. split; [done|]. split; [exact Hs|].
    split; [|done]. exists first, rest, fl, row. done. }
  destruct (in_transaction c) eqn:Ht; [apply Hm|].
  unfold transaction, on_error, bind, start_transaction. rewrite Ht. cbn.
  match goal with
  | |- context [m ?c1] => destruct (m c1) as [[[]|e] c2] eqn:E
  end; cbn; [|discriminate].
  intros [= <-]. cbn.
  apply Hm in E as (evs & master & parts & T & Hs & Hmaster & Hparts).
  cbn in T. exists (EvStart :: evs ++ [EvCommit]), master, parts.
  split; [rewrite T, <- !app_assoc; done|].
  split; [|done]. cbn. rewrite statements_app, Hs. cbn.
  by rewrite app_nil_r.
Qed.

(** C3.  [insert1p] writes one logical record atomically.  It raises,
    with nothing changed, when two records of the row set differ on a
    primary-key attribute of the master.  Whatever it does, it runs
    inside one transaction: joining an open one it emits no begin, commit
    or cancel and leaves the committed contents alone; otherwise it opens
    one transaction itself and ends it, by a commit when it returns and by
    a cancel when any write of the master or of a part table fails, in
    which case the committed contents are what they were.  When it
    returns, it has sent the INSERT of the master row, which is the first
    record cut down to the master's columns and freed of its null values,
    and after it, for every part table and in the order of [part_tables],
    the INSERT of the part's records, one per key of the part; every part
    table is taken to share a column with the row set, as it does through
    its reference to the master. *)
Theorem insert1p_atomic
    (self : table) (rows : rows_arg) (o : insert_opts) (c : conn db) :
  (∀ f r1 r2 k,
     frame_of rows = Some f → r1 ∈ records f → r2 ∈ records f →
     k ∈ pk_names W self → cell k r1 ≠ cell k r2 →
     ∃ e, insert1p B W self rows o c = (Raise e, c)) ∧
  (∀ r c',
     insert1p B W self rows o c = (r, c') →
     if in_transaction c
     then ∃ evs, trace c' = trace c ++ evs ∧ quiet evs ∧
                 is_Some (work c') ∧ store c' = store c
     else work c' = None ∧
          match r with
          | Ok _ => ∃ evs, quiet evs ∧
                           trace c' = trace c ++ EvStart :: evs ++ [EvCommit]
          | Raise _ =>
              store c' = store c ∧
              (trace c' = trace c ∨
               ∃ evs, quiet evs ∧
                      trace c' = trace c ++ EvStart :: evs ++ [EvCancel])
          end) ∧
  (∀ f c',
     frame_of rows = Some f →
     is_Some (heading W (full_table_name self)) →
     (∀ p, p ∈ part_list self → table_columns (FreeTable p) f ≠ []) →
     insert1p B W self rows o c = (Ok (), c') →
     ∃ evs master parts,
       trace c' = trace c ++ evs ∧
       statements evs = master :: parts ∧
       master_statement self f o master ∧
       Forall2 (part_statement f o) (part_list self) parts).
Proof.
  split; [|split].
  3:{ intros f c' Hf Hh Hcols Hrun. by eapply insert1p_sent. }
  - intros f r1 r2 k Hf H1 H2 Hk Hne. rewrite (insert1p_frame _ _ _ _ Hf).
    cbn zeta. case_bool_decide as Hpk; [unfold raise; eauto|].
    rewrite bool_decide_eq_true_2; [unfold raise; eauto|].
    apply (master_key_not_unique self f r1 r2 k); auto.
  - intros r c' H. destruct (frame_of rows) as [f|] eqn:Hf.
    + rewrite (insert1p_frame _ _ _ _ Hf) in H. cbn zeta in H.
      repeat case_bool_decide; try (by apply raise_in_transaction in H).
      destruct (records _) as [|first rest];
        [by apply raise_in_transaction in H|].
      apply run_in_transaction in H; [done|apply inert_insert1p_helper].
    + destruct rows; try discriminate.
      by apply raise_in_transaction in H.
Qed.

End Facts.

(** * The properties on the demonstration pipeline *)

Section Pipeline.

Import Demo.

Ltac compute_decision :=
  match goal with
  | |- ?P => apply (bool_decide_unpack P); vm_compute; exact I
  end.

Example create_kwargs_demo :
  AutoMake._create_kwargs
    [("colA", PInt 1); ("colB", PInt 2); ("colC", PInt 3)]
    [("x", PStr "colA"); ("y", PTuple [PStr "colB"; PStr "colC"])]
    [("x", PInt 0); ("rest", PList [PInt 7]); ("opts", PDict [("z", PInt 9)])]
    (Some "rest") (Some "opts")
  = Ok ([PInt 7],
        [("x", PInt 1); ("y", PTuple [PInt 2; PInt 3]); ("z", PInt 9)]).
Proof. vm_compute. reflexivity. Qed.

Lemma pipeline_ranked : ranked pipeline depth.
Proof. apply ranked_check. vm_compute. reflexivity. Qed.

Lemma pipeline_aliases_resolved : aliases_resolved pipeline.
Proof. apply aliases_resolved_check. vm_compute. reflexivity. Qed.

Lemma cascade_planned : make_delete_list pipeline subject = Ok cascade.
Proof. vm_compute. reflexivity. Qed.

(** [__weight] holds the row computed for subject 5. *)
Lemma subject5_dependent_child :
  dependent_child server (lab false "no") pipeline subject5 idle.
Proof.
  exists (weight, EdgeProps true false [("subject_id", "subject_id")]),
         (weight, EdgeProps true false [("subject_id", "subject_id")]).
  split; [by repeat constructor|]. split; [reflexivity|].
  split; [reflexivity|]. vm_compute. discriminate.
Qed.

(** C1: the delete of subject 5 inside the transaction of an outer call,
    with the prompt declined, ends outside any transaction after a
    cancel. *)
Lemma delete_finalizes_joined_transaction_witness :
  work (delete server (lab false "no") subject5 true false joined).2 = None ∧
  ∃ evs,
    trace (delete server (lab false "no") subject5 true false joined).2
    = trace joined ++ evs ∧
    (EvCommit ∈ evs ∨ EvCancel ∈ evs).
Proof.
  apply (delete_finalizes_joined_transaction server (lab false "no")
           subject5 true false joined).
  - reflexivity.
  - vm_compute. reflexivity.
Defined.

(** C1: the run in full.  The pending deletes of the call, and whatever
    else the outer transaction held, are discarded by the cancel. *)
Example delete_cancels_joined_transaction :
  let out := delete server (lab false "no") subject5 true false joined in
  out.1 = Ok () ∧ work out.2 = None ∧ last (trace out.2) = Some EvCancel.
Proof. vm_compute. done. Qed.

Example delete_commits_joined_transaction :
  let out := delete server (lab false "yes") subject5 true false joined in
  out.1 = Ok () ∧ work out.2 = None ∧
  last (trace out.2) = Some (EvPrint "Commited.") ∧
  rows_of (store out.2) subject = [[("subject_id", PInt 6); ("mass", PInt 22)]].
Proof. vm_compute. done. Qed.

(** C7 on the pipeline. *)
Lemma delete_safemode_in_transaction_witness :
  ∃ msg, delete server (lab true "yes") subject5 true false joined
         = (Raise (DataJointError msg), joined).
Proof.
  apply (delete_safemode_in_transaction server (lab true "yes")
           subject5 true false joined); reflexivity.
Defined.

(** C8 on the pipeline. *)
Lemma drop_restricted_refused_witness :
  ∃ msg, drop server (lab false "yes") subject5 idle
         = (Raise (DataJointError msg), idle).
Proof.
  apply (drop_restricted_refused server (lab false "yes") subject5 idle).
  vm_compute. discriminate.
Defined.

(** C9: an insert of no rows into an auto-populated table, from outside
    its [make] callback and without [allow_direct_insert], raises. *)
Lemma insert_no_rows_counterexample :
  insert server (lab false "no") weight_outside_make (FromRows [])
    default_opts idle
  = (Raise (DataJointError
      "Inserts into an auto-populated table can only done inside its make method during a populate call."),
     idle).
Proof. vm_compute. reflexivity. Qed.

Lemma insert_no_rows_witness :
  ∃ evs,
    insert server (lab false "no") (FreeTable subject) (FromRows [])
      default_opts idle
    = (Ok (), Conn (store idle) (work idle) (dependencies idle)
                (trace idle ++ evs)) ∧
    Forall (λ ev, is_query ev = false) evs.
Proof.
  apply (insert_no_rows server (lab false "no") (FreeTable subject)
           default_opts idle).
  reflexivity.
Defined.

(** C10 on the pipeline: a scan without its [scan_id]. *)
Lemma insert1p_missing_key_witness :
  ∃ e, insert1p server (lab false "no") scan_in_make
         (RowsDict [("depth", PInt 3)]) default_opts idle
       = (Raise e, idle).
Proof.
  apply (insert1p_missing_key server (lab false "no") scan_in_make
           (RowsDict [("depth", PInt 3)]) default_opts idle "scan_id").
  - compute_decision.
  - compute_decision.
Defined.

(** C3 on the pipeline.  Where the part table [_scan__frame] is missing
    on the server, the write of the frames fails after the master row was
    written; the transaction is cancelled and the contents are as before.
    Where it exists, the scan and then its two frames are written. *)
Lemma insert1p_atomic_witness :
  (let out := insert1p server (lab false "no") scan_in_make
                (RowsFrame two_frames) default_opts idle in
   work out.2 = None ∧
   store out.2 = store idle ∧
   (trace out.2 = trace idle ∨
    ∃ evs, quiet evs ∧
           trace out.2 = trace idle ++ EvStart :: evs ++ [EvCancel])) ∧
  (let out := insert1p server (lab false "no") scan_in_make
                (RowsFrame two_frames) default_opts idle_frames in
   ∃ evs master parts,
     trace out.2 = trace idle_frames ++ evs ∧
     statements evs = master :: parts ∧
     master_statement (lab false "no") scan_in_make two_frames default_opts
       master ∧
     Forall2 (part_statement (lab false "no") two_frames default_opts)
       [scan_frame] parts).
Proof.
  split; cbn zeta.
  - pose proof (proj1 (proj2 (insert1p_atomic server (lab false "no")
                         scan_in_make (RowsFrame two_frames) default_opts
                         idle))
                  (Raise (BackendError 1146))
                  (insert1p server (lab false "no") scan_in_make
                     (RowsFrame two_frames) default_opts idle).2) as H.
    apply H. vm_compute. reflexivity.
  - apply (proj2 (proj2 (insert1p_atomic server (lab false "no")
                           scan_in_make (RowsFrame two_frames) default_opts
                           idle_frames)) two_frames).
    + reflexivity.
    + by eexists.
    + intros p Hp. vm_compute in Hp.
      apply elem_of_cons in Hp as [->|Hp];
        [vm_compute; discriminate|by apply elem_of_nil in Hp].
    + vm_compute. reflexivity.
Defined.

Example insert1p_rolls_back :
  let out := insert1p server (lab false "no") scan_in_make
               (RowsFrame two_frames) default_opts idle in
  out.1 = Raise (BackendError 1146) ∧ store out.2 = stocked ∧
  last (trace out.2) = Some EvCancel.
Proof. vm_compute. done. Qed.

(** C4 on the example of the specification. *)
Lemma create_kwargs_spec_witness :
  ∃ assembled : pydict,
    (∀ k, k ∉ ["x"; "y"] → dict_get k assembled
                           = dict_get k [("x", PInt 0); ("rest", PList [PInt 7])]) ∧
    (∀ k arg,
       (k, arg) ∈ [("x", PStr "colA"); ("y", PTuple [PStr "colB"; PStr "colC"])] →
       ∃ v, dict_get k assembled = Some v ∧
            binding_value [("colA", PInt 1); ("colB", PInt 2); ("colC", PInt 3)]
              arg v) ∧
    (∃ v, dict_get "rest" assembled = Some v ∧ py_iter v = Ok [PInt 7]) ∧
    (∀ k, dict_get k [("x", PInt 1); ("y", PTuple [PInt 2; PInt 3])]
          = if decide (Some "rest" = Some k) then None
            else dict_get k assembled).
Proof.
  apply (create_kwargs_spec
           [("colA", PInt 1); ("colB", PInt 2); ("colC", PInt 3)]
           [("x", PStr "colA"); ("y", PTuple [PStr "colB"; PStr "colC"])]
           [("x", PInt 0); ("rest", PList [PInt 7])]
           (Some "rest") None
           [PInt 7] [("x", PInt 1); ("y", PTuple [PInt 2; PInt 3])]).
  - compute_decision.
  - reflexivity.
Defined.

(** C5: in the delete of the unrestricted [subject] the table itself does
    not restrict by its whole relation, while the projection node [2],
    which is not on an edge from [subject], does. *)
Lemma restrict_by_me_counterexample :
  make_delete_list pipeline (full_table_name (FreeTable subject)) = Ok cascade ∧
  (restrict_by_me pipeline (FreeTable subject) cascade
   = ({[ "1"; "2"; cage ]} : gset string)) ∧
  (subject ∉ restrict_by_me pipeline (FreeTable subject) cascade) ∧
  ("2" ∈ restrict_by_me pipeline (FreeTable subject) cascade) ∧
  ("2" ∉ (children pipeline subject None).*1).
Proof.
  split; [reflexivity|].
  assert (E : restrict_by_me pipeline (FreeTable subject) cascade
              = ({[ "1"; "2"; cage ]} : gset string)).
  { compute_decision. }
  split; [exact E|]. rewrite E.
  split; [|split].
  - compute_decision.
  - compute_decision.
  - compute_decision.
Qed.

Lemma restrict_by_me_spec_witness :
  subject ∈ restrict_by_me pipeline subject5 cascade ↔
    (restriction subject5 ≠ [] ∧ subject = full_table_name subject5) ∨
    (subject ∈ descendants pipeline (full_table_name subject5) ∧
     isdigit subject = true) ∨
    (∃ n, n ∈ descendants pipeline (full_table_name subject5) ∧
          subject ∈ (children pipeline n (Some false)).*1).
Proof.
  apply (restrict_by_me_spec pipeline subject5 cascade subject).
  reflexivity.
Defined.

(** C6 on the pipeline: [_scan] has a part table, and a function that
    returns a number violates the output contract. *)
Lemma make_output_shape_witness :
  make server (lab false "no") scan_in_make (mass_settings (ObjVal (PInt 0)))
    key5 idle
  = (Raise (DataJointError
       "output must be dataframe or dict for table with part tables."),
     Conn stocked None pipeline [EvLoad]).
Proof.
  refine (proj1 (make_output_shape server (lab false "no") scan_in_make
                   (mass_settings (ObjVal (PInt 0))) key5 idle idle
                   [("subject_id", PInt 5); ("mass", PInt 20)]
                   [] [("scale", PInt 2); ("m", PInt 20)]
                   (ObjVal (PInt 0)) (ObjVal (PInt 0))
                   _ _ _ _ true
                   (with_part_tables scan_in_make [scan_frame])
                   (Conn stocked None pipeline [EvLoad]) _) _).
  - vm_compute. reflexivity.
  - reflexivity.
  - reflexivity.
  - reflexivity.
  - vm_compute. reflexivity.
  - split; intros [x Hx]; [discriminate|destruct Hx; discriminate].
Defined.

(** C6: a function that returns nothing gets a warning and an empty
    record, which is a valid shape. *)
Example make_none_output :
  let out := make server (lab false "no") scan_in_make
               (mass_settings (ObjVal PNone)) key5 idle in
  trace out.2 !! 0 = Some (EvWarn "output of function is None for key") ∧
  out.1 = Raise (AssertionError
            "not all master primary key in dataframe for insert1p.").
Proof. vm_compute. done. Qed.

(** C2: under [warn], with the computed weight of subject 5 present, the
    warning is emitted and no UPDATE is issued. *)
Lemma save_update_counterexample :
  save_update server (lab false "no") 6 subject5 "mass" (PInt 21) true
    "warn" idle
  = (Ok (), Conn stocked None pipeline [EvLoad; EvWarn save_update_failure]).
Proof. vm_compute. reflexivity. Qed.

(** The report of subject 6 lies two levels below [subject], behind the
    manual table [session]. *)
Lemma subject6_dependent_below :
  dependent_below server (lab false "no") pipeline subject6 idle.
Proof.
  set (via := ("1", EdgeProps true true [("animal", "subject_id")])).
  set (s6 := (session, EdgeProps true true [("animal", "subject_id")])).
  set (r6 := (report, EdgeProps true false
                        [("animal", "animal"); ("session", "session")])).
  exists (restricted_child (lab false "no")
            (restricted_child (lab false "no") subject6 s6) r6).
  split; [|split].
  - eapply downstream_next.
    + apply (downstream_child (lab false "no") pipeline subject6 via s6);
        [by repeat constructor|reflexivity].
    + apply (downstream_child (lab false "no") pipeline _ r6 r6);
        [by repeat constructor|reflexivity].
  - reflexivity.
  - vm_compute. discriminate.
Qed.

Lemma save_update_policies_witness :
  (∃ evs,
     Forall (λ ev, ev = EvLoad ∨
                   ("warn" = "warn" ∧ ev = EvWarn save_update_failure)) evs ∧
     save_update server (lab false "no") 6 subject5 "mass" (PInt 21) true
       "warn" idle
     = (Ok (), Conn (store idle) (work idle) pipeline (trace idle ++ evs)) ∧
     EvWarn save_update_failure ∈ evs) ∧
  (∃ evs,
     Forall (λ ev, ev = EvLoad) evs ∧
     save_update server (lab false "no") 6 subject6 "mass" (PInt 21) true
       "raise" idle
     = (Raise (DataJointError save_update_failure),
        Conn (store idle) (work idle) pipeline (trace idle ++ evs))).
Proof.
  split.
  - destruct (save_update_policies server (lab false "no") pipeline depth 6
                subject5 "mass" (PInt 21) true "warn" idle) as (_ & H & _).
    + exact pipeline_ranked.
    + exact pipeline_aliases_resolved.
    + left. split; reflexivity.
    + vm_compute. lia.
    + reflexivity.
    + reflexivity.
    + destruct (H subject5_dependent_child) as (evs & Hevs & Hrun).
      exists evs. split; [exact Hevs|]. exact Hrun.
  - destruct (save_update_policies server (lab false "no") pipeline depth 6
                subject6 "mass" (PInt 21) true "raise" idle) as (H & _ & _).
    + exact pipeline_ranked.
    + exact pipeline_aliases_resolved.
    + left. split; reflexivity.
    + vm_compute. lia.
    + reflexivity.
    + reflexivity.
    + apply H; [exact subject6_dependent_below|discriminate|discriminate].
Defined.

(** C2: the policies side by side on subject 5. *)
Example save_update_raise :
  save_update server (lab false "no") 6 subject5 "mass" (PInt 21) true
    "raise" idle
  = (Raise (DataJointError save_update_failure),
     Conn stocked None pipeline [EvLoad]).
Proof. vm_compute. reflexivity. Qed.

Example save_update_ignore :
  save_update server (lab false "no") 6 subject5 "mass" (PInt 21) true
    "ignore" idle
  = (Ok (), Conn stocked None pipeline [EvLoad]).
Proof. vm_compute. reflexivity. Qed.

(** C2: the value returned by the recursive call is dropped, so a
    dependent row two levels down (the report of subject 6, below the
    manual table [session]) stops the update only under [raise]. *)
Example save_update_grandchild :
  let run error := save_update server (lab false "no") 6 subject6 "mass"
                     (PInt 21) true error idle in
  (run "raise").1 = Raise (DataJointError save_update_failure) ∧
  rows_of (store (run "ignore").2) subject
  = [[("subject_id", PInt 5); ("mass", PInt 20)];
     [("subject_id", PInt 6); ("mass", PInt 21)]] ∧
  rows_of (store (run "warn").2) subject
  = [[("subject_id", PInt 5); ("mass", PInt 20)];
     [("subject_id", PInt 6); ("mass", PInt 21)]].
Proof. vm_compute. done. Qed.

(** ** The further properties on the pipeline *)

(** X1: the cascade from [_scan] reaches the part table [_scan__frame],
    which is missing on the server; the delete fails and nothing is
    left of it. *)
Lemma delete_failure_rolls_back_witness :
  let out := _delete server (lab false "yes") (FreeTable scan) true false
               idle in
  delete server (lab false "yes") (FreeTable scan) true false idle
  = (Raise (BackendError 1146), out.2) ∧
  store out.2 = store idle ∧ work out.2 = None.
Proof.
  cbn zeta.
  apply (delete_failure_rolls_back server (lab false "yes") (FreeTable scan)
           true false idle _ (BackendError 1146)).
  - reflexivity.
  - vm_compute. reflexivity.
Defined.

(** X2: the delete of subject 5 declined at the prompt. *)
Lemma delete_declined_keeps_contents_witness :
  let out := delete server (lab true "no") subject5 true false idle in
  store out.2 = store idle ∧ work out.2 = None.
Proof.
  cbn zeta.
  apply (delete_declined_keeps_contents server (lab true "no") subject5
           true idle _ (Ok ())).
  - reflexivity.
  - reflexivity.
  - discriminate.
  - vm_compute. reflexivity.
Defined.

(** X3: the cascade from [subject] deletes the audit first and the
    subjects last. *)
Lemma _delete_reverse_order_witness :
  let out := _delete server (lab false "yes") (FreeTable subject) false true
               idle in
  ∃ evs,
    trace out.2 = trace idle ++ evs ∧
    deleted_tables evs `prefix_of`
      filter (λ n, negb (isdigit n))
        (reverse (descendants pipeline subject)) ∧
    (∀ res, out.1 = Ok res →
       deleted_tables evs
       = filter (λ n, negb (isdigit n))
           (reverse (descendants pipeline subject))).
Proof.
  cbn zeta.
  apply (_delete_reverse_order server (lab false "yes") (FreeTable subject)
           false true idle).
  - compute_decision.
  - vm_compute. reflexivity.
Defined.

(** X4: the drop of [subject] declined at the prompt. *)
Lemma drop_declined_drops_nothing_witness :
  ∃ evs,
    drop server (lab true "no") (FreeTable subject) idle
    = (Ok (), Conn (store idle) (work idle) pipeline (trace idle ++ evs)) ∧
    statements evs = [].
Proof.
  apply (drop_declined_drops_nothing server (lab true "no")
           (FreeTable subject) idle).
  - reflexivity.
  - reflexivity.
  - discriminate.
Defined.

(** X5: the drop of [subject] and of everything below it. *)
Lemma drop_reverse_order_witness :
  let out := drop server (lab false "yes") (FreeTable subject) idle in
  ∃ evs,
    trace out.2 = trace idle ++ evs ∧
    dropped_tables evs `sublist_of`
      reverse (filter (λ t, negb (isdigit t)) (descendants pipeline subject)).
Proof.
  cbn zeta.
  apply (drop_reverse_order server (lab false "yes") (FreeTable subject)
           idle _ (Ok ())).
  vm_compute. reflexivity.
Defined.

(** X6: a subject given as a mapping, the mass first. *)
Lemma _make_row_to_insert_shape_witness :
  ∃ r,
    _make_row_to_insert (lab false "no") (FreeTable subject)
      (PDict [("mass", PInt 20); ("subject_id", PInt 7)]) false None = Ok r ∧
    names r ≠ [] ∧
    names r = ["subject_id"; "mass"] ∧
    length (placeholders r) = length (names r) ∧
    length (values r) = length (names r).
Proof.
  eexists. split; [vm_compute; reflexivity|].
  apply (_make_row_to_insert_shape (lab false "no") (FreeTable subject)
           (PDict [("mass", PInt 20); ("subject_id", PInt 7)]) false None).
  vm_compute. reflexivity.
Defined.

(** X7: two subjects, the second one with its attributes in another
    order. *)
Lemma insert_rows_one_statement_witness :
  let rs := [PDict [("subject_id", PInt 7); ("mass", PInt 20)];
             PDict [("mass", PInt 21); ("subject_id", PInt 8)]] in
  let out := insert server (lab false "no") (FreeTable subject) (FromRows rs)
               default_opts idle in
  (∃ e, out.1 = Raise e ∧ out.2 = idle) ∨
  ∃ fl rows,
    trace out.2 = trace idle ++
      [EvQuery (SqlInsert subject false false fl rows)] ∧
    length rows = 2 ∧
    fl ≠ [] ∧ fl ⊆ heading_names (lab false "no") (FreeTable subject) ∧
    Forall (aligned fl) rows ∧
    Forall2 (encodes (lab false "no") (FreeTable subject)) rs rows.
Proof.
  cbn zeta.
  apply (insert_rows_one_statement server (lab false "no") (FreeTable subject)
           [PDict [("subject_id", PInt 7); ("mass", PInt 20)];
            PDict [("mass", PInt 21); ("subject_id", PInt 8)]]
           default_opts idle).
  - by eexists.
  - discriminate.
  - vm_compute. reflexivity.
Defined.

(** X8: a subject without its mass after a well-formed one. *)
Lemma insert_checks_whole_batch_witness :
  ∃ e, insert server (lab false "no") (FreeTable subject)
         (FromRows [PTuple [PInt 7; PInt 20]; PTuple [PInt 8]])
         default_opts idle
       = (Raise e, idle).
Proof.
  apply (insert_checks_whole_batch server (lab false "no") (FreeTable subject)
           [PTuple [PInt 7; PInt 20]; PTuple [PInt 8]] (PTuple [PInt 8])
           default_opts idle).
  - by eexists.
  - compute_decision.
  - split; [discriminate|]. intros items [= <-]. vm_compute. lia.
Defined.

(** X9: the part table of [_scan]. *)
Lemma part_tables_of_master_witness :
  (∀ p, p ∈ [scan_frame] → part_of pipeline scan p) ∧
  (∀ ch info,
     (ch, info) ∈ children pipeline scan None →
     aliased info = false →
     startswith (remove_char "`"%char scan +:+ "__")
                (remove_char "`"%char ch) = true →
     ch ∈ [scan_frame]).
Proof.
  apply (part_tables_of_master (lab false "no") scan_in_make
           (with_part_tables scan_in_make [scan_frame]) [scan_frame]
           idle (Conn stocked None pipeline [EvLoad])).
  - reflexivity.
  - vm_compute. reflexivity.
Defined.

(** X10: the handle of [_scan] answers again after the dependencies were
    lost. *)
Lemma part_tables_cached_witness :
  part_tables (lab false "no") (with_part_tables scan_in_make [scan_frame])
    idle
  = (Ok ([scan_frame], with_part_tables scan_in_make [scan_frame]), idle).
Proof.
  apply (part_tables_cached (lab false "no") scan_in_make
           (with_part_tables scan_in_make [scan_frame]) [scan_frame]
           idle (Conn stocked None pipeline [EvLoad]) idle).
  vm_compute. reflexivity.
Defined.

(** X11: the check below subject 5 under the policy [warn]. *)
Lemma _check_downstream_autopopulated_reads_only_witness :
  let out := _check_downstream_autopopulated server (lab false "no") 6
               subject5 true "warn" idle in
  store out.2 = store idle ∧ work out.2 = work idle ∧
  ∃ evs, trace out.2 = trace idle ++ evs ∧ statements evs = [] ∧
         Forall (λ ev, ev = EvLoad ∨
                       ("warn" = "warn" ∧ ev = EvWarn save_update_failure))
                evs.
Proof.
  cbn zeta.
  apply (_check_downstream_autopopulated_reads_only server (lab false "no") 6
           subject5 true "warn" idle _ (Ok false)).
  vm_compute. reflexivity.
Defined.

(** X12: the mass of subject 6 is updated under the policy [ignore]. *)
Lemma save_update_guarded_witness :
  let out := save_update server (lab false "no") 6 subject6 "mass" (PInt 21)
               true "ignore" idle in
  ∃ evs, trace out.2 = trace idle ++ evs ∧
    ((statements evs = [] ∧ store out.2 = store idle ∧
      work out.2 = work idle) ∨
     (∃ ph args,
        statements evs = [SqlUpdate (as_query subject6) [("mass", ph)] args] ∧
        count_rows server (visible idle) (as_query subject6) = 1 ∧
        "mass" ∈ heading_names (lab false "no") subject6 ∧
        "mass" ∉ pk_names (lab false "no") subject6)).
Proof.
  cbn zeta.
  apply (save_update_guarded server (lab false "no") 6 subject6 "mass"
           (PInt 21) true "ignore" idle _ (Ok ())).
  vm_compute. reflexivity.
Defined.

(** X13: the same update written as a mapping. *)
Lemma save_updates_guarded_witness :
  let out := save_updates server (lab false "no") 6 subject6
               (PDict [("mass", PInt 21)]) true "ignore" idle in
  ∃ evs, trace out.2 = trace idle ++ evs ∧
    ((statements evs = [] ∧ store out.2 = store idle ∧
      work out.2 = work idle) ∨
     (∃ row,
        statements evs =
          [SqlUpdate (as_query subject6) (zip (names row) (placeholders row))
             (omap id (values row))] ∧
        count_rows server (visible idle) (as_query subject6) = 1 ∧
        names row = filter (λ n, n ∈ [("mass", PInt 21)].*1)
                      (heading_names (lab false "no") subject6) ∧
        names row ≠ [] ∧
        length (placeholders row) = length (names row) ∧
        ∀ k, k ∈ [("mass", PInt 21)].*1 →
             k ∈ heading_names (lab false "no") subject6 ∧
             k ∉ pk_names (lab false "no") subject6)).
Proof.
  cbn zeta.
  apply (save_updates_guarded server (lab false "no") 6 subject6
           [("mass", PInt 21)] true "ignore" idle _ (Ok ())).
  vm_compute. reflexivity.
Defined.

(** X14: under [ignore], the update of subject 5 returns without a
    statement because the check answered false. *)
Lemma save_updates_returns_witness :
  let c' := Conn stocked None pipeline [EvLoad] in
  (∃ evs row,
     trace c' = trace idle ++ evs ++
       [EvQuery (SqlUpdate (as_query subject5)
                   (zip (names row) (placeholders row))
                   (omap id (values row)))] ∧
     _make_row_to_insert (lab false "no") subject5
       (PDict [("mass", PInt 21)]) false None = Ok row) ∨
  _check_downstream_autopopulated server (lab false "no") 6 subject5 true
    "ignore" idle
  = (Ok false, c').
Proof.
  cbn zeta.
  apply (save_updates_returns server (lab false "no") 6 subject5
           (PDict [("mass", PInt 21)]) true "ignore" idle).
  vm_compute. reflexivity.
Defined.

(** X16: the subjects copied into [cage]; the mass, unknown to [cage],
    is left out because extra fields are ignored. *)
Lemma insert_from_query_fields_witness :
  let o := InsertOpts false false true false in
  let out := insert server (lab false "no") (FreeTable cage)
               (FromQuery (QTable subject CTrue)) o idle in
  (∃ e, out.1 = Raise e ∧ out.2 = idle) ∨
  ∃ fields,
    trace out.2 = trace idle ++
      [EvQuery (SqlInsertSelect cage false false fields
                  (QTable subject CTrue))] ∧
    fields = ["subject_id"] ∧
    (true = false → fields = ["subject_id"; "mass"]).
Proof.
  cbn zeta.
  apply (insert_from_query_fields server (lab false "no") (FreeTable cage)
           subject CTrue (InsertOpts false false true false) idle).
  vm_compute. reflexivity.
Defined.

(** X18: the name of [_scan__frame]. *)
Lemma free_table_init_one_dot_witness :
  free_table_init scan_frame = Ok ("lab", "_scan__frame").
Proof.
  apply (proj2 (free_table_init_one_dot scan_frame "lab" "_scan__frame")).
  exists "`lab`", "`_scan__frame`". repeat split; reflexivity.
Defined.

(** X19: the name of [_scan__frame] with and without its backticks. *)
Lemma free_table_init_round_trip_witness :
  free_table_init (format_full_table_name "lab" "_scan__frame")
  = Ok ("lab", "_scan__frame") ∧
  free_table_init "lab._scan__frame" = Ok ("lab", "_scan__frame").
Proof.
  apply (free_table_init_round_trip scan_frame "lab" "_scan__frame").
  reflexivity.
Defined.

(** X21: a definition with a divider, and one without. *)
Lemma set_true_definition_position_witness :
  let definition :=
    "scan_id : int" +:+ String newline ("---" +:+ String newline "depth : int")
  in
  ∃ pre line post,
    ["scan_id : int"; "---"; "depth : int"] = pre ++ line :: post ∧
    set_true_definition "Scan" definition
    = join (String newline EmptyString)
        (pre ++ "-> ScanSettings" :: line :: post) ∧
    Forall (λ l, is_divider l = false) pre ∧
    (is_divider line = true ∨
     (post = [] ∧
      Forall (λ l, is_divider l = false)
        ["scan_id : int"; "---"; "depth : int"])).
Proof.
  cbn zeta.
  apply (set_true_definition_position "Scan"
           ("scan_id : int" +:+
            String newline ("---" +:+ String newline "depth : int"))).
  vm_compute. reflexivity.
Defined.

Example set_true_definition_divider :
  set_true_definition "Scan"
    ("scan_id : int" +:+ String newline ("---" +:+ String newline "depth : int"))
  = join (String newline EmptyString)
      ["scan_id : int"; "-> ScanSettings"; "---"; "depth : int"].
Proof. vm_compute. reflexivity. Qed.

Example set_true_definition_no_divider :
  set_true_definition "Scan"
    ("scan_id : int" +:+ String newline "depth : int")
  = join (String newline EmptyString)
      ["scan_id : int"; "-> ScanSettings"; "depth : int"].
Proof. vm_compute. reflexivity. Qed.

(** X22: the scan and its two frames. *)
Lemma insert1p_master_first_witness :
  let out := insert1p server (lab false "no") scan_in_make
               (RowsFrame two_frames) default_opts idle in
  ∃ evs, trace out.2 = trace idle ++ evs ∧
    Forall (λ q, is_insert q = true) (statements evs) ∧
    inserted_tables evs `sublist_of` [scan; scan_frame] ∧
    (is_Some (heading (lab false "no") scan) →
     statements evs = [] ∨
     ∃ fl row rest,
       statements evs = SqlInsert scan false false fl [row] :: rest).
Proof.
  cbn zeta.
  eapply (insert1p_master_first server (lab false "no") scan_in_make
           (RowsFrame two_frames) default_opts idle).
  vm_compute. reflexivity.
Defined.

(** X23: a scan computed for subject 5. *)
Lemma make_writes_own_tables_witness :
  let st := mass_settings
              (ObjVal (PDict [("scan_id", PInt 1); ("depth", PInt 3)])) in
  let out := make server (lab false "no") scan_in_make st key5 idle in
  ∃ evs, trace out.2 = trace idle ++ evs ∧
    Forall (λ q, is_insert q = true) (statements evs) ∧
    inserted_tables evs `sublist_of` [scan; scan_frame].
Proof.
  cbn zeta.
  eapply (make_writes_own_tables server (lab false "no") scan_in_make
           (mass_settings
              (ObjVal (PDict [("scan_id", PInt 1); ("depth", PInt 3)])))
           key5 idle).
  vm_compute. reflexivity.
Defined.

Example make_scan_statements :
  let st := mass_settings
              (ObjVal (PDict [("scan_id", PInt 1); ("depth", PInt 3)])) in
  let out := make server (lab false "no") scan_in_make st key5 idle in
  inserted_tables (trace out.2) = [scan].
Proof. vm_compute. reflexivity. Qed.

(** X25: a subject with a colour, which [subject] does not have. *)
Lemma insert_first_extra_field_witness :
  ∃ e, insert server (lab false "no") (FreeTable subject)
         (FromRows [PDict [("subject_id", PInt 7); ("mass", PInt 20);
                           ("colour", PInt 1)]])
         default_opts idle
       = (Raise e, idle).
Proof.
  apply (insert_first_extra_field server (lab false "no") (FreeTable subject)
           [("subject_id", PInt 7); ("mass", PInt 20); ("colour", PInt 1)]
           [] "colour" default_opts idle).
  - by eexists.
  - reflexivity.
  - compute_decision.
  - compute_decision.
Defined.

(** X24 and X25 side by side: the colour is refused in the first row and
    passes unnoticed in the second. *)
Example insert_extra_field_by_position :
  let plain := PDict [("subject_id", PInt 7); ("mass", PInt 20)] in
  let coloured := PDict [("subject_id", PInt 8); ("mass", PInt 21);
                         ("colour", PInt 1)] in
  let run rs := insert server (lab false "no") (FreeTable subject)
                  (FromRows rs) default_opts idle in
  (run [coloured; plain]).1 = Raise (KeyError (PStr "colour")) ∧
  (run [plain; coloured]).1 = Ok () ∧
  rows_of (store (run [plain; coloured]).2) subject
  = [[("subject_id", PInt 5); ("mass", PInt 20)];
     [("subject_id", PInt 6); ("mass", PInt 22)];
     [("subject_id", PInt 7); ("mass", PInt 20)];
     [("subject_id", PInt 8); ("mass", PInt 21)]].
Proof. vm_compute. done. Qed.

(** X15: a scan whose depth the function did not return is completed
    from the entry; the settings name is set. *)
Lemma store_output_backfill_witness :
  ∃ d2,
    (∀ c, store_output server (lab false "no") scan_in_make
            (mass_settings (ObjVal PNone))
            [("scan_id", PInt 1); ("depth", PInt 3); ("mass", PInt 20)]
            (ObjVal (PDict [("scan_id", PInt 1)])) true c
          = insert1p server (lab false "no") scan_in_make (RowsDict d2)
              default_opts c) ∧
    ∀ k, dict_get k d2 =
         if decide (k = "settings_name") then Some (PStr "default")
         else match dict_get k [("scan_id", PInt 1)] with
              | Some v => Some v
              | None =>
                  if bool_decide
                       (k ∈ heading_names (lab false "no") scan_in_make)
                  then match dict_get k [("scan_id", PInt 1);
                                         ("depth", PInt 3);
                                         ("mass", PInt 20)] with
                       | Some PNone | None => None
                       | Some v => Some v
                       end
                  else None
              end.
Proof.
  apply (store_output_backfill server (lab false "no") scan_in_make
           (mass_settings (ObjVal PNone))
           [("scan_id", PInt 1); ("depth", PInt 3); ("mass", PInt 20)]
           [("scan_id", PInt 1)] true).
  by repeat constructor.
Defined.

(** A column fetched as an array of several values has no truth value
    in the null test: completing the output raises. *)
Example store_output_array_entry :
  store_output server (lab false "no") scan_in_make
    (mass_settings (ObjVal PNone))
    [("scan_id", PList [PInt 1; PInt 1]); ("depth", PList [PInt 3; PInt 4])]
    (ObjVal (PDict [("scan_id", PInt 1)])) true idle
  = (Raise ValueError, idle).
Proof. vm_compute. reflexivity. Qed.

(** C3: the run in full on the server that has the part table. *)
Example insert1p_writes_master_and_parts :
  let out := insert1p server (lab false "no") scan_in_make
               (RowsFrame two_frames) default_opts idle_frames in
  out.1 = Ok () ∧
  inserted_tables (trace out.2) = [scan; scan_frame] ∧
  rows_of (store out.2) scan = [[("scan_id", PInt 1); ("depth", PInt 3)]] ∧
  rows_of (store out.2) scan_frame
  = [[("scan_id", PInt 1); ("frame", PInt 0); ("mean", PInt 7)];
     [("scan_id", PInt 1); ("frame", PInt 1); ("mean", PInt 8)]].
Proof. vm_compute. done. Qed.

End Pipeline.
